(** * datajoint-sqlite: connection manager and dependency graph

    A shallow embedding of [datajoint/connection.py] and
    [datajoint/dependencies.py], and the properties of the two modules.

    Layout: the embedding (Python values and exceptions, the error
    translation, the connection state machine over a driver oracle, the
    directed graph with the networkx routines the code calls, and
    [Dependencies]), the vocabulary of the statements, then the lemmas
    and theorems. *)

From Stdlib Require Import List String Ascii ZArith Bool Arith Lia Permutation.
Import ListNotations.
Local Open Scope string_scope.
Local Open Scope list_scope.

Set Implicit Arguments.

(* ================================================================== *)
(** * Python values and exceptions *)
(* ================================================================== *)

(** The members of an exception's [args] tuple that the code inspects:
    integers (driver error codes) and strings (messages). *)
Inductive pyval : Type :=
| VInt (z : Z)
| VStr (s : string).

(** Python [==] on these values: an [int] never equals a [str]. *)
Definition py_eq (a b : pyval) : bool :=
  match a, b with
  | VInt x, VInt y => Z.eqb x y
  | VStr x, VStr y => String.eqb x y
  | _, _ => false
  end.

(** [pymysql.err]: [InterfaceError] and [DatabaseError] derive from
    [Error]; the other six derive from [DatabaseError] and have no
    subclasses, so [isinstance] against one of them is a test of the
    class itself. *)
Module client_err.
Inductive cls : Type :=
| InterfaceError | DatabaseError | DataError | OperationalError
| IntegrityError | InternalError | ProgrammingError | NotSupportedError.

Definition eqb (a b : cls) : bool :=
  match a, b with
  | InterfaceError, InterfaceError | DatabaseError, DatabaseError
  | DataError, DataError | OperationalError, OperationalError
  | IntegrityError, IntegrityError | InternalError, InternalError
  | ProgrammingError, ProgrammingError
  | NotSupportedError, NotSupportedError => true
  | _, _ => false
  end.
End client_err.

(** A driver exception: its class and its [args] tuple. *)
Record client_error : Type := ClientErr {
  ce_class : client_err.cls;
  ce_args : list pyval
}.

(** [datajoint.errors]. *)
Module errors.
Inductive cls : Type :=
| DataJointError | ConnectionError | LostConnectionError | AccessError
| DuplicateError | IntegrityError | QuerySyntaxError | MissingTableError
| MissingAttributeError | UnknownAttributeError.
End errors.

(** [sqlite3]: [DatabaseError] and [InterfaceError] derive from [Error];
    the other six derive from [DatabaseError]. *)
Module sqlite3.
Inductive cls : Type :=
| Error | InterfaceError | DatabaseError | DataError | OperationalError
| IntegrityError | InternalError | ProgrammingError | NotSupportedError.

(** [isinstance(e, sqlite3.DatabaseError)] *)
Definition is_DatabaseError (c : cls) : bool :=
  match c with
  | Error | InterfaceError => false
  | _ => true
  end.

Definition is_OperationalError (c : cls) : bool :=
  match c with OperationalError => true | _ => false end.
Definition is_IntegrityError (c : cls) : bool :=
  match c with IntegrityError => true | _ => false end.
Definition is_ProgrammingError (c : cls) : bool :=
  match c with ProgrammingError => true | _ => false end.
End sqlite3.

(** The exceptions that travel through the two modules. *)
Inductive exn : Type :=
| ClientError (e : client_error)                    (* pymysql.err.* *)
| DJError (c : errors.cls) (args : list pyval)      (* datajoint.errors.* *)
| Sqlite3Error (c : sqlite3.cls) (msg : string)     (* sqlite3.* *)
| IndexError
| AttributeError
| PlainException (msg : string)                     (* Exception(msg) *)
| OtherError (name : string).

(** A Python call either returns a value or raises. *)
Inductive result (A : Type) : Type :=
| Return (a : A)
| Raise (e : exn).
Arguments Return {A} a.
Arguments Raise {A} e.

Definition rbind {A B} (r : result A) (k : A -> result B) : result B :=
  match r with
  | Return a => k a
  | Raise e => Raise e
  end.

Declare Scope result_scope.
Delimit Scope result_scope with result.
Notation "x <- r ;; k" := (rbind r (fun x => k))
  (at level 61, r at next level, right associativity) : result_scope.

(** [t[i]] on a tuple: [IndexError] out of range. *)
Definition tuple_get (t : list pyval) (i : nat) : result pyval :=
  match nth_error t i with
  | Some v => Return v
  | None => Raise IndexError
  end.

(** [a and b] where only [b] can raise: [b] is not evaluated when [a]
    is false. *)
Definition py_and (a : bool) (b : result bool) : result bool :=
  if a then b else Return false.

(** [k in d] and [d[k]] for a dict with [pyval] keys. *)
Fixpoint dict_find (k : pyval) (d : list (pyval * string)) : option string :=
  match d with
  | [] => None
  | (k', v) :: d' => if py_eq k k' then Some v else dict_find k d'
  end.

(* ================================================================== *)
(** * connection.py: translate_query_error *)
(* ================================================================== *)

Definition disconnect_codes : list (pyval * string) :=
  [ (VInt 2006, "Connection timed out");
    (VInt 2013, "Server connection lost") ].

Definition isinstance (e : client_error) (c : client_err.cls) : bool :=
  client_err.eqb (ce_class e) c.

Section translate.
Local Open Scope result_scope.
Variable client_error : client_error.
Variable query : string.

Let args := ce_args client_error.
Let arg0_is (code : Z) : result bool :=
  a0 <- tuple_get args 0 ;; Return (py_eq a0 (VInt code)).

Definition translate_query_error : result exn :=
  (* Loss of connection errors *)
  c <- py_and (isinstance client_error client_err.InterfaceError)
         (a0 <- tuple_get args 0 ;; Return (py_eq a0 (VStr "(0, '')"))) ;;
  if c then
    Return (DJError errors.LostConnectionError
              (VStr "Server connection lost due to an interface error."
                 :: tl args))
  else
  c <- py_and (isinstance client_error client_err.OperationalError)
         (a0 <- tuple_get args 0 ;;
          Return (match dict_find a0 disconnect_codes with
                  | Some _ => true | None => false end)) ;;
  if c then
    a0 <- tuple_get args 0 ;;
    match dict_find a0 disconnect_codes with
    | Some msg => Return (DJError errors.LostConnectionError
                            (VStr msg :: tl args))
    | None => Raise (OtherError "KeyError")
    end
  else
  (* Access errors *)
  c <- py_and (isinstance client_error client_err.OperationalError)
         (a0 <- tuple_get args 0 ;;
          Return (py_eq a0 (VInt 1044) || py_eq a0 (VInt 1142))) ;;
  if c then
    a1 <- tuple_get args 1 ;;
    Return (DJError errors.AccessError
              [VStr "Insufficient privileges."; a1; VStr query])
  else
  (* Integrity errors *)
  c <- py_and (isinstance client_error client_err.IntegrityError)
         (arg0_is 1062) ;;
  if c then Return (DJError errors.DuplicateError (tl args)) else
  c <- py_and (isinstance client_error client_err.IntegrityError)
         (arg0_is 1452) ;;
  if c then Return (DJError errors.IntegrityError (tl args)) else
  (* Syntax errors *)
  c <- py_and (isinstance client_error client_err.ProgrammingError)
         (arg0_is 1064) ;;
  if c then
    a1 <- tuple_get args 1 ;;
    Return (DJError errors.QuerySyntaxError [a1; VStr query])
  else
  (* Existence errors *)
  c <- py_and (isinstance client_error client_err.ProgrammingError)
         (arg0_is 1146) ;;
  if c then
    a1 <- tuple_get args 1 ;;
    Return (DJError errors.MissingTableError [a1; VStr query])
  else
  c <- py_and (isinstance client_error client_err.InternalError)
         (arg0_is 1364) ;;
  if c then Return (DJError errors.MissingAttributeError (tl args)) else
  c <- py_and (isinstance client_error client_err.InternalError)
         (arg0_is 1054) ;;
  if c then Return (DJError errors.UnknownAttributeError (tl args)) else
  (* all the other errors are re-raised in original form *)
  Return (ClientError client_error).
End translate.

(* ================================================================== *)
(** * connection.py: the Connection class *)
(* ================================================================== *)

(** [conn_info['port']]: a port number, or the string ['sqlite'] that
    selects the file backend. *)
Inductive port_t : Type :=
| Port (n : Z)
| PortSqlite.

(** The [use_tls] argument, kept as [conn_info['ssl_input']]. *)
Inductive tls_t : Type :=
| TlsNone | TlsTrue | TlsFalse | TlsDict.

Record conn_info_t : Type := ConnInfo {
  host : string;
  port : port_t;
  ssl_input : tls_t
}.

(** [conn_info] holds the key ['ssl'] unless [use_tls is False]. *)
Definition has_ssl (ci : conn_info_t) : bool :=
  match ssl_input ci with TlsFalse => false | _ => true end.

Definition ssl_input_is_None (ci : conn_info_t) : bool :=
  match ssl_input ci with TlsNone => true | _ => false end.

Definition is_sqlite (ci : conn_info_t) : bool :=
  match port ci with PortSqlite => true | Port _ => false end.

(** Driver connection objects, told apart by the tick at which the driver
    made them. *)
Definition handle : Type := nat.

(** The calls the class makes on the two drivers, in the order made. *)
Inductive call : Type :=
| ClientConnect (with_ssl : bool)        (* pymysql.connect(...) *)
| Autocommit (h : handle)                (* conn.autocommit(True) *)
| Flush (path : string)                  (* subprocess: fs flush '<host>' *)
| Sqlite3Connect (path : string)         (* sqlite3.connect(host, ...) *)
| Close (h : handle)                     (* conn.close() *)
| Execute (h : handle) (sql : string) (args : list pyval)
| Ping (h : handle).                     (* conn.ping(reconnect=False) *)

(** What the driver answers to a call. *)
Inductive response : Type :=
| ROk
| RRaise (e : exn).

(** A cursor: the connection it was opened on and whether it yields rows
    as dicts ([DictCursor], or a [dict_factory] row factory). *)
Record cursor : Type := Cursor {
  cur_conn : handle;
  cur_as_dict : bool
}.

(** The attributes of a [Connection] the methods read and write, with the
    driver's side of the world: [tick] counts the driver calls answered so
    far and [trace] lists all calls.  [_in_transaction] is [None] until
    [__init__] assigns it; [row_factory] tells whether the [row_factory]
    of the sqlite3 connection object is [dict_factory].

    Left out, as they do not bear on the control flow: logging, warnings
    and prints, the [suppress_warnings] option, the arguments of the
    driver's [connect] other than the TLS options, and the attributes
    [connection_id], [schemas] and [dependencies]. *)
Record Connection : Type := mkConnection {
  conn_info : conn_info_t;
  _conn : option handle;
  row_factory : bool;
  _in_transaction : option bool;
  tick : nat;
  trace : list call
}.

Definition set_conn (h : option handle) (s : Connection) : Connection :=
  mkConnection (conn_info s) h (row_factory s) (_in_transaction s)
               (tick s) (trace s).
Definition set_row_factory (b : bool) (s : Connection) : Connection :=
  mkConnection (conn_info s) (_conn s) b (_in_transaction s)
               (tick s) (trace s).
Definition set_in_transaction (b : bool) (s : Connection) : Connection :=
  mkConnection (conn_info s) (_conn s) (row_factory s) (Some b)
               (tick s) (trace s).
Definition log_call (c : call) (answered : bool) (s : Connection)
  : Connection :=
  mkConnection (conn_info s) (_conn s) (row_factory s) (_in_transaction s)
               (if answered then S (tick s) else tick s) (trace s ++ [c]).

(** Methods: a state transformer that returns or raises; [None] when the
    recursion budget [fuel] of the mutually recursive methods runs out. *)
Definition M (A : Type) : Type := Connection -> option (result A * Connection).

Definition ret {A} (a : A) : M A := fun s => Some (Return a, s).
Definition raise {A} (e : exn) : M A := fun s => Some (Raise e, s).
Definition out_of_fuel {A} : M A := fun _ => None.
Definition bind {A B} (m : M A) (k : A -> M B) : M B := fun s =>
  match m s with
  | None => None
  | Some (Return a, s') => k a s'
  | Some (Raise e, s') => Some (Raise e, s')
  end.
Definition gets {A} (f : Connection -> A) : M A := fun s => Some (Return (f s), s).
Definition modify (f : Connection -> Connection) : M unit :=
  fun s => Some (Return tt, f s).

(** [try: m  except <the e with h e = Some k>: k]; other exceptions pass. *)
Definition try_except {A} (m : M A) (h : exn -> option (M A)) : M A := fun s =>
  match m s with
  | Some (Raise e, s') =>
      match h e with
      | Some k => k s'
      | None => Some (Raise e, s')
      end
  | r => r
  end.

Declare Scope conn_scope.
Delimit Scope conn_scope with conn.
Notation "x <- m ;; k" := (bind m (fun x => k))
  (at level 61, m at next level, right associativity) : conn_scope.
Notation "m ;;; k" := (bind m (fun _ => k))
  (at level 61, right associativity) : conn_scope.

Section Connection.
Local Open Scope conn_scope.

(** The driver: its answer to the [n]-th call it is asked to answer. *)
Variable env : nat -> response.
(** [config['database.reconnect']] *)
Variable config_reconnect : bool.

(** A call the driver answers. *)
Definition driver (c : call) : M unit := fun s =>
  match env (tick s) with
  | ROk => Some (Return tt, log_call c true s)
  | RRaise e => Some (Raise e, log_call c true s)
  end.

(** [self._conn.<attr>]: [AttributeError] while [_conn] is [None]. *)
Definition the_conn : M handle := fun s =>
  match _conn s with
  | Some h => Some (Return h, s)
  | None => Some (Raise AttributeError, s)
  end.

(** [self._in_transaction]: [AttributeError] before [__init__] set it. *)
Definition read_in_transaction : M bool := fun s =>
  match _in_transaction s with
  | Some b => Some (Return b, s)
  | None => Some (Raise AttributeError, s)
  end.

(** [self._conn.cursor(cursor=cursor_class)] (pymysql) *)
Definition client_cursor (as_dict : bool) : M cursor :=
  h <- the_conn ;; ret (Cursor h as_dict).

(** [self._conn.cursor()] (sqlite3): rows shaped by the connection's
    [row_factory]. *)
Definition sqlite_cursor : M cursor :=
  h <- the_conn ;; rf <- gets row_factory ;; ret (Cursor h rf).

(** [_execute_query]: pymysql errors are translated, others pass. *)
Definition _execute_query (c : cursor) (sql : string) (args : list pyval)
  : M unit :=
  try_except (driver (Execute (cur_conn c) sql args))
    (fun err =>
       match err with
       | ClientError e =>
           Some (match translate_query_error e sql with
                 | Return e' => raise e'
                 | Raise e' => raise e'
                 end)
       | _ => None
       end).

(** [except (errors.LostConnectionError, sqlite3.DatabaseError)] *)
Definition lost_or_sqlite_database_error (e : exn) : bool :=
  match e with
  | DJError errors.LostConnectionError _ => true
  | Sqlite3Error c _ => sqlite3.is_DatabaseError c
  | _ => false
  end.

(** The sqlite3 errors the file branch re-raises at once. *)
Definition sqlite_reraised (e : exn) : bool :=
  match e with
  | Sqlite3Error c _ =>
      sqlite3.is_OperationalError c || sqlite3.is_IntegrityError c
      || sqlite3.is_ProgrammingError c
  | _ => false
  end.

Definition is_sqlite3_OperationalError (e : exn) : bool :=
  match e with
  | Sqlite3Error c _ => sqlite3.is_OperationalError c
  | _ => false
  end.

Definition lost_in_transaction : exn :=
  DJError errors.LostConnectionError
          [VStr "Connection was lost during a transaction."].

(** [close] *)
Definition close : M unit :=
  h <- the_conn ;; driver (Close h).

(** The bodies of the three methods that call each other, over the
    callees; the recursion is tied below. *)
Section bodies.
Variable query : string -> list pyval -> bool -> option bool -> M cursor.
Variable connect : M unit.
Variable cancel_transaction : M unit.

Definition query_body (sql : string) (args : list pyval)
           (as_dict : bool) (reconnect : option bool) : M cursor :=
  let reconnect :=
    match reconnect with None => config_reconnect | Some b => b end in
  ci <- gets conn_info ;;
  cursor <- (if negb (is_sqlite ci) then client_cursor as_dict
             else
               _ <- the_conn ;;
               modify (set_row_factory as_dict) ;;;
               sqlite_cursor) ;;
  try_except (_execute_query cursor sql args ;;; ret cursor)
    (fun e =>
       if lost_or_sqlite_database_error e then Some (
         cursor <-
           (if negb (is_sqlite ci) then
              (if negb reconnect then raise e else ret tt) ;;;
              connect ;;;
              in_tx <- read_in_transaction ;;
              (if in_tx then
                 cancel_transaction ;;; raise lost_in_transaction
               else ret tt) ;;;
              client_cursor as_dict
            else
              (if sqlite_reraised e then raise e else ret tt) ;;;
              (if negb reconnect then raise e else ret tt) ;;;
              in_tx <- read_in_transaction ;;
              (if in_tx then
                 cancel_transaction ;;; raise lost_in_transaction
               else ret tt) ;;;
              close ;;;
              connect ;;;
              sqlite_cursor) ;;
         _execute_query cursor sql args ;;;
         ret cursor)
       else None).

Definition connect_body : M unit :=
  ci <- gets conn_info ;;
  if negb (is_sqlite ci) then
    try_except
      (t <- gets tick ;;
       driver (ClientConnect (has_ssl ci)) ;;;
       modify (set_conn (Some t)))
      (fun e =>
         match e with
         | ClientError (ClientErr client_err.InternalError _) => Some (
             t <- gets tick ;;
             driver (ClientConnect
                       (has_ssl ci && negb (ssl_input_is_None ci))) ;;;
             modify (set_conn (Some t)))
         | _ => None
         end) ;;;
    h <- the_conn ;;
    driver (Autocommit h)
  else
    modify (log_call (Flush (host ci)) false) ;;;
    t <- gets tick ;;
    driver (Sqlite3Connect (host ci)) ;;;
    modify (fun s => set_row_factory false (set_conn (Some t) s)) ;;;
    query "PRAGMA foreign_keys=1" [] false None ;;;
    ret tt.

Definition cancel_transaction_body : M unit :=
  try_except (query "ROLLBACK" [] false None ;;; ret tt)
    (fun e => if is_sqlite3_OperationalError e then Some (ret tt)
              else None) ;;;
  modify (set_in_transaction false).
End bodies.

(** [query], [connect] and [cancel_transaction]; a call from one to
    another spends one unit of [fuel]. *)
Fixpoint query (fuel : nat) (sql : string) (args : list pyval)
         (as_dict : bool) (reconnect : option bool) {struct fuel}
  : M cursor :=
  match fuel with
  | O => out_of_fuel
  | S fuel' =>
      query_body (connect fuel') (cancel_transaction fuel')
                 sql args as_dict reconnect
  end

with connect (fuel : nat) {struct fuel} : M unit :=
  match fuel with
  | O => out_of_fuel
  | S fuel' => connect_body (query fuel')
  end

with cancel_transaction (fuel : nat) {struct fuel} : M unit :=
  match fuel with
  | O => out_of_fuel
  | S fuel' => cancel_transaction_body (query fuel')
  end.

(** [ping]: the sqlite3 connection object has no [ping] attribute. *)
Definition ping : M unit :=
  h <- the_conn ;;
  ci <- gets conn_info ;;
  if is_sqlite ci then raise AttributeError
  else driver (Ping h).

(** The [is_connected] property.  The [else] clause of the [try] runs
    when [ping] returned; the statement after the [try] is never
    reached. *)
Definition is_connected : M bool :=
  try_except (ping ;;; ret false)
    (fun e =>
       match e with
       | AttributeError => Some (
           ci <- gets conn_info ;;
           if is_sqlite ci then ret true else ret false)
       | _ => None
       end).

(** The [in_transaction] property. *)
Definition in_transaction : M bool :=
  b <- read_in_transaction ;;
  v <- (if b then is_connected else ret false) ;;
  modify (set_in_transaction v) ;;;
  ret v.

Definition nested_transaction : exn :=
  DJError errors.DataJointError
          [VStr "Nested connections are not supported."].

Definition start_transaction (fuel : nat) : M unit :=
  b <- in_transaction ;;
  (if b then raise nested_transaction else ret tt) ;;;
  ci <- gets conn_info ;;
  (if is_sqlite ci then query fuel "BEGIN TRANSACTION" [] false None
   else query fuel "START TRANSACTION WITH CONSISTENT SNAPSHOT"
              [] false None) ;;;
  modify (set_in_transaction true).

Definition commit_transaction (fuel : nat) : M unit :=
  try_except (query fuel "COMMIT" [] false None ;;; ret tt)
    (fun e => if is_sqlite3_OperationalError e then Some (ret tt)
              else None) ;;;
  modify (set_in_transaction false).

Definition connection_failed : exn :=
  DJError errors.ConnectionError [VStr "Connection failed."].

(** [__init__] from [self._conn = None] on, once [conn_info] has been
    put together from the arguments. *)
Definition __init__ (fuel : nat) (ci : conn_info_t)
  : option (result unit * Connection) :=
  (connect fuel ;;;
   ok <- is_connected ;;
   (if ok then
      if negb (is_sqlite ci) then
        query fuel "SELECT connection_id()" [] false None ;;; ret tt
      else ret tt
    else raise connection_failed) ;;;
   modify (set_in_transaction false))
    (mkConnection ci None false None 0 []).
End Connection.

(* ================================================================== *)
(** * connection.py: the [transaction] context manager *)
(* ================================================================== *)

Section scoped_transaction.
Local Open Scope conn_scope.
Variable env : nat -> response.
Variable config_reconnect : bool.

(** [with conn.transaction as conn: body].  The generator calls
    [start_transaction()] and yields; the block [body] runs at the
    [yield], and what it raises is raised there, inside the [try].  The
    bare [except] clause cancels and raises the error again, whether it
    came from [start_transaction()] or from the block; the [else] clause
    commits, outside the reach of the [except]. *)
Definition transaction {A : Type} (fuel : nat) (body : M A) : M A := fun s =>
  match (start_transaction env config_reconnect fuel ;;; body) s with
  | None => None
  | Some (Raise e, s1) =>
      (cancel_transaction env config_reconnect (S fuel) ;;; raise e) s1
  | Some (Return a, s1) =>
      (commit_transaction env config_reconnect fuel ;;; ret a) s1
  end.
End scoped_transaction.

(* ================================================================== *)
(** * Python dicts and sets *)
(* ================================================================== *)

(** A dict as the list of its items in insertion order: assigning to a
    key that is present replaces the value where it stands, assigning to
    a new key appends the item. *)
Section dict.
Variables (K V : Type) (eqb : K -> K -> bool).

Fixpoint dict_get (k : K) (d : list (K * V)) : option V :=
  match d with
  | [] => None
  | (k', v) :: d' => if eqb k k' then Some v else dict_get k d'
  end.

Fixpoint dict_set (k : K) (v : V) (d : list (K * V)) : list (K * V) :=
  match d with
  | [] => [(k, v)]
  | (k', v') :: d' =>
      if eqb k k' then (k', v) :: d' else (k', v') :: dict_set k v d'
  end.

Fixpoint dict_del (k : K) (d : list (K * V)) : list (K * V) :=
  match d with
  | [] => []
  | (k', v') :: d' =>
      if eqb k k' then d' else (k', v') :: dict_del k d'
  end.

Definition dict_mem (k : K) (d : list (K * V)) : bool :=
  match dict_get k d with Some _ => true | None => false end.
End dict.

(** A set of strings as a list without repetition. *)
Definition set_mem (x : string) (s : list string) : bool :=
  existsb (String.eqb x) s.
Definition set_add (x : string) (s : list string) : list string :=
  if set_mem x s then s else s ++ [x].
(** [a <= b] and [a != b] on sets *)
Definition set_le (a b : list string) : bool :=
  forallb (fun x => set_mem x b) a.
Definition set_ne (a b : list string) : bool :=
  negb (set_le a b && set_le b a).

(* ================================================================== *)
(** * networkx: DiGraph and the routines of [nx.algorithms.dag] *)
(* ================================================================== *)

(** Graph nodes.  In the code every node is a string: a table is named
    [`schema`.`table`] and so begins with a backquote, an alias node is
    ['%d' % n], a decimal numeral.  The two families are disjoint; the
    constructors keep them apart. *)
Inductive node : Type :=
| Table (name : string)
| Alias (n : nat).

Definition node_eqb (a b : node) : bool :=
  match a, b with
  | Table x, Table y => String.eqb x y
  | Alias x, Alias y => Nat.eqb x y
  | _, _ => false
  end.

Definition edge : Type := (node * node)%type.

Definition edge_eqb (a b : edge) : bool :=
  node_eqb (fst a) (fst b) && node_eqb (snd a) (snd b).

Definition node_mem (x : node) (l : list node) : bool :=
  existsb (node_eqb x) l.

(** The attributes [load] puts on an edge. *)
Record props : Type := Props {
  primary : bool;
  attr_map : list (string * string);
  aliased : bool;
  multi : bool
}.

(** A [DiGraph]: the node dict ([primary_key] is the one node attribute
    in use, absent on alias nodes) and the edges with their attribute
    dicts, both in insertion order.  The successors of [u] in the order
    of [_succ[u]] are the edges out of [u] in the order of [edge_data];
    likewise for [_pred]. *)
Record DiGraph : Type := mkDiGraph {
  node_data : list (node * option (list string));
  edge_data : list (edge * props)
}.

Definition nodes (g : DiGraph) : list node := map fst (node_data g).
Definition edges (g : DiGraph) : list edge := map fst (edge_data g).

Definition empty_graph : DiGraph := mkDiGraph [] [].

(** [add_node(n, **attr)]: a new node gets [attr]; on a node already
    there the attributes given are updated. *)
Definition add_node (n : node) (primary_key : option (list string))
           (g : DiGraph) : DiGraph :=
  match dict_get node_eqb n (node_data g), primary_key with
  | Some _, None => g
  | _, _ => mkDiGraph (dict_set node_eqb n primary_key (node_data g))
                      (edge_data g)
  end.

(** [add_edge(u, v, **attr)] with all four attributes given: both ends
    become nodes if they are not, and the edge's dict is updated. *)
Definition add_edge (u v : node) (p : props) (g : DiGraph) : DiGraph :=
  let g1 := add_node u None g in
  let g2 := add_node v None g1 in
  mkDiGraph (node_data g2) (dict_set edge_eqb (u, v) p (edge_data g2)).

(** [G.neighbors(u)] and [G.in_degree(v)] over a node list and an edge
    list. *)
Definition neighbors (es : list edge) (u : node) : list node :=
  map snd (filter (fun e => node_eqb (fst e) u) es).
Definition predecessors (es : list edge) (v : node) : list node :=
  map fst (filter (fun e => node_eqb (snd e) v) es).
Definition in_degree (es : list edge) (v : node) : Z :=
  Z.of_nat (List.length (predecessors es v)).

(** [G.subgraph(keep)]: the view induced on the nodes in [keep], in the
    order of [G].  (networkx goes through the view in the order of [G],
    except when [keep] holds fewer than half of the nodes of [G]: then
    it goes through [keep], a set, in the order of the set.  The order
    bears on which of several topological orders the sort returns.) *)
Definition subgraph_nodes (ns : list node) (keep : list node) : list node :=
  filter (fun n => node_mem n keep) ns.
Definition subgraph_edges (es : list edge) (keep : list node) : list edge :=
  filter (fun e => node_mem (fst e) keep && node_mem (snd e) keep) es.

Definition NetworkXUnfeasible : exn := OtherError "NetworkXUnfeasible".
Definition NetworkXError : exn := OtherError "NetworkXError".
Definition RuntimeError : exn := OtherError "RuntimeError".

(** [topological_generations] (Kahn's algorithm).  The inner loop over
    the children of one node: *)
Fixpoint relax (children : list node) (indegree_map : list (node * Z))
         (zero_indegree : list node)
  : result (list (node * Z) * list node) :=
  match children with
  | [] => Return (indegree_map, zero_indegree)
  | child :: rest =>
      match dict_get node_eqb child indegree_map with
      | None => Raise RuntimeError     (* KeyError: graph changed *)
      | Some d =>
          let d' := (d - 1)%Z in
          if (d' =? 0)%Z then
            relax rest (dict_del node_eqb child indegree_map)
                  (zero_indegree ++ [child])
          else
            relax rest (dict_set node_eqb child d' indegree_map)
                  zero_indegree
      end
  end.

(** the loop over the nodes of one generation: *)
Fixpoint generation (ns : list node) (es : list edge)
         (this_generation : list node) (indegree_map : list (node * Z))
         (zero_indegree : list node)
  : result (list (node * Z) * list node) :=
  match this_generation with
  | [] => Return (indegree_map, zero_indegree)
  | n :: rest =>
      if negb (node_mem n ns) then Raise RuntimeError else
      match relax (neighbors es n) indegree_map zero_indegree with
      | Raise e => Raise e
      | Return (im, z) => generation ns es rest im z
      end
  end.

(** and the [while zero_indegree] loop; [None] when [fuel] runs out. *)
Fixpoint generations (fuel : nat) (ns : list node) (es : list edge)
         (indegree_map : list (node * Z)) (zero_indegree : list node)
  : option (result (list (list node))) :=
  match zero_indegree with
  | [] =>
      Some (match indegree_map with
            | [] => Return []
            | _ :: _ => Raise NetworkXUnfeasible
            end)
  | _ :: _ =>
      match fuel with
      | O => None
      | S fuel' =>
          match generation ns es zero_indegree indegree_map [] with
          | Raise e => Some (Raise e)
          | Return (im, z) =>
              match generations fuel' ns es im z with
              | None => None
              | Some (Raise e) => Some (Raise e)
              | Some (Return gs) => Some (Return (zero_indegree :: gs))
              end
          end
      end
  end.

Definition initial_indegree_map (ns : list node) (es : list edge)
  : list (node * Z) :=
  fold_left (fun d v => dict_set node_eqb (fst v) (snd v) d)
            (filter (fun vd => (0 <? snd vd)%Z)
                    (map (fun v => (v, in_degree es v)) ns))
            [].
Definition initial_zero_indegree (ns : list node) (es : list edge)
  : list node :=
  filter (fun v => (in_degree es v =? 0)%Z) ns.

(** [list(nx.topological_sort(G))]: the generations one after another.
    Every generation takes a node out of play, so [S (length ns)] rounds
    are enough. *)
Definition topological_sort (ns : list node) (es : list edge)
  : result (list node) :=
  match generations (S (List.length ns)) ns es
                    (initial_indegree_map ns es)
                    (initial_zero_indegree ns es) with
  | Some (Return gs) => Return (List.concat gs)
  | Some (Raise e) => Raise e
  | None => Raise (OtherError "RecursionError")
  end.

(** [nx.is_directed_acyclic_graph(G)]: the sort goes through. *)
Definition is_directed_acyclic_graph (g : DiGraph) : result bool :=
  match topological_sort (nodes g) (edges g) with
  | Return _ => Return true
  | Raise e =>
      match e with
      | OtherError "NetworkXUnfeasible" => Return false
      | _ => Raise e
      end
  end.

(** Breadth-first search: [visited] in order of discovery, [queue] the
    discovered nodes whose children are still to be looked at. *)
Fixpoint visit_children (children : list node) (visited queue : list node)
  : list node * list node :=
  match children with
  | [] => (visited, queue)
  | child :: rest =>
      if node_mem child visited then visit_children rest visited queue
      else visit_children rest (visited ++ [child]) (queue ++ [child])
  end.

Fixpoint bfs (fuel : nat) (es : list edge) (visited queue : list node)
  : list node :=
  match fuel, queue with
  | S fuel', parent :: queue' =>
      let (visited', queue'') :=
        visit_children (neighbors es parent) visited queue' in
      bfs fuel' es visited' queue''
  | _, _ => visited
  end.

(** [nx.descendants(G, source)]: the nodes the search discovers, the
    source left out. *)
Definition nx_descendants (ns : list node) (es : list edge) (source : node)
  : result (list node) :=
  if negb (node_mem source ns) then Raise NetworkXError
  else Return (tl (bfs (S (List.length ns)) es [source] [source])).

(** [nx.ancestors(G, source)]: the same search against the edges. *)
Definition reverse_edges (es : list edge) : list edge :=
  map (fun e => (snd e, fst e)) es.
Definition nx_ancestors (ns : list node) (es : list edge) (source : node)
  : result (list node) :=
  nx_descendants ns (reverse_edges es) source.

(* ================================================================== *)
(** * dependencies.py: the Dependencies class *)
(* ================================================================== *)

(** What [load] reads from its connection: the backend, the names of the
    registered schemas ([self._conn.schemas], in insertion order) and the
    outcome of the two introspection queries. *)
Record fk_row : Type := FkRow {
  constraint_name : string;      (* absent from the rows of the file backend *)
  referencing_table : string;
  referenced_table : string;
  column_name : string;
  referenced_column_name : string
}.

Record introspection : Type := Introspection {
  sqlite : bool;                                 (* conn_info['port'] == 'sqlite' *)
  schemas : list string;
  primary_key_rows : result (list (string * string));
  foreign_key_rows : result (list fk_row)
}.

(** The graph with the alias counter ([itertools.count()], made once in
    [__init__]). *)
Record Dependencies : Type := mkDependencies {
  graph : DiGraph;
  _node_alias_count : nat
}.

(** [Dependencies(connection)]: [__init__] makes the counter and an empty
    graph. *)
Definition new_dependencies : Dependencies := mkDependencies empty_graph 0.

(** ['`{schema}`.`{table_name}`'.format(schema="','".join(schemas), ...)] *)
Definition full_table_name (schemas : list string) (tbl : string) : string :=
  "`" ++ String.concat "','" schemas ++ "`.`" ++ tbl ++ "`".

(** [pks[name].add(col)] on a [defaultdict(set)] *)
Definition pks_add (name col : string) (pks : list (string * list string))
  : list (string * list string) :=
  dict_set String.eqb name
    (set_add col (match dict_get String.eqb name pks with
                  | Some s => s | None => [] end))
    pks.

(** [pks[name]] *)
Definition pks_get (name : string) (pks : list (string * list string))
  : list string :=
  match dict_get String.eqb name pks with Some s => s | None => [] end.

(** One foreign key, as grouped from the rows. *)
Record foreign_key : Type := ForeignKey {
  fk_referencing_table : string;
  fk_referenced_table : string;
  fk_attr_map : list (string * string)
}.

Definition fk_key : Type := (string * string * string)%type.
Definition fk_key_eqb (a b : fk_key) : bool :=
  let '(a1, a2, a3) := a in
  let '(b1, b2, b3) := b in
  String.eqb a1 b1 && String.eqb a2 b2 && String.eqb a3 b3.

(** The body of the loop over the networked backend's rows. *)
Definition group_key (fks : list (fk_key * foreign_key)) (key : fk_row)
  : list (fk_key * foreign_key) :=
  let k := (constraint_name key, referencing_table key,
            referenced_table key) in
  let d := match dict_get fk_key_eqb k fks with
           | Some d => d
           | None => ForeignKey "" "" []
           end in
  dict_set fk_key_eqb k
    (ForeignKey (referencing_table key) (referenced_table key)
       (dict_set String.eqb (column_name key) (referenced_column_name key)
                 (fk_attr_map d)))
    fks.

(** The body of the loop over the file backend's rows: the constraint
    name is set to ['FOREIGN'] and the table names are qualified. *)
Definition group_fkInfo (schemas : list string)
           (fks : list (fk_key * foreign_key)) (fkInfo : fk_row)
  : list (fk_key * foreign_key) :=
  group_key fks
    (FkRow "FOREIGN"
           (full_table_name schemas (referencing_table fkInfo))
           (full_table_name schemas (referenced_table fkInfo))
           (column_name fkInfo) (referenced_column_name fkInfo)).

(** The [props] dict of one foreign key. *)
Definition fk_props (pks : list (string * list string)) (fk : foreign_key)
  : props :=
  let cols := map fst (fk_attr_map fk) in
  let pk := pks_get (fk_referencing_table fk) pks in
  Props (set_le cols pk)
        (fk_attr_map fk)
        (existsb (fun kv => negb (String.eqb (fst kv) (snd kv)))
                 (fk_attr_map fk))
        (set_ne cols pk).

(** The body of the loop that adds the edges. *)
Definition add_foreign_key (pks : list (string * list string))
           (self : Dependencies) (fk : foreign_key) : Dependencies :=
  let p := fk_props pks fk in
  if negb (aliased p) then
    mkDependencies
      (add_edge (Table (fk_referenced_table fk))
                (Table (fk_referencing_table fk)) p (graph self))
      (_node_alias_count self)
  else
    let alias_node := Alias (_node_alias_count self) in
    mkDependencies
      (add_edge alias_node (Table (fk_referencing_table fk)) p
         (add_edge (Table (fk_referenced_table fk)) alias_node p
            (add_node alias_node None (graph self))))
      (S (_node_alias_count self)).

Definition multiple_schemas : exn :=
  PlainException "need to deal with sqlite and multiple schemas...".
Definition cyclic_dependencies : exn :=
  DJError errors.DataJointError
          [VStr "DataJoint can only work with acyclic dependencies"].

(** The primary keys per table, from the first query. *)
Definition load_pks (c : introspection)
  : result (list (string * list string)) :=
  match primary_key_rows c with
  | Raise e => Raise e
  | Return rows =>
      if sqlite c then
        if (1 <? List.length (schemas c))%nat then Raise multiple_schemas
        else Return (fold_left
                       (fun pks r =>
                          pks_add (full_table_name (schemas c) (fst r))
                                  (snd r) pks)
                       rows [])
      else
        Return (fold_left (fun pks r => pks_add (fst r) (snd r) pks)
                          rows [])
  end.

(** The foreign keys, from the second query. *)
Definition load_fks (c : introspection) : result (list foreign_key) :=
  match foreign_key_rows c with
  | Raise e => Raise e
  | Return rows =>
      Return (map snd
                (if sqlite c then
                   fold_left (group_fkInfo (schemas c)) rows []
                 else fold_left group_key rows []))
  end.

(** [load]: the object after the call and the outcome of the call. *)
Definition load (c : introspection) (self : Dependencies)
  : Dependencies * result unit :=
  (* self.clear() *)
  let self := mkDependencies empty_graph (_node_alias_count self) in
  match load_pks c with
  | Raise e => (self, Raise e)
  | Return pks =>
      let self :=
        mkDependencies
          (fold_left (fun g npk => add_node (Table (fst npk))
                                            (Some (snd npk)) g)
                     pks (graph self))
          (_node_alias_count self) in
      match load_fks c with
      | Raise e => (self, Raise e)
      | Return fks =>
          let self := fold_left (add_foreign_key pks) fks self in
          match is_directed_acyclic_graph (graph self) with
          | Raise e => (self, Raise e)
          | Return false => (self, Raise cyclic_dependencies)
          | Return true => (self, Return tt)
          end
      end
  end.

(** [parents] and [children]: a dict from the neighbour to the edge's
    attributes. *)
Definition primary_matches (flt : option bool) (p : props) : bool :=
  match flt with
  | None => true
  | Some b => Bool.eqb (primary p) b
  end.

Definition parents (self : Dependencies) (table_name : node)
           (flt : option bool) : list (node * props) :=
  fold_left (fun d ep => dict_set node_eqb (fst (fst ep)) (snd ep) d)
    (filter (fun ep => node_eqb (snd (fst ep)) table_name
                       && primary_matches flt (snd ep))
            (edge_data (graph self)))
    [].

Definition children (self : Dependencies) (table_name : node)
           (flt : option bool) : list (node * props) :=
  fold_left (fun d ep => dict_set node_eqb (snd (fst ep)) (snd ep) d)
    (filter (fun ep => node_eqb (fst (fst ep)) table_name
                       && primary_matches flt (snd ep))
            (edge_data (graph self)))
    [].

(** [descendants] and [ancestors]. *)
Definition descendants (self : Dependencies) (full_table_name : node)
  : result (list node) :=
  let g := graph self in
  match nx_descendants (nodes g) (edges g) full_table_name with
  | Raise e => Raise e
  | Return keep =>
      match topological_sort (subgraph_nodes (nodes g) keep)
                             (subgraph_edges (edges g) keep) with
      | Raise e => Raise e
      | Return sorted => Return (full_table_name :: sorted)
      end
  end.

Definition ancestors (self : Dependencies) (full_table_name : node)
  : result (list node) :=
  let g := graph self in
  match nx_ancestors (nodes g) (edges g) full_table_name with
  | Raise e => Raise e
  | Return keep =>
      match topological_sort (subgraph_nodes (nodes g) keep)
                             (subgraph_edges (edges g) keep) with
      | Raise e => Raise e
      | Return sorted => Return (full_table_name :: rev sorted)
      end
  end.

(* ================================================================== *)
(** * sqlite: the catalog and the two queries of [load] *)
(* ================================================================== *)

(** What the two queries of the file backend read.  A row of
    [pragma_table_info(t)] carries the column's name and [pk]: zero for
    a column outside the primary key, and the column's rank in the key,
    from 1, otherwise.  A row of [pragma_foreign_key_list(t)] carries
    the referenced table and one pair of columns.  A row of
    [sqlite_master] carries the object's type and name; the rows the two
    table-valued functions give for that name are kept with it. *)
Record table_info_row : Type := TableInfo {
  ti_name : string;
  ti_pk : nat
}.

Record foreign_key_list_row : Type := ForeignKeyList {
  fkl_table : string;
  fkl_from : string;
  fkl_to : string
}.

Record master_row : Type := Master {
  m_type : string;
  m_name : string;
  pragma_table_info : list table_info_row;
  pragma_foreign_key_list : list foreign_key_list_row
}.

(** [name LIKE '~%%'] *)
Definition like_tilde (name : string) : bool :=
  match name with
  | String c _ => Ascii.eqb c "~"
  | EmptyString => false
  end.

(** [SELECT m.name, p.name FROM sqlite_master m JOIN
    pragma_table_info(m.name) p WHERE m.type='table' AND m.name NOT LIKE
    '~%%' AND p.pk=1] *)
Definition select_primary_keys (sqlite_master : list master_row)
  : list (string * string) :=
  flat_map
    (fun m =>
       if String.eqb (m_type m) "table" && negb (like_tilde (m_name m))
       then map (fun p => (m_name m, ti_name p))
                (filter (fun p => Nat.eqb (ti_pk p) 1) (pragma_table_info m))
       else [])
    sqlite_master.

(** [ORDER BY m.name]; no two rows of [sqlite_master] bear the same
    name. *)
Fixpoint insert_by_name (m : master_row) (l : list master_row)
  : list master_row :=
  match l with
  | [] => [m]
  | m' :: l' =>
      if String.leb (m_name m) (m_name m') then m :: l
      else m' :: insert_by_name m l'
  end.
Definition order_by_name (l : list master_row) : list master_row :=
  fold_right insert_by_name [] l.

(** [SELECT m.name AS referencing_table, p.'table' AS referenced_table,
    p.'from' AS column_name, p.'to' AS referenced_column_name FROM
    sqlite_master m JOIN pragma_foreign_key_list(m.name) p WHERE m.type =
    'table' ORDER BY m.name] *)
Definition select_foreign_keys (sqlite_master : list master_row)
  : list fk_row :=
  flat_map
    (fun m =>
       if String.eqb (m_type m) "table"
       then map (fun p => FkRow "" (m_name m) (fkl_table p) (fkl_from p)
                                (fkl_to p))
                (pragma_foreign_key_list m)
       else [])
    (order_by_name sqlite_master).

(** What [load] reads from a file-backend connection on which both
    queries run. *)
Definition file_introspection (schemas : list string)
           (sqlite_master : list master_row) : introspection :=
  Introspection true schemas
    (Return (select_primary_keys sqlite_master))
    (Return (select_foreign_keys sqlite_master)).

(** The primary key of a table: its columns of nonzero [pk]. *)
Definition primary_key_columns (m : master_row) : list string :=
  map ti_name (filter (fun p => negb (Nat.eqb (ti_pk p) 0))
                      (pragma_table_info m)).

(* ================================================================== *)
(** * Vocabulary of the statements *)
(* ================================================================== *)

(** The translation table of the specification, read row by row: the
    kind a driver error of class [c] whose first argument is [code]
    translates to, [None] where it passes through unchanged.  The codes
    are MySQL's: 2006 and 2013 (server gone away, connection lost), 1044
    and 1142 (access denied), 1062 (duplicate entry), 1452 (foreign key
    constraint fails), 1064 (syntax), 1146 (no such table), 1364 (field
    without default) and 1054 (unknown column).  The interface-level
    error with empty detail is the one whose text is that of code 0 with
    an empty message. *)
Definition translation_table (c : client_err.cls) (code : pyval)
  : option errors.cls :=
  match c, code with
  | client_err.InterfaceError, VStr s =>
      if String.eqb s "(0, '')" then Some errors.LostConnectionError
      else None
  | client_err.OperationalError, VInt z =>
      if (z =? 2006)%Z || (z =? 2013)%Z then Some errors.LostConnectionError
      else if (z =? 1044)%Z || (z =? 1142)%Z then Some errors.AccessError
      else None
  | client_err.IntegrityError, VInt z =>
      if (z =? 1062)%Z then Some errors.DuplicateError
      else if (z =? 1452)%Z then Some errors.IntegrityError
      else None
  | client_err.ProgrammingError, VInt z =>
      if (z =? 1064)%Z then Some errors.QuerySyntaxError
      else if (z =? 1146)%Z then Some errors.MissingTableError
      else None
  | client_err.InternalError, VInt z =>
      if (z =? 1364)%Z then Some errors.MissingAttributeError
      else if (z =? 1054)%Z then Some errors.UnknownAttributeError
      else None
  | _, _ => None
  end.

(** The row of the table a driver error falls in; an error without
    arguments has no code and falls in the last row. *)
Definition table_row (e : client_error) : option errors.cls :=
  match ce_args e with
  | [] => None
  | code :: _ => translation_table (ce_class e) code
  end.

(** The classes whose first argument the function reads. *)
Definition code_is_read (c : client_err.cls) : bool :=
  match c with
  | client_err.InterfaceError | client_err.OperationalError
  | client_err.IntegrityError | client_err.ProgrammingError
  | client_err.InternalError => true
  | _ => false
  end.

(** The rows that copy the message [args[1]] into the translated error. *)
Definition message_is_read (k : option errors.cls) : bool :=
  match k with
  | Some errors.AccessError | Some errors.QuerySyntaxError
  | Some errors.MissingTableError => true
  | _ => false
  end.

(** The error holds every position of [args] the function reads for it. *)
Definition args_in_range (e : client_error) : bool :=
  (negb (code_is_read (ce_class e)) || (1 <=? List.length (ce_args e))%nat)
  && (negb (message_is_read (table_row e)) || (2 <=? List.length (ce_args e))%nat).

(** The kind of an error of the taxonomy; [None] for any other
    exception. *)
Definition kind_of (x : exn) : option errors.cls :=
  match x with
  | DJError k _ => Some k
  | _ => None
  end.

(** The function's outcome agrees with the table's row [row] for [e]. *)
Definition agrees_with_row (e : client_error) (row : option errors.cls)
           (r : result exn) : Prop :=
  match row with
  | Some k => exists args, r = Return (DJError k args)
  | None => r = Return (ClientError e)
  end.

(** The statement [start_transaction] issues on each backend. *)
Definition begin_statement (ci : conn_info_t) : string :=
  if is_sqlite ci then "BEGIN TRANSACTION"
  else "START TRANSACTION WITH CONSISTENT SNAPSHOT".

(** The error the file engine raises for a COMMIT or ROLLBACK that finds
    the transaction already closed. *)
Definition already_closed_error (e : exn) : bool :=
  match e with
  | Sqlite3Error sqlite3.OperationalError msg =>
      String.eqb msg "cannot commit - no transaction is active"
      || String.eqb msg "cannot rollback - no transaction is active"
  | _ => false
  end.

(** What a transaction verb does with the outcome of its statement:
    it returns with the transaction marked closed when the statement
    ran or raised an [sqlite3.OperationalError], and raises what the
    statement raised otherwise. *)
Definition closes_after (verb : M unit) (statement : M cursor) : Prop :=
  forall s : Connection,
    verb s =
    match statement s with
    | None => None
    | Some (Return _, s1) => Some (Return tt, set_in_transaction false s1)
    | Some (Raise e, s1) =>
        if is_sqlite3_OperationalError e
        then Some (Return tt, set_in_transaction false s1)
        else Some (Raise e, s1)
    end.

(** A file-backend connection inside a transaction, and an engine that
    finds the database locked at the next call. *)
Definition locked_database : exn :=
  Sqlite3Error sqlite3.OperationalError "database is locked".

Definition env_locked (n : nat) : response :=
  if Nat.eqb n 3 then RRaise locked_database else ROk.

Definition in_file_transaction : Connection :=
  mkConnection (ConnInfo "lab.db" PortSqlite TlsNone) (Some 0) false
    (Some true) 3
    [Flush "lab.db"; Sqlite3Connect "lab.db";
     Execute 0 "PRAGMA foreign_keys=1" []; Execute 0 "BEGIN TRANSACTION" []].

(** What [_execute_query] raises when the driver raises [e]. *)
Definition surfaced (e : exn) (sql : string) : exn :=
  match e with
  | ClientError ce =>
      match translate_query_error ce sql with
      | Return e' => e'
      | Raise e' => e'
      end
  | _ => e
  end.

(** The errors that reach the reconnection logic of [query]: a
    [LostConnectionError] or an [sqlite3.DatabaseError], save, on the file
    backend, the three classes that are raised again at once. *)
Definition connection_loss (ci : conn_info_t) (e : exn) : bool :=
  lost_or_sqlite_database_error e
  && negb (is_sqlite ci && sqlite_reraised e).

Definition resolve (config_reconnect : bool) (rc : option bool) : bool :=
  match rc with None => config_reconnect | Some b => b end.

(** The driver calls of a reconnection that starts at tick [t]. *)
Definition reconnect_calls (ci : conn_info_t) (h : handle) (t : nat)
  : list call :=
  if is_sqlite ci then
    [Close h; Flush (host ci); Sqlite3Connect (host ci);
     Execute (S t) "PRAGMA foreign_keys=1" []]
  else [ClientConnect (has_ssl ci); Autocommit t].

(** The handle a reconnection that starts at tick [t] installs, and the
    number of driver calls it takes. *)
Definition reconnect_handle (ci : conn_info_t) (t : nat) : handle :=
  if is_sqlite ci then S t else t.
Definition reconnect_ticks (ci : conn_info_t) : nat :=
  if is_sqlite ci then 3 else 2.

(** Renaming of the nodes of a graph. *)
Definition rename_graph (f : node -> node) (g : DiGraph) : DiGraph :=
  mkDiGraph
    (map (fun nv => (f (fst nv), snd nv)) (node_data g))
    (map (fun ep => ((f (fst (fst ep)), f (snd (fst ep))), snd ep))
         (edge_data g)).

(** The renaming that adds [k] to every alias label. *)
Definition shift_alias (k : nat) (n : node) : node :=
  match n with
  | Table name => Table name
  | Alias i => Alias (k + i)
  end.

Definition is_alias (n : node) : bool :=
  match n with Alias _ => true | Table _ => false end.

(** The number of alias nodes of a graph. *)
Definition alias_node_count (g : DiGraph) : nat :=
  List.length (filter is_alias (nodes g)).

(** A path of one or more edges. *)
Inductive reachable (es : list edge) : node -> node -> Prop :=
| reachable_edge u v : In (u, v) es -> reachable es u v
| reachable_step u v w :
    In (u, v) es -> reachable es v w -> reachable es u w.

(** The place of the first [x] in [l]; [length l] when there is none. *)
Fixpoint index (x : node) (l : list node) : nat :=
  match l with
  | [] => 0
  | y :: l' => if node_eqb x y then 0 else S (index x l')
  end.

(** [u] and [v] are both in [l], and [u] comes first. *)
Definition precedes (l : list node) (u v : node) : Prop :=
  In u l /\ In v l /\ index u l < index v l.

(** Two schemas registered on the file backend; a schema with one aliased
    foreign key on the networked backend; table [B] referencing table [A]
    twice on each backend. *)
Definition two_schemas_on_file : introspection :=
  Introspection true ["lab"; "subject"]
    (Return [("session", "session_id")]) (Return []).

Definition one_aliased_key : introspection :=
  Introspection false ["s"]
    (Return [("`s`.`A`", "id"); ("`s`.`B`", "id")])
    (Return [FkRow "b_ibfk_1" "`s`.`B`" "`s`.`A`" "owner_id" "id"]).

Definition two_keys_networked : introspection :=
  Introspection false ["s"]
    (Return [("`s`.`A`", "id"); ("`s`.`B`", "id")])
    (Return [FkRow "b_ibfk_1" "`s`.`B`" "`s`.`A`" "owner_id" "id";
             FkRow "b_ibfk_2" "`s`.`B`" "`s`.`A`" "editor_id" "id"]).

Definition two_keys_on_file : introspection :=
  Introspection true ["s"]
    (Return [("A", "id"); ("B", "id")])
    (Return [FkRow "" "B" "A" "owner_id" "id";
             FkRow "" "B" "A" "editor_id" "id"]).

(** A foreign key on a column outside the primary key. *)
Definition fk_outside_primary_key : foreign_key :=
  ForeignKey "`s`.`B`" "`s`.`A`" [("a_id", "a_id")].
Definition pks_id_only : list (string * list string) :=
  [("`s`.`A`", ["a_id"]); ("`s`.`B`", ["id"])].

(** A graph as networkx keeps it: no node and no edge twice, and every
    end of an edge a node. *)
Definition well_formed (ns : list node) (es : list edge) : Prop :=
  NoDup ns /\ NoDup es /\ forall u v, In (u, v) es -> In u ns /\ In v ns.

(** The number of edges into [v] that come from outside [P]. *)
Definition remaining (es : list edge) (P : list node) (v : node) : nat :=
  List.length
    (filter (fun e => node_eqb (snd e) v && negb (node_mem (fst e) P)) es).

(** The state of the topological sort between two nodes: [P] the nodes
    whose children have been gone through, [pend] the nodes found with no
    edge left into them and not yet gone through, [im] the map of the
    other nodes to the number of edges left into them. *)
Definition kahn_inv (ns : list node) (es : list edge)
           (im : list (node * Z)) (P pend : list node) : Prop :=
  NoDup (P ++ pend)
  /\ incl (P ++ pend) ns
  /\ NoDup (map fst im)
  /\ (forall v, In v ns -> (In v (P ++ pend) <-> remaining es P v = 0))
  /\ (forall v, dict_get node_eqb v im =
                if node_mem v ns && negb (remaining es P v =? 0)%nat
                then Some (Z.of_nat (remaining es P v)) else None)
  /\ (forall u v, In v P -> In (u, v) es -> index u P < index v P).

(** A ranking of the nodes that every edge climbs. *)
Definition ranked (es : list edge) (rank : node -> nat) : Prop :=
  forall u v, In (u, v) es -> rank u < rank v.

(** The state of the breadth-first search from [source]: [processed]
    the nodes whose children have been looked at, [queue] the nodes
    discovered and waiting. *)
Definition bfs_inv (ns : list node) (es : list edge) (source : node)
           (processed queue : list node) : Prop :=
  NoDup (processed ++ queue)
  /\ incl (processed ++ queue) ns
  /\ (forall v, In v (processed ++ queue) ->
                v = source \/ reachable es source v)
  /\ In source (processed ++ queue)
  /\ (forall u v, In u processed -> In (u, v) es ->
                  In v (processed ++ queue)).

(** What [descendants(t)] is to return: [t], then exactly the nodes
    that can be reached from [t], each once, every one of the listed
    nodes after all the listed nodes it can be reached from. *)
Definition lists_descendants (es : list edge) (t : node)
           (r : result (list node)) : Prop :=
  exists l,
    r = Return (t :: l)
    /\ NoDup (t :: l)
    /\ (forall v, In v l <-> reachable es t v)
    /\ (forall u v, In u (t :: l) -> In v (t :: l) ->
                    reachable es u v -> precedes (t :: l) u v).

(** What [ancestors(t)] is to return: [t], then exactly the nodes that
    [t] can be reached from, each once, every one of the listed nodes
    before all the listed nodes it can be reached from. *)
Definition lists_ancestors (es : list edge) (t : node)
           (r : result (list node)) : Prop :=
  exists l,
    r = Return (t :: l)
    /\ NoDup (t :: l)
    /\ (forall v, In v l <-> reachable es v t)
    /\ (forall u v, In u (t :: l) -> In v (t :: l) ->
                    reachable es u v -> precedes (t :: l) v u).

(** Three tables in a chain, [C] referencing [B] referencing [A]. *)
Definition chain_of_three : introspection :=
  Introspection false ["s"]
    (Return [("`s`.`A`", "id"); ("`s`.`B`", "id"); ("`s`.`C`", "id")])
    (Return [FkRow "b_ibfk_1" "`s`.`B`" "`s`.`A`" "id" "id";
             FkRow "c_ibfk_1" "`s`.`C`" "`s`.`B`" "id" "id"]).

(** Every alias label in use lies below the counter. *)
Definition alias_bound (self : Dependencies) : Prop :=
  forall i, In (Alias i) (nodes (graph self)) -> i < _node_alias_count self.

(** The renaming that takes [k] off every alias label. *)
Definition unshift_alias (k : nat) (n : node) : node :=
  match n with
  | Table name => Table name
  | Alias i => Alias (i - k)
  end.

(** A later state of the same connection object: the backend is the
    same, the driver calls made so far are the first ones of the trace,
    a handle once set has not been unset, and a transaction marked
    closed has stayed so. *)
Definition evolves (s s' : Connection) : Prop :=
  conn_info s' = conn_info s
  /\ (exists calls, trace s' = trace s ++ calls)
  /\ (_conn s <> None -> _conn s' <> None)
  /\ (_in_transaction s = Some false -> _in_transaction s' = Some false).

(** A method whose every outcome is such a later state. *)
Definition respects {A : Type} (m : M A) : Prop :=
  forall s r s', m s = Some (r, s') -> evolves s s'.

(** A driver that answers every call. *)
Definition env_ok (k : nat) : response := ROk.

(** A file-backend connection as [__init__] leaves it. *)
Definition idle_file_connection : Connection :=
  mkConnection (ConnInfo "lab.db" PortSqlite TlsNone) (Some 0) false
    (Some false) 2
    [Flush "lab.db"; Sqlite3Connect "lab.db";
     Execute 0 "PRAGMA foreign_keys=1" []].

(** The error of a statement on a database file that has gone stale; a
    file engine that raises it once, at the first statement after the
    construction, and one that raises it at every call from the first
    statement of a transaction on. *)
Definition stale_file : exn :=
  Sqlite3Error sqlite3.DatabaseError "database disk image is malformed".

Definition env_stale_once (n : nat) : response :=
  if Nat.eqb n 2 then RRaise stale_file else ROk.

Definition env_stale (n : nat) : response :=
  if (3 <=? n)%nat then RRaise stale_file else ROk.

(** The state a query leaves when it ran its statement once on the
    handle [h]: on the file backend [row_factory] was set first. *)
Definition after_statement (h : handle) (sql : string) (args : list pyval)
           (as_dict : bool) (s : Connection) : Connection :=
  log_call (Execute h sql args) true
    (if is_sqlite (conn_info s) then set_row_factory as_dict s else s).

(** Table [A] with primary key [(x, y)], and table [B] with primary key
    [(x, y, z)] and a foreign key [(x, y)] to [A]. *)
Definition table_A : master_row :=
  Master "table" "A" [TableInfo "x" 1; TableInfo "y" 2] [].
Definition table_B : master_row :=
  Master "table" "B" [TableInfo "x" 1; TableInfo "y" 2; TableInfo "z" 3]
         [ForeignKeyList "A" "x" "x"; ForeignKeyList "A" "y" "y"].
Definition composite_key_catalog : list master_row := [table_A; table_B].

(** The same schema as the networked backend's queries list it. *)
Definition composite_key_networked : introspection :=
  Introspection false ["s"]
    (Return [("`s`.`A`", "x"); ("`s`.`A`", "y");
             ("`s`.`B`", "x"); ("`s`.`B`", "y"); ("`s`.`B`", "z")])
    (Return [FkRow "b_ibfk_1" "`s`.`B`" "`s`.`A`" "x" "x";
             FkRow "b_ibfk_1" "`s`.`B`" "`s`.`A`" "y" "y"]).

(** A driver that raises [e] at its [n]-th call and answers every other
    call. *)
Definition env_raise_at (n : nat) (e : exn) (k : nat) : response :=
  if Nat.eqb k n then RRaise e else ROk.

(** Driver errors: a row that breaks a uniqueness constraint, a foreign
    key constraint that fails at the COMMIT, a server that refuses the
    TLS handshake, a server that refuses the connection, and a file
    that holds no database. *)
Definition unique_failed : exn :=
  Sqlite3Error sqlite3.IntegrityError "UNIQUE constraint failed: session.id".
Definition foreign_key_failed : exn :=
  Sqlite3Error sqlite3.IntegrityError "FOREIGN KEY constraint failed".
Definition handshake_failed : exn :=
  ClientError (ClientErr client_err.InternalError
                 [VInt 1043; VStr "Bad handshake"]).
Definition connection_refused : exn :=
  ClientError (ClientErr client_err.OperationalError
                 [VInt 2003; VStr "Can't connect to MySQL server"]).

(** The state in which [__init__] calls [connect]. *)
Definition unconnected (ci : conn_info_t) : Connection :=
  mkConnection ci None false None 0 [].

(** A block that inserts one row, and a block that raises. *)
Definition insert_row (env : nat -> response) : M unit :=
  bind (query env true 1 "INSERT INTO session VALUES (1)" [] false None)
       (fun _ => ret tt).
Definition failing_block : M unit :=
  raise (OtherError "ValueError").

(** Catalogs of the file backend: two tables that reference each other,
    a table that references itself, three tables in a chain, and a
    table that references another under a column name of its own. *)
Definition cyclic_catalog : list master_row :=
  [Master "table" "A" [TableInfo "id" 1] [ForeignKeyList "B" "id" "id"];
   Master "table" "B" [TableInfo "id" 1] [ForeignKeyList "A" "id" "id"]].

Definition self_reference_catalog : list master_row :=
  [Master "table" "T" [TableInfo "id" 1; TableInfo "parent_id" 0]
          [ForeignKeyList "T" "parent_id" "id"]].

Definition chain_catalog : list master_row :=
  [Master "table" "A" [TableInfo "id" 1] [];
   Master "table" "B" [TableInfo "id" 1] [ForeignKeyList "A" "id" "id"];
   Master "table" "C" [TableInfo "id" 1] [ForeignKeyList "B" "id" "id"]].

Definition aliased_catalog : list master_row :=
  [Master "table" "A" [TableInfo "id" 1] [];
   Master "table" "B" [TableInfo "id" 1; TableInfo "owner_id" 0]
          [ForeignKeyList "A" "owner_id" "id"]].

(** Every alias node of [g] has one edge into it and one edge out of it:
    those of one aliased foreign key among [fks], from its referenced
    table and to its referencing table, with its attributes. *)
Definition alias_linked (pks : list (string * list string))
           (fks : list foreign_key) (g : DiGraph) : Prop :=
  forall i, In (Alias i) (nodes g) ->
    exists fk,
      In fk fks
      /\ aliased (fk_props pks fk) = true
      /\ filter (fun ep : edge * props => node_eqb (snd (fst ep)) (Alias i))
                (edge_data g)
         = [((Table (fk_referenced_table fk), Alias i), fk_props pks fk)]
      /\ filter (fun ep : edge * props => node_eqb (fst (fst ep)) (Alias i))
                (edge_data g)
         = [((Alias i, Table (fk_referencing_table fk)), fk_props pks fk)].

(** The alias labels in use are those from [first] up to the counter,
    each once. *)
Definition alias_labels_from (first : nat) (self : Dependencies) : Prop :=
  first <= _node_alias_count self
  /\ (forall i, In (Alias i) (nodes (graph self))
                <-> first <= i < _node_alias_count self)
  /\ alias_node_count (graph self) + first = _node_alias_count self.

(** The name [load] gives a table: on the file backend the names the
    queries return are qualified with the schema. *)
Definition qualified (c : introspection) (tbl : string) : string :=
  if sqlite c then full_table_name (schemas c) tbl else tbl.

(** The [primary_key] attribute a node is to carry: the key gathered for
    a table, and none for an alias node or a table without one. *)
Definition primary_key_of (pks : list (string * list string)) (n : node)
  : option (list string) :=
  match n with
  | Table name => dict_get String.eqb name pks
  | Alias _ => None
  end.

(** The row of the foreign-key query as the grouping loop reads it: the
    file backend sets the constraint name and qualifies the two table
    names. *)
Definition qualified_row (c : introspection) (r : fk_row) : fk_row :=
  if sqlite c then
    FkRow "FOREIGN"
          (full_table_name (schemas c) (referencing_table r))
          (full_table_name (schemas c) (referenced_table r))
          (column_name r) (referenced_column_name r)
  else r.

(** The key under which the grouping loop files a row. *)
Definition row_key (r : fk_row) : fk_key :=
  (constraint_name r, referencing_table r, referenced_table r).

(** The state of the grouping loop after the rows [P]: one foreign key
    per key of a row, between the tables of the key, whose attribute map
    holds one item per column, each from a row of that key, and holds
    the column of every row of that key. *)
Definition grouped (P : list fk_row) (D : list (fk_key * foreign_key))
  : Prop :=
  NoDup (map fst D)
  /\ (forall k fk,
         dict_get fk_key_eqb k D = Some fk ->
         fk_referencing_table fk = snd (fst k)
         /\ fk_referenced_table fk = snd k
         /\ NoDup (map fst (fk_attr_map fk))
         /\ fk_attr_map fk <> []
         /\ forall col ref,
             In (col, ref) (fk_attr_map fk) ->
             exists r, In r P /\ row_key r = k /\ column_name r = col
                       /\ referenced_column_name r = ref)
  /\ (forall r, In r P ->
                exists fk,
                  dict_get fk_key_eqb (row_key r) D = Some fk
                  /\ In (column_name r) (map fst (fk_attr_map fk))).

(* ================================================================== *)
(** * Theorems *)
(* ================================================================== *)

Unset Implicit Arguments.

Example translate_gone_away :
  translate_query_error
    (ClientErr client_err.OperationalError [VInt 2013; VStr "gone"]) "SELECT 1"
  = Return (DJError errors.LostConnectionError
              [VStr "Server connection lost"; VStr "gone"]).
Proof. reflexivity. Qed.

(* ------------------------------------------------------------------ *)
(** ** translate_query_error *)
(* ------------------------------------------------------------------ *)

Lemma translate_query_error_total (e : client_error) (q : string) :
  translate_query_error e q =
  match ce_args e, ce_class e with
  | [], c => if code_is_read c then Raise IndexError
             else Return (ClientError e)
  | code :: rest, c =>
      match translation_table c code with
      | None => Return (ClientError e)
      | Some errors.LostConnectionError =>
          Return (DJError errors.LostConnectionError
                    (VStr (match c with
                           | client_err.InterfaceError =>
                               "Server connection lost due to an interface error."
                           | _ => match dict_find code disconnect_codes with
                                  | Some m => m | None => "" end
                           end) :: rest))
      | Some errors.AccessError =>
          match rest with
          | [] => Raise IndexError
          | m :: _ => Return (DJError errors.AccessError
                                [VStr "Insufficient privileges."; m; VStr q])
          end
      | Some errors.QuerySyntaxError =>
          match rest with
          | [] => Raise IndexError
          | m :: _ => Return (DJError errors.QuerySyntaxError [m; VStr q])
          end
      | Some errors.MissingTableError =>
          match rest with
          | [] => Raise IndexError
          | m :: _ => Return (DJError errors.MissingTableError [m; VStr q])
          end
      | Some k => Return (DJError k rest)
      end
  end.
Proof.
  destruct e as [c args].
  destruct args as [|code rest]; [destruct c; reflexivity|].
  destruct code as [z|s].
  - destruct c; cbn -[Z.eqb]; try reflexivity;
      repeat match goal with
             | |- context [(z =? ?k)%Z] =>
                 let E := fresh "E" in
                 destruct (Z.eqb_spec z k) as [E|E];
                 [subst z; cbn; try reflexivity | cbn -[Z.eqb]; try reflexivity]
             end; destruct rest; reflexivity.
  - destruct c; cbn -[String.eqb]; try reflexivity.
    destruct (String.eqb s "(0, '')"); reflexivity.
Qed.

(** C1, as stated, fails: an operational error that carries the
    insufficient-privilege code 1044 and no message falls in the
    AccessDenied row of the table, and the function raises [IndexError]
    on it instead of returning an error of that kind. *)
Lemma translate_query_error_code_without_message :
  ~ agrees_with_row
      (ClientErr client_err.OperationalError [VInt 1044])
      (table_row (ClientErr client_err.OperationalError [VInt 1044]))
      (translate_query_error
         (ClientErr client_err.OperationalError [VInt 1044]) "SELECT 1").
Proof.
  cbn. intros [args H]. discriminate H.
Qed.

(** C1 (amended): for every driver error whose [args] hold the positions
    the function reads (the code [args[0]] for the five classes it tests,
    and the message [args[1]] in the AccessDenied, QuerySyntax and
    MissingTable rows), the returned error has the kind of its row of the
    translation table, and an error in no row is returned unchanged; on
    every other driver error the function raises [IndexError]. *)
Theorem translate_query_error_table (e : client_error) (q : string) :
  (args_in_range e = true ->
   agrees_with_row e (table_row e) (translate_query_error e q))
  /\ (args_in_range e = false ->
      translate_query_error e q = Raise IndexError).
Proof.
  rewrite translate_query_error_total.
  unfold args_in_range, table_row, agrees_with_row.
  destruct e as [c [|code rest]]; cbn [ce_args ce_class].
  - destruct c; cbn; split; intros H; try discriminate H; reflexivity.
  - destruct (translation_table c code) as [k|] eqn:Hk.
    + destruct k, rest as [|m rest']; cbn;
        (split; intros H; try discriminate H; try reflexivity;
         try (eexists; reflexivity));
        destruct c; cbn in H; discriminate H.
    + destruct c; cbn; split; intros H; try discriminate H; reflexivity.
Qed.

Lemma translate_query_error_table_witness :
  agrees_with_row
    (ClientErr client_err.OperationalError [VInt 1044; VStr "denied"])
    (Some errors.AccessError)
    (translate_query_error
       (ClientErr client_err.OperationalError [VInt 1044; VStr "denied"])
       "SELECT 1").
Proof.
  exact (proj1 (translate_query_error_table
                  (ClientErr client_err.OperationalError
                             [VInt 1044; VStr "denied"]) "SELECT 1")
               eq_refl).
Defined.

(* ------------------------------------------------------------------ *)
(** ** Connection: health check and construction *)
(* ------------------------------------------------------------------ *)

(** The three recursive methods are unfolded one call at a time. *)
Arguments query : simpl never.
Arguments connect : simpl never.
Arguments cancel_transaction : simpl never.

Lemma query_S env cfg fuel sql args as_dict rc :
  query env cfg (S fuel) sql args as_dict rc
  = query_body env cfg (connect env cfg fuel) (cancel_transaction env cfg fuel)
               sql args as_dict rc.
Proof. reflexivity. Qed.

Lemma connect_S env cfg fuel :
  connect env cfg (S fuel) = connect_body env (query env cfg fuel).
Proof. reflexivity. Qed.

Lemma cancel_transaction_S env cfg fuel :
  cancel_transaction env cfg (S fuel)
  = cancel_transaction_body (query env cfg fuel).
Proof. reflexivity. Qed.

(** Unfolds the monad of the connection methods. *)
Ltac conn_unfold :=
  rewrite ?query_S, ?connect_S, ?cancel_transaction_S in *;
  unfold query_body, connect_body, cancel_transaction_body,
    is_connected, ping, in_transaction, start_transaction,
    commit_transaction, close, _execute_query, client_cursor, sqlite_cursor,
    read_in_transaction, the_conn, driver, try_except, bind, ret, raise,
    gets, modify, out_of_fuel in *.

Section Connection_facts.
Variable env : nat -> response.
Variable config_reconnect : bool.

(** On the file backend the check answers [True] without a driver call,
    whatever the state of the file. *)
Lemma is_connected_sqlite (s : Connection) (h : handle) :
  is_sqlite (conn_info s) = true ->
  _conn s = Some h ->
  is_connected env s = Some (Return true, s).
Proof.
  intros Hb Hc. conn_unfold. rewrite Hc, Hb. cbn. rewrite Hb. reflexivity.
Qed.

(** On the networked backend a ping that succeeds makes the check
    answer [False]. *)
Lemma is_connected_networked_ping_ok (s : Connection) (h : handle) :
  is_sqlite (conn_info s) = false ->
  _conn s = Some h ->
  env (tick s) = ROk ->
  is_connected env s = Some (Return false, log_call (Ping h) true s).
Proof.
  intros Hb Hc He. conn_unfold. rewrite Hc, Hb. cbn. rewrite He. reflexivity.
Qed.

(** On the networked backend an error of the ping, a lost connection
    among them, is not caught. *)
Lemma is_connected_networked_ping_error (s : Connection) (h : handle)
      (e : exn) :
  is_sqlite (conn_info s) = false ->
  _conn s = Some h ->
  env (tick s) = RRaise e ->
  e <> AttributeError ->
  is_connected env s = Some (Raise e, log_call (Ping h) true s).
Proof.
  intros Hb Hc He Hne. conn_unfold. rewrite Hc, Hb. cbn. rewrite He.
  destruct e; try reflexivity. congruence.
Qed.

(** C9 (the code at the failing input): on the networked backend a
    connection whose ping succeeds is reported as not connected, and
    a construction in which [connect()] succeeded and the ping
    succeeds raises [ConnectionError]. *)
Theorem is_connected_rejects_healthy_network_connection :
  (forall (s : Connection) (h : handle),
      is_sqlite (conn_info s) = false ->
      _conn s = Some h ->
      env (tick s) = ROk ->
      is_connected env s = Some (Return false, log_call (Ping h) true s))
  /\ (forall (ci : conn_info_t) (fuel : nat),
         is_sqlite ci = false ->
         env 0 = ROk -> env 1 = ROk -> env 2 = ROk ->
         __init__ env config_reconnect (S fuel) ci =
         Some (Raise connection_failed,
               mkConnection ci (Some 0) false None 3
                 [ClientConnect (has_ssl ci); Autocommit 0; Ping 0])).
Proof.
  split.
  - intros s h Hb Hc He. conn_unfold. rewrite Hc, Hb. cbn. rewrite He.
    reflexivity.
  - intros ci fuel Hb H0 H1 H2. unfold __init__.
    repeat (progress (conn_unfold; cbn; rewrite ?Hb, ?H0, ?H1, ?H2)).
    reflexivity.
Qed.
End Connection_facts.

Lemma is_connected_rejects_healthy_network_connection_witness :
  is_connected (fun _ => ROk)
    (mkConnection (ConnInfo "db" (Port 3306) TlsNone) (Some 0) false
                  (Some false) 2 [ClientConnect true; Autocommit 0])
  = Some (Return false,
          mkConnection (ConnInfo "db" (Port 3306) TlsNone) (Some 0) false
                  (Some false) 3 [ClientConnect true; Autocommit 0; Ping 0])
  /\ __init__ (fun _ => ROk) true 1 (ConnInfo "db" (Port 3306) TlsNone)
     = Some (Raise connection_failed,
             mkConnection (ConnInfo "db" (Port 3306) TlsNone) (Some 0) false
                  None 3 [ClientConnect true; Autocommit 0; Ping 0]).
Proof.
  split.
  - exact (proj1 (is_connected_rejects_healthy_network_connection
                    (fun _ => ROk) true)
                 (mkConnection (ConnInfo "db" (Port 3306) TlsNone) (Some 0)
                    false (Some false) 2 [ClientConnect true; Autocommit 0])
                 0 eq_refl eq_refl eq_refl).
  - exact (proj2 (is_connected_rejects_healthy_network_connection
                    (fun _ => ROk) true)
                 (ConnInfo "db" (Port 3306) TlsNone) 0
                 eq_refl eq_refl eq_refl eq_refl).
Defined.

(* ------------------------------------------------------------------ *)
(** ** Connection: transactions *)
(* ------------------------------------------------------------------ *)

Section Transaction_facts.
Variable env : nat -> response.
Variable config_reconnect : bool.

(** With no transaction open, [start_transaction] issues the statement
    and marks the transaction open. *)
Lemma start_transaction_opens (s : Connection) (h : handle) (fuel : nat) :
  _in_transaction s = Some false ->
  _conn s = Some h ->
  env (tick s) = ROk ->
  exists s',
    start_transaction env config_reconnect (S fuel) s = Some (Return tt, s')
    /\ _in_transaction s' = Some true
    /\ trace s' = trace s ++ [Execute h (begin_statement (conn_info s)) []].
Proof.
  destruct s as [ci c rf itx t tr]. cbn. intros -> -> He.
  unfold start_transaction, begin_statement.
  destruct (is_sqlite ci) eqn:Hb;
    repeat (progress (conn_unfold; cbn; rewrite ?Hb, ?He));
    eexists; (split; [reflexivity|]); cbn; auto.
Qed.

(** On the file backend a second [start_transaction] raises the nested
    transaction error and changes nothing. *)
Lemma start_transaction_nested_sqlite (s : Connection) (h : handle)
      (fuel : nat) :
  is_sqlite (conn_info s) = true ->
  _in_transaction s = Some true ->
  _conn s = Some h ->
  start_transaction env config_reconnect fuel s
  = Some (Raise nested_transaction, s).
Proof.
  destruct s as [ci c rf itx t tr]. cbn. intros Hb -> ->.
  unfold start_transaction.
  repeat (progress (conn_unfold; cbn; rewrite ?Hb)).
  reflexivity.
Qed.

End Transaction_facts.

(* ------------------------------------------------------------------ *)
(** ** Connection: commit and cancel *)
(* ------------------------------------------------------------------ *)

Section Verb_facts.
Variable env : nat -> response.
Variable config_reconnect : bool.

Lemma cancel_transaction_closes_after (fuel : nat) :
  closes_after (cancel_transaction env config_reconnect (S fuel))
               (query env config_reconnect fuel "ROLLBACK" [] false None).
Proof.
  intros s. rewrite cancel_transaction_S. unfold cancel_transaction_body.
  unfold try_except, bind, ret, modify.
  destruct (query env config_reconnect fuel "ROLLBACK" [] false None s)
    as [[[c|e] s1]|]; try reflexivity.
  destruct (is_sqlite3_OperationalError e); reflexivity.
Qed.

Lemma commit_transaction_closes_after (fuel : nat) :
  closes_after (commit_transaction env config_reconnect fuel)
               (query env config_reconnect fuel "COMMIT" [] false None).
Proof.
  intros s. unfold commit_transaction.
  unfold try_except, bind, ret, modify.
  destruct (query env config_reconnect fuel "COMMIT" [] false None s)
    as [[[c|e] s1]|]; try reflexivity.
  destruct (is_sqlite3_OperationalError e); reflexivity.
Qed.

(** A statement the driver runs: [query] returns a cursor on the
    current handle. *)
Lemma query_ok (s : Connection) (h : handle) (fuel : nat) (sql : string)
      (args : list pyval) (as_dict : bool) (rc : option bool) :
  _conn s = Some h ->
  env (tick s) = ROk ->
  exists s1 c,
    query env config_reconnect (S fuel) sql args as_dict rc s
    = Some (Return c, s1)
    /\ cur_conn c = h
    /\ _in_transaction s1 = _in_transaction s
    /\ _conn s1 = Some h
    /\ conn_info s1 = conn_info s
    /\ trace s1 = trace s ++ [Execute h sql args].
Proof.
  destruct s as [ci c rf itx t tr]. cbn. intros -> He.
  destruct (is_sqlite ci) eqn:Hb;
    repeat (progress (conn_unfold; cbn; rewrite ?Hb, ?He));
    do 2 eexists; (split; [reflexivity|]); cbn; auto.
Qed.

(** On the file backend an [sqlite3.OperationalError] of the statement
    leaves [query] as it is, with no reconnection. *)
Lemma query_sqlite_operational_error (s : Connection) (h : handle)
      (fuel : nat) (sql msg : string) (args : list pyval)
      (as_dict : bool) (rc : option bool) :
  is_sqlite (conn_info s) = true ->
  _conn s = Some h ->
  env (tick s) = RRaise (Sqlite3Error sqlite3.OperationalError msg) ->
  exists s1,
    query env config_reconnect (S fuel) sql args as_dict rc s
    = Some (Raise (Sqlite3Error sqlite3.OperationalError msg), s1)
    /\ _in_transaction s1 = _in_transaction s
    /\ _conn s1 = Some h
    /\ conn_info s1 = conn_info s
    /\ trace s1 = trace s ++ [Execute h sql args].
Proof.
  destruct s as [ci c rf itx t tr]. cbn. intros Hb -> He.
  repeat (progress (conn_unfold; cbn; rewrite ?Hb, ?He)).
  eexists; (split; [reflexivity|]); cbn; auto.
Qed.

End Verb_facts.

(** C8 (the code at the failing input): a file-backend connection as
    the constructor and [start_transaction] leave it, whose COMMIT finds
    the database locked.  The error is not the one of a transaction
    already closed and the statement did not run: [query] raises the
    error.  [commit_transaction] does not: it returns and marks the
    transaction closed, and so does [cancel_transaction] when it is the
    ROLLBACK that finds the database locked. *)
Theorem commit_transaction_swallows_locked_database :
  __init__ env_locked true 2 (ConnInfo "lab.db" PortSqlite TlsNone)
  = Some (Return tt, idle_file_connection)
  /\ start_transaction env_locked true 1 idle_file_connection
     = Some (Return tt, in_file_transaction)
  /\ already_closed_error locked_database = false
  /\ query env_locked true 1 "COMMIT" [] false None in_file_transaction
     = Some (Raise locked_database,
             after_statement 0 "COMMIT" [] false in_file_transaction)
  /\ commit_transaction env_locked true 1 in_file_transaction
     = Some (Return tt,
             set_in_transaction false
               (after_statement 0 "COMMIT" [] false in_file_transaction))
  /\ cancel_transaction env_locked true 2 in_file_transaction
     = Some (Return tt,
             set_in_transaction false
               (after_statement 0 "ROLLBACK" [] false in_file_transaction)).
Proof. repeat split; reflexivity. Qed.

(* ------------------------------------------------------------------ *)
(** ** Connection: loss of the connection during a query *)
(* ------------------------------------------------------------------ *)

Section Query_facts.
Variable env : nat -> response.
Variable config_reconnect : bool.

Variables (s : Connection) (h : handle) (sql : string)
          (args : list pyval) (as_dict : bool) (rc : option bool)
          (e : exn) (fuel : nat).
Hypothesis Hconn : _conn s = Some h.
Hypothesis Hraise : env (tick s) = RRaise e.
Hypothesis Hloss : connection_loss (conn_info s) (surfaced e sql) = true.

(** Without reconnection the error goes to the caller as it is. *)
Lemma query_loss_no_reconnect :
  resolve config_reconnect rc = false ->
  exists s',
    query env config_reconnect (S fuel) sql args as_dict rc s
    = Some (Raise (surfaced e sql), s')
    /\ _in_transaction s' = _in_transaction s
    /\ _conn s' = Some h
    /\ trace s' = trace s ++ [Execute h sql args].
Proof.
  destruct s as [ci c rf itx t tr]. cbn in *. subst c.
  unfold connection_loss, resolve in *. intros Hrc.
  apply andb_prop in Hloss. destruct Hloss as [Hl Hr].
  assert (Hrc' : match rc with Some b => b | None => config_reconnect end
                 = false) by exact Hrc.
  destruct (is_sqlite ci) eqn:Hb; cbn in Hr;
    destruct e as [ce| | | | | |]; cbn in Hl, Hr |- *;
    try destruct (translate_query_error ce sql) as [e'|e'] eqn:Htr;
    repeat (progress (conn_unfold; cbn;
                      rewrite ?Hb, ?Hraise, ?Htr, ?Hl, ?Hrc';
                      try (apply negb_true_iff in Hr; rewrite Hr)));
    try discriminate;
    eexists; (split; [reflexivity|]); cbn; auto.
Qed.

(** With reconnection and a transaction open: the transaction is
    cancelled (on the networked backend after the reconnection, on the
    file backend on the old handle) and [LostConnectionError] is raised;
    the statement is not run again. *)
Lemma query_loss_in_transaction :
  resolve config_reconnect rc = true ->
  _in_transaction s = Some true ->
  (forall i, i < 3 -> env (S (tick s) + i) = ROk) ->
  exists s',
    query env config_reconnect (3 + fuel) sql args as_dict rc s
    = Some (Raise lost_in_transaction, s')
    /\ _in_transaction s' = Some false
    /\ trace s' =
       trace s ++ [Execute h sql args]
         ++ (if is_sqlite (conn_info s) then [Execute h "ROLLBACK" []]
             else reconnect_calls (conn_info s) h (S (tick s))
                    ++ [Execute (S (tick s)) "ROLLBACK" []]).
Proof.
  destruct s as [ci c rf itx t tr]. cbn in *. subst c.
  unfold connection_loss, resolve, reconnect_calls in *.
  intros Hrc -> Hok.
  assert (Hrc' : match rc with Some b => b | None => config_reconnect end
                 = true) by exact Hrc.
  assert (H0 : env (S t) = ROk)
    by (rewrite <- (Hok 0) by lia; f_equal; lia).
  assert (H1 : env (S (S t)) = ROk)
    by (rewrite <- (Hok 1) by lia; f_equal; lia).
  assert (H2 : env (S (S (S t))) = ROk)
    by (rewrite <- (Hok 2) by lia; f_equal; lia).
  apply andb_prop in Hloss. destruct Hloss as [Hl Hr].
  destruct (is_sqlite ci) eqn:Hb; cbn in Hr;
    destruct e as [ce| | | | | |]; cbn in Hl, Hr |- *;
    try destruct (translate_query_error ce sql) as [e'|e'] eqn:Htr;
    repeat (progress (conn_unfold; cbn;
                      rewrite ?Hb, ?Hraise, ?Htr, ?Hl, ?Hrc', ?H0, ?H1, ?H2;
                      try (apply negb_true_iff in Hr; rewrite Hr)));
    try discriminate;
    eexists; (split; [reflexivity|]); cbn;
    rewrite <- ?app_assoc; cbn; auto.
Qed.

(** With reconnection and no transaction open: the connection is made
    anew, a cursor is opened on the new handle and the statement is run
    on it once; what that one run gives is what [query] gives. *)
Lemma query_loss_retry (r2 : response) :
  resolve config_reconnect rc = true ->
  _in_transaction s = Some false ->
  h <= tick s ->
  (forall i, i < reconnect_ticks (conn_info s) ->
             env (S (tick s) + i) = ROk) ->
  env (S (tick s) + reconnect_ticks (conn_info s)) = r2 ->
  exists s' h',
    query env config_reconnect (3 + fuel) sql args as_dict rc s
    = Some (match r2 with
            | ROk => Return (Cursor h' (if is_sqlite (conn_info s)
                                        then false else as_dict))
            | RRaise e2 => Raise (surfaced e2 sql)
            end, s')
    /\ h' = reconnect_handle (conn_info s) (S (tick s))
    /\ h' <> h
    /\ _conn s' = Some h'
    /\ _in_transaction s' = Some false
    /\ trace s' =
       trace s ++ [Execute h sql args]
         ++ reconnect_calls (conn_info s) h (S (tick s))
         ++ [Execute h' sql args].
Proof.
  destruct s as [ci c rf itx t tr]. cbn in *. subst c.
  unfold connection_loss, resolve, reconnect_calls, reconnect_handle,
    reconnect_ticks in *.
  intros Hrc -> Hh Hok H3.
  assert (Hrc' : match rc with Some b => b | None => config_reconnect end
                 = true) by exact Hrc.
  apply andb_prop in Hloss. destruct Hloss as [Hl Hr].
  destruct (is_sqlite ci) eqn:Hb; cbn in Hr.
  - assert (H0 : env (S t) = ROk)
      by (rewrite <- (Hok 0) by lia; f_equal; lia).
    assert (H1 : env (S (S t)) = ROk)
      by (rewrite <- (Hok 1) by lia; f_equal; lia).
    assert (H2 : env (S (S (S t))) = ROk)
      by (rewrite <- (Hok 2) by lia; f_equal; lia).
    replace (S (t + 3)) with (S (S (S (S t)))) in H3 by lia.
    destruct e as [ce| | | | | |]; cbn in Hl, Hr |- *;
      try destruct (translate_query_error ce sql) as [e'|e'] eqn:Htr;
      try discriminate;
      repeat (progress (conn_unfold; cbn;
                        rewrite ?Hb, ?Hraise, ?Htr, ?Hl, ?Hrc',
                          ?H0, ?H1, ?H2, ?H3;
                        try (apply negb_true_iff in Hr; rewrite Hr)));
      try discriminate;
      (destruct r2 as [|[ce2| | | | | |]];
       cbn; try destruct (translate_query_error ce2 sql);
       do 2 eexists; (split; [reflexivity|]); cbn;
       rewrite <- ?app_assoc; cbn; repeat split; auto; lia).
  - assert (H0 : env (S t) = ROk)
      by (rewrite <- (Hok 0) by lia; f_equal; lia).
    assert (H1 : env (S (S t)) = ROk)
      by (rewrite <- (Hok 1) by lia; f_equal; lia).
    replace (S (t + 2)) with (S (S (S t))) in H3 by lia.
    destruct e as [ce| | | | | |]; cbn in Hl, Hr |- *;
      try destruct (translate_query_error ce sql) as [e'|e'] eqn:Htr;
      try discriminate;
      repeat (progress (conn_unfold; cbn;
                        rewrite ?Hb, ?Hraise, ?Htr, ?Hl, ?Hrc',
                          ?H0, ?H1, ?H3));
      try discriminate;
      (destruct r2 as [|[ce2| | | | | |]];
       cbn; try destruct (translate_query_error ce2 sql);
       do 2 eexists; (split; [reflexivity|]); cbn;
       rewrite <- ?app_assoc; cbn; repeat split; auto; lia).
Qed.
End Query_facts.

(* ------------------------------------------------------------------ *)
(** ** Dependencies.load: the attributes of an edge *)
(* ------------------------------------------------------------------ *)

Lemma set_mem_In (x : string) (s : list string) :
  set_mem x s = true <-> In x s.
Proof.
  unfold set_mem. rewrite existsb_exists. split.
  - intros (y & Hy & E). apply String.eqb_eq in E. now subst.
  - intros H. exists x. split; [assumption | apply String.eqb_refl].
Qed.

Lemma set_le_incl (a b : list string) :
  set_le a b = true <-> incl a b.
Proof.
  unfold set_le. rewrite forallb_forall. unfold incl.
  split; intros H x Hx; apply set_mem_In; auto.
Qed.

Lemma set_ne_spec (a b : list string) :
  set_ne a b = true <-> ~ (incl a b /\ incl b a).
Proof.
  unfold set_ne. rewrite negb_true_iff, andb_false_iff.
  rewrite <- !set_le_incl.
  destruct (set_le a b), (set_le b a); intuition congruence.
Qed.

(** [multi] is computed with [!=]: for a foreign key on a column outside
    the primary key it is true although the referencing columns are not
    a subset of the primary key, let alone a strict one. *)
Lemma multi_without_strict_subset :
  multi (fk_props pks_id_only fk_outside_primary_key) = true
  /\ ~ (incl (map fst (fk_attr_map fk_outside_primary_key))
             (pks_get (fk_referencing_table fk_outside_primary_key)
                      pks_id_only)
        /\ ~ incl (pks_get (fk_referencing_table fk_outside_primary_key)
                           pks_id_only)
                  (map fst (fk_attr_map fk_outside_primary_key))).
Proof.
  split; [reflexivity|]. cbn. intros [H _].
  specialize (H "a_id" (or_introl eq_refl)). cbn in H.
  destruct H as [H|[]]. discriminate H.
Qed.

(** The attributes of one foreign key, over the columns [pks] holds for
    the referencing table: [primary] is true iff every referencing
    column is among them, [aliased] is true iff some referencing column
    differs in name from the column it references, and [multi] is true
    iff the set of referencing columns differs from them; when [primary]
    is true this is to say that the referencing columns are a strict
    subset of them. *)
Lemma fk_props_spec (pks : list (string * list string))
        (fk : foreign_key) :
  let cols := map fst (fk_attr_map fk) in
  let pk := pks_get (fk_referencing_table fk) pks in
  let p := fk_props pks fk in
  (primary p = true <-> incl cols pk)
  /\ (aliased p = true <->
      exists k v, In (k, v) (fk_attr_map fk) /\ k <> v)
  /\ (multi p = true <-> ~ (incl cols pk /\ incl pk cols))
  /\ (primary p = true ->
      (multi p = true <-> incl cols pk /\ ~ incl pk cols))
  /\ attr_map p = fk_attr_map fk.
Proof.
  cbn. repeat split.
  - apply set_le_incl.
  - apply set_le_incl.
  - intros H. apply existsb_exists in H. destruct H as ([k v] & Hin & Hne).
    exists k, v. split; [assumption|]. cbn in Hne.
    apply negb_true_iff, String.eqb_neq in Hne. assumption.
  - intros (k & v & Hin & Hne). apply existsb_exists. exists (k, v).
    split; [assumption|]. cbn. apply negb_true_iff, String.eqb_neq.
    assumption.
  - apply set_ne_spec.
  - apply set_ne_spec.
  - apply set_le_incl. assumption.
  - apply set_le_incl in H. apply set_ne_spec in H0. tauto.
  - intros [_ H1]. apply set_ne_spec. tauto.
Qed.

(* ------------------------------------------------------------------ *)
(** ** Dependencies.load: several schemas on the file backend *)
(* ------------------------------------------------------------------ *)

(** C10: on the file backend with more than one schema registered,
    [load] raises, and leaves the graph it has just cleared without a
    node or an edge; when the primary-key query returned, what it raises
    is the plain [Exception], which is no error of the taxonomy. *)
Theorem load_file_backend_several_schemas (c : introspection)
        (self : Dependencies) :
  sqlite c = true ->
  1 < List.length (schemas c) ->
  fst (load c self) = mkDependencies empty_graph (_node_alias_count self)
  /\ (exists e, snd (load c self) = Raise e)
  /\ (forall rows, primary_key_rows c = Return rows ->
                   snd (load c self) = Raise multiple_schemas)
  /\ kind_of multiple_schemas = None.
Proof.
  intros Hs Hn. apply Nat.ltb_lt in Hn.
  unfold load, load_pks. rewrite Hs, Hn.
  destruct (primary_key_rows c) as [rows|e]; cbn; repeat split.
  - eexists; reflexivity.
  - eexists; reflexivity.
  - intros rows H. discriminate H.
Qed.

Lemma load_file_backend_several_schemas_witness :
  fst (load two_schemas_on_file new_dependencies) = new_dependencies
  /\ snd (load two_schemas_on_file new_dependencies)
     = Raise multiple_schemas.
Proof.
  destruct (@load_file_backend_several_schemas two_schemas_on_file
              new_dependencies eq_refl) as (H1 & _ & H3 & _).
  - cbn. lia.
  - split; [exact H1 | exact (H3 _ eq_refl)].
Defined.

(* ------------------------------------------------------------------ *)
(** ** Dependencies.load: aliased foreign keys *)
(* ------------------------------------------------------------------ *)

(** On the networked backend two foreign keys from [B] to [A] under
    different column names give two alias nodes, and [parents(B)] has two
    entries, each an alias node whose one parent is [A]. *)
Lemma two_keys_networked_two_alias_nodes :
  let d := fst (load two_keys_networked new_dependencies) in
  snd (load two_keys_networked new_dependencies) = Return tt
  /\ filter is_alias (nodes (graph d)) = [Alias 0; Alias 1]
  /\ map fst (parents d (Table "`s`.`B`") None) = [Alias 0; Alias 1]
  /\ map fst (parents d (Alias 0) None) = [Table "`s`.`A`"]
  /\ map fst (parents d (Alias 1) None) = [Table "`s`.`A`"].
Proof. vm_compute. repeat split. Qed.

(** C6 (the code at the failing input): on the file backend the same two
    foreign keys are grouped under the one constraint name ['FOREIGN']
    into a single foreign key with two columns, so [load] makes one alias
    node and [parents(B)] has one entry. *)
Theorem two_keys_on_file_one_alias_node :
  let d := fst (load two_keys_on_file new_dependencies) in
  snd (load two_keys_on_file new_dependencies) = Return tt
  /\ load_fks two_keys_on_file
     = Return [ForeignKey "`s`.`B`" "`s`.`A`"
                          [("owner_id", "id"); ("editor_id", "id")]]
  /\ filter is_alias (nodes (graph d)) = [Alias 0]
  /\ map fst (parents d (Table "`s`.`B`") None) = [Alias 0].
Proof. vm_compute. repeat split. Qed.

(* ------------------------------------------------------------------ *)
(** ** Dependencies.load: loading twice *)
(* ------------------------------------------------------------------ *)

Lemma node_eqb_eq (a b : node) : node_eqb a b = true <-> a = b.
Proof.
  destruct a as [x|x], b as [y|y]; cbn; split; intros H;
    try discriminate H; try congruence.
  - apply String.eqb_eq in H. now subst.
  - injection H as ->. apply String.eqb_refl.
  - apply Nat.eqb_eq in H. now subst.
  - injection H as ->. apply Nat.eqb_refl.
Qed.

Lemma node_eqb_refl (a : node) : node_eqb a a = true.
Proof. now apply node_eqb_eq. Qed.

Lemma node_eqb_neq (a b : node) : node_eqb a b = false <-> a <> b.
Proof.
  rewrite <- node_eqb_eq. destruct (node_eqb a b); intuition congruence.
Qed.

Lemma node_eqb_shift (k : nat) (a b : node) :
  node_eqb (shift_alias k a) (shift_alias k b) = node_eqb a b.
Proof.
  destruct a as [x|x], b as [y|y]; cbn; try reflexivity.
  destruct (Nat.eqb_spec x y) as [->|Hne].
  - apply Nat.eqb_refl.
  - apply Nat.eqb_neq. lia.
Qed.

(** Renaming the keys of a dict by a map that keeps keys apart. *)
Section dict_rename.
Context {K K' V : Type}.
Variables (eqb : K -> K -> bool) (eqb' : K' -> K' -> bool).
Variable f : K -> K'.
Hypothesis f_eqb : forall a b, eqb' (f a) (f b) = eqb a b.

Lemma dict_get_rename (k : K) (d : list (K * V)) :
  dict_get eqb' (f k) (map (fun kv => (f (fst kv), snd kv)) d)
  = dict_get eqb k d.
Proof.
  induction d as [|[k' v] d IH]; cbn; [reflexivity|].
  rewrite f_eqb, IH. reflexivity.
Qed.

Lemma dict_set_rename (k : K) (v : V) (d : list (K * V)) :
  dict_set eqb' (f k) v (map (fun kv => (f (fst kv), snd kv)) d)
  = map (fun kv => (f (fst kv), snd kv)) (dict_set eqb k v d).
Proof.
  induction d as [|[k' v'] d IH]; cbn; [reflexivity|].
  rewrite f_eqb. destruct (eqb k k'); cbn; [reflexivity|].
  f_equal. exact IH.
Qed.
End dict_rename.

Section load_twice.
Variable k : nat.
Let sh := shift_alias k.

Lemma edge_eqb_shift (a b : edge) :
  edge_eqb (sh (fst a), sh (snd a)) (sh (fst b), sh (snd b)) = edge_eqb a b.
Proof.
  unfold edge_eqb, sh. cbn. now rewrite !node_eqb_shift.
Qed.

Lemma add_node_rename (n : node) (pk : option (list string)) (g : DiGraph) :
  add_node (sh n) pk (rename_graph sh g) = rename_graph sh (add_node n pk g).
Proof.
  unfold add_node, rename_graph. cbn [node_data edge_data].
  rewrite (dict_get_rename node_eqb node_eqb sh (node_eqb_shift k)).
  destruct (dict_get node_eqb n (node_data g)), pk; cbn;
    try reflexivity;
    now rewrite (dict_set_rename node_eqb node_eqb sh (node_eqb_shift k)).
Qed.

Lemma add_edge_rename (u v : node) (p : props) (g : DiGraph) :
  add_edge (sh u) (sh v) p (rename_graph sh g)
  = rename_graph sh (add_edge u v p g).
Proof.
  unfold add_edge. rewrite !add_node_rename.
  unfold rename_graph at 3. cbn [node_data edge_data].
  f_equal.
  exact (dict_set_rename edge_eqb edge_eqb
           (fun e : edge => (sh (fst e), sh (snd e))) edge_eqb_shift
           (u, v) p (edge_data (add_node v None (add_node u None g)))).
Qed.

(** One foreign key added to a graph and to its renaming. *)
Lemma add_foreign_key_rename (pks : list (string * list string))
      (self : Dependencies) (fk : foreign_key) :
  add_foreign_key pks
    (mkDependencies (rename_graph sh (graph self))
                    (k + _node_alias_count self)) fk
  = mkDependencies
      (rename_graph sh (graph (add_foreign_key pks self fk)))
      (k + _node_alias_count (add_foreign_key pks self fk)).
Proof.
  unfold add_foreign_key. cbn [graph _node_alias_count].
  destruct (negb (aliased (fk_props pks fk))); cbn [graph _node_alias_count].
  - f_equal.
    exact (add_edge_rename (Table (fk_referenced_table fk))
                           (Table (fk_referencing_table fk)) _ _).
  - f_equal; [|lia].
    change (Alias (k + _node_alias_count self))
      with (sh (Alias (_node_alias_count self))).
    change (Table (fk_referencing_table fk))
      with (sh (Table (fk_referencing_table fk))).
    change (Table (fk_referenced_table fk))
      with (sh (Table (fk_referenced_table fk))).
    now rewrite add_node_rename, !add_edge_rename.
Qed.

Lemma add_foreign_keys_rename (pks : list (string * list string))
      (fks : list foreign_key) (self : Dependencies) :
  fold_left (add_foreign_key pks) fks
    (mkDependencies (rename_graph sh (graph self))
                    (k + _node_alias_count self))
  = let d := fold_left (add_foreign_key pks) fks self in
    mkDependencies (rename_graph sh (graph d)) (k + _node_alias_count d).
Proof.
  revert self. induction fks as [|fk fks IH]; intros self; cbn.
  - reflexivity.
  - rewrite add_foreign_key_rename. apply IH.
Qed.

Lemma add_tables_rename (pks : list (string * list string)) (g : DiGraph) :
  fold_left (fun g npk => add_node (Table (fst npk)) (Some (snd npk)) g)
            pks (rename_graph sh g)
  = rename_graph sh
      (fold_left (fun g npk => add_node (Table (fst npk)) (Some (snd npk)) g)
                 pks g).
Proof.
  revert g. induction pks as [|[n pk] pks IH]; intros g; cbn.
  - reflexivity.
  - change (Table n) with (sh (Table n)) at 1.
    rewrite add_node_rename. apply IH.
Qed.
End load_twice.

(** What [load] leaves does not depend on the graph it finds, and
    depends on the alias counter it finds by a shift of the labels. *)
Lemma load_from_counter (c : introspection) (self : Dependencies) :
  let d := fst (load c new_dependencies) in
  fst (load c self)
  = mkDependencies
      (rename_graph (shift_alias (_node_alias_count self)) (graph d))
      (_node_alias_count self + _node_alias_count d).
Proof.
  destruct self as [g n]. unfold load, new_dependencies.
  cbn [graph _node_alias_count].
  destruct (load_pks c) as [pks|e]; cbn [fst graph _node_alias_count];
    [|f_equal; lia].
  pose proof (add_tables_rename n pks empty_graph) as EG.
  change (rename_graph (shift_alias n) empty_graph) with empty_graph in EG.
  set (G0 := fold_left _ pks empty_graph) in *.
  destruct (load_fks c) as [fks|e]; cbn [fst graph _node_alias_count];
    [|f_equal; [exact EG | lia]].
  set (d0 := mkDependencies G0 0).
  replace (mkDependencies G0 n)
    with (mkDependencies (rename_graph (shift_alias n) (graph d0))
                         (n + _node_alias_count d0))
    by (cbn; f_equal; [symmetry; exact EG | lia]).
  rewrite add_foreign_keys_rename. cbn zeta.
  destruct (is_directed_acyclic_graph _) as [[|]|];
    destruct (is_directed_acyclic_graph _) as [[|]|]; reflexivity.
Qed.

Lemma rename_graph_shift_shift (a b : nat) (g : DiGraph) :
  rename_graph (shift_alias a) (rename_graph (shift_alias b) g)
  = rename_graph (shift_alias (b + a)) g.
Proof.
  assert (E : forall n, shift_alias a (shift_alias b n)
                        = shift_alias (b + a) n).
  { intros [x|x]; cbn; [reflexivity | f_equal; lia]. }
  unfold rename_graph. cbn [node_data edge_data]. rewrite !map_map.
  f_equal; apply map_ext; intros [x y]; cbn; now rewrite ?E.
Qed.

Lemma alias_node_count_rename (a : nat) (g : DiGraph) :
  alias_node_count (rename_graph (shift_alias a) g) = alias_node_count g.
Proof.
  unfold alias_node_count, nodes, rename_graph. cbn [node_data].
  rewrite map_map. cbn [fst].
  induction (node_data g) as [|[[x|x] v] l IH]; cbn; auto.
Qed.

(** C3, as stated, fails: with one aliased foreign key the first [load]
    labels the alias node 0 and the second labels it 1, so the two graphs
    do not have the same nodes; the alias counter is not cleared. *)
Lemma load_twice_other_alias_label :
  let d1 := fst (load one_aliased_key new_dependencies) in
  let d2 := fst (load one_aliased_key d1) in
  nodes (graph d1) = [Table "`s`.`A`"; Table "`s`.`B`"; Alias 0]
  /\ nodes (graph d2) = [Table "`s`.`A`"; Table "`s`.`B`"; Alias 1]
  /\ nodes (graph d2) <> nodes (graph d1)
  /\ _node_alias_count d1 = 1
  /\ _node_alias_count d2 = 2.
Proof.
  vm_compute. repeat split. discriminate.
Qed.


(* ------------------------------------------------------------------ *)
(** ** Dicts *)
(* ------------------------------------------------------------------ *)

Section dict_facts.
Context {K V : Type}.
Variable eqb : K -> K -> bool.
Hypothesis eqb_eq : forall a b, eqb a b = true <-> a = b.

Lemma eqb_same (a : K) : eqb a a = true.
Proof. now apply eqb_eq. Qed.

Lemma eqb_other (a b : K) : a <> b -> eqb a b = false.
Proof.
  intros H. destruct (eqb a b) eqn:E; [|reflexivity].
  apply eqb_eq in E. contradiction.
Qed.

Lemma eqb_other' (a b : K) : a <> b -> eqb b a = false.
Proof. intros H. apply eqb_other. congruence. Qed.

Lemma dict_get_None (k : K) (d : list (K * V)) :
  dict_get eqb k d = None <-> ~ In k (map fst d).
Proof.
  induction d as [|[k' v] d IH]; cbn.
  - tauto.
  - destruct (eqb k k') eqn:E.
    + apply eqb_eq in E. subst. split; [discriminate | tauto].
    + rewrite IH. split; [|tauto]. intros H [H1|H1]; [|tauto].
      subst. rewrite eqb_same in E. discriminate.
Qed.

Lemma dict_get_Some_In (k : K) (v : V) (d : list (K * V)) :
  dict_get eqb k d = Some v -> In (k, v) d.
Proof.
  induction d as [|[k' v'] d IH]; cbn; [discriminate|].
  destruct (eqb k k') eqn:E.
  - apply eqb_eq in E. subst. intros [= ->]. now left.
  - intros H. right. auto.
Qed.

Lemma dict_get_In (k : K) (v : V) (d : list (K * V)) :
  NoDup (map fst d) -> In (k, v) d -> dict_get eqb k d = Some v.
Proof.
  induction d as [|[k' v'] d IH]; cbn; [tauto|].
  intros Hnd [H|H]; inversion Hnd as [|? ? Hni Hnd']; subst.
  - injection H as -> ->. now rewrite eqb_same.
  - destruct (eqb k k') eqn:E; [|auto].
    apply eqb_eq in E. subst. exfalso. apply Hni.
    change k' with (fst (k', v)). now apply in_map.
Qed.

Lemma dict_get_set_same (k : K) (v : V) (d : list (K * V)) :
  dict_get eqb k (dict_set eqb k v d) = Some v.
Proof.
  induction d as [|[k' v'] d IH]; cbn.
  - now rewrite eqb_same.
  - destruct (eqb k k') eqn:E; cbn; rewrite E; [reflexivity | exact IH].
Qed.

Lemma dict_get_set_other (k k' : K) (v : V) (d : list (K * V)) :
  k <> k' -> dict_get eqb k' (dict_set eqb k v d) = dict_get eqb k' d.
Proof.
  intros Hne. induction d as [|[k0 v0] d IH]; cbn.
  - rewrite eqb_other; auto.
  - destruct (eqb k k0) eqn:E; cbn.
    + apply eqb_eq in E. subst k0. rewrite (eqb_other' k k' Hne).
      reflexivity.
    + now rewrite IH.
Qed.

Lemma dict_keys_set (k : K) (v : V) (d : list (K * V)) :
  map fst (dict_set eqb k v d)
  = if dict_mem eqb k d then map fst d else map fst d ++ [k].
Proof.
  unfold dict_mem. induction d as [|[k' v'] d IH]; cbn; [reflexivity|].
  destruct (eqb k k') eqn:E; cbn; [reflexivity|].
  rewrite IH. now destruct (dict_get eqb k d).
Qed.

Lemma dict_set_absent (k : K) (v : V) (d : list (K * V)) :
  dict_get eqb k d = None -> dict_set eqb k v d = d ++ [(k, v)].
Proof.
  induction d as [|[k' v'] d IH]; cbn; [reflexivity|].
  destruct (eqb k k'); [discriminate|]. intros H. now rewrite IH.
Qed.

Lemma dict_mem_In (k : K) (d : list (K * V)) :
  dict_mem eqb k d = true <-> In k (map fst d).
Proof.
  unfold dict_mem. pose proof (dict_get_None k d) as H.
  destruct (dict_get eqb k d) as [v|] eqn:E.
  - split; [|reflexivity]. intros _.
    apply dict_get_Some_In in E. change k with (fst (k, v)).
    now apply in_map.
  - split; [discriminate|]. intros Hin. exfalso. now apply (proj1 H).
Qed.
End dict_facts.

Section dict_del_facts.
Context {K V : Type}.
Variable eqb : K -> K -> bool.
Hypothesis eqb_eq : forall a b, eqb a b = true <-> a = b.

Lemma dict_keys_del_incl (k : K) (d : list (K * V)) :
  incl (map fst (dict_del eqb k d)) (map fst d).
Proof.
  induction d as [|[k' v'] d IH]; cbn; [apply incl_refl|].
  destruct (eqb k k'); cbn.
  - apply incl_tl, incl_refl.
  - apply incl_cons; [now left | now apply incl_tl].
Qed.

Lemma dict_keys_del_NoDup (k : K) (d : list (K * V)) :
  NoDup (map fst d) -> NoDup (map fst (dict_del eqb k d)).
Proof.
  induction d as [|[k' v'] d IH]; cbn; [auto|].
  intros Hnd. inversion Hnd as [|? ? Hni Hnd']; subst.
  destruct (eqb k k'); cbn; [assumption|].
  constructor; [|auto]. intros Hin. apply Hni.
  now apply (dict_keys_del_incl k d).
Qed.

Lemma dict_keys_set_NoDup (k : K) (v : V) (d : list (K * V)) :
  NoDup (map fst d) -> NoDup (map fst (dict_set eqb k v d)).
Proof.
  intros Hnd. rewrite dict_keys_set.
  destruct (dict_mem eqb k d) eqn:E; [assumption|].
  assert (Hni : ~ In k (map fst d)).
  { intros Hin. apply (dict_mem_In eqb eqb_eq) in Hin. congruence. }
  clear E. induction (map fst d) as [|x l IH]; cbn.
  - constructor; [tauto | constructor].
  - inversion Hnd as [|? ? Hx Hl]; subst. constructor.
    + rewrite in_app_iff. cbn. intros [H|[H|[]]]; [tauto|].
      subst. apply Hni. now left.
    + apply IH; [assumption|]. intros H. apply Hni. now right.
Qed.

Lemma dict_get_del_same (k : K) (d : list (K * V)) :
  NoDup (map fst d) -> dict_get eqb k (dict_del eqb k d) = None.
Proof.
  induction d as [|[k' v'] d IH]; cbn; [reflexivity|].
  intros Hnd. inversion Hnd as [|? ? Hni Hnd']; subst.
  destruct (eqb k k') eqn:E; cbn.
  - apply eqb_eq in E. subst. now apply (dict_get_None eqb eqb_eq).
  - rewrite E. auto.
Qed.

Lemma dict_get_del_other (k k' : K) (d : list (K * V)) :
  k <> k' -> dict_get eqb k' (dict_del eqb k d) = dict_get eqb k' d.
Proof.
  intros Hne. induction d as [|[k0 v0] d IH]; cbn; [reflexivity|].
  destruct (eqb k k0) eqn:E; cbn.
  - apply eqb_eq in E. subst k0. now rewrite (eqb_other' eqb eqb_eq k k' Hne).
  - now rewrite IH.
Qed.
End dict_del_facts.

(* ------------------------------------------------------------------ *)
(** ** DiGraph: nodes and edges stay well formed *)
(* ------------------------------------------------------------------ *)

Lemma edge_eqb_eq (a b : edge) : edge_eqb a b = true <-> a = b.
Proof.
  destruct a as [a1 a2], b as [b1 b2]. unfold edge_eqb. cbn.
  rewrite andb_true_iff, !node_eqb_eq. split.
  - intros [-> ->]. reflexivity.
  - intros [= -> ->]. auto.
Qed.

Lemma node_mem_In (x : node) (l : list node) :
  node_mem x l = true <-> In x l.
Proof.
  unfold node_mem. rewrite existsb_exists. split.
  - intros (y & Hy & E). apply node_eqb_eq in E. now subst.
  - intros H. exists x. split; [assumption | apply node_eqb_refl].
Qed.

Lemma node_mem_false (x : node) (l : list node) :
  node_mem x l = false <-> ~ In x l.
Proof.
  rewrite <- node_mem_In. destruct (node_mem x l); intuition congruence.
Qed.

Lemma in_keys_set {K V : Type} (eqb : K -> K -> bool)
      (eqb_eq : forall a b, eqb a b = true <-> a = b)
      (k x : K) (v : V) (d : list (K * V)) :
  In x (map fst (dict_set eqb k v d)) <-> x = k \/ In x (map fst d).
Proof.
  rewrite dict_keys_set. destruct (dict_mem eqb k d) eqn:E.
  - apply (dict_mem_In eqb eqb_eq) in E. split; [tauto|].
    intros [->|H]; assumption.
  - rewrite in_app_iff. cbn. intuition congruence.
Qed.

Lemma edges_add_node (n : node) (pk : option (list string)) (g : DiGraph) :
  edges (add_node n pk g) = edges g.
Proof.
  unfold add_node. now destruct (dict_get node_eqb n (node_data g)), pk.
Qed.

Lemma in_nodes_add_node (x n : node) (pk : option (list string))
      (g : DiGraph) :
  In x (nodes (add_node n pk g)) <-> x = n \/ In x (nodes g).
Proof.
  unfold add_node, nodes.
  destruct (dict_get node_eqb n (node_data g)) as [a|] eqn:E.
  - destruct pk; cbn [node_data];
      rewrite ?(in_keys_set node_eqb node_eqb_eq); try tauto.
    split; [tauto|]. intros [->|H]; [|assumption].
    apply dict_get_Some_In in E; [|exact node_eqb_eq].
    change n with (fst (n, a)). now apply in_map.
  - destruct pk; cbn [node_data];
      now rewrite (in_keys_set node_eqb node_eqb_eq).
Qed.

Lemma NoDup_nodes_add_node (n : node) (pk : option (list string))
      (g : DiGraph) :
  NoDup (nodes g) -> NoDup (nodes (add_node n pk g)).
Proof.
  unfold add_node, nodes. intros H.
  destruct (dict_get node_eqb n (node_data g)), pk; cbn [node_data];
    try assumption; now apply (dict_keys_set_NoDup node_eqb node_eqb_eq).
Qed.

Lemma in_nodes_add_edge (x u v : node) (p : props) (g : DiGraph) :
  In x (nodes (add_edge u v p g)) <-> x = u \/ x = v \/ In x (nodes g).
Proof.
  unfold add_edge. change (nodes (mkDiGraph ?a ?b)) with (map fst a).
  fold (nodes (add_node v None (add_node u None g))).
  rewrite !in_nodes_add_node. tauto.
Qed.

Lemma in_edges_add_edge (e : edge) (u v : node) (p : props) (g : DiGraph) :
  In e (edges (add_edge u v p g)) <-> e = (u, v) \/ In e (edges g).
Proof.
  unfold add_edge, edges at 1. cbn [edge_data].
  rewrite (in_keys_set edge_eqb edge_eqb_eq).
  fold (edges (add_node v None (add_node u None g))).
  now rewrite !edges_add_node.
Qed.

Lemma well_formed_add_node (n : node) (pk : option (list string))
      (g : DiGraph) :
  well_formed (nodes g) (edges g) ->
  well_formed (nodes (add_node n pk g)) (edges (add_node n pk g)).
Proof.
  intros (Hn & He & Hends). rewrite edges_add_node.
  split; [now apply NoDup_nodes_add_node|]. split; [assumption|].
  intros u v H. rewrite !in_nodes_add_node.
  destruct (Hends u v H). tauto.
Qed.

Lemma well_formed_add_edge (u v : node) (p : props) (g : DiGraph) :
  well_formed (nodes g) (edges g) ->
  well_formed (nodes (add_edge u v p g)) (edges (add_edge u v p g)).
Proof.
  intros (Hn & He & Hends). split; [|split].
  - unfold add_edge. change (nodes (mkDiGraph ?a ?b)) with (map fst a).
    fold (nodes (add_node v None (add_node u None g))).
    now apply NoDup_nodes_add_node, NoDup_nodes_add_node.
  - unfold add_edge, edges at 1. cbn [edge_data].
    apply (dict_keys_set_NoDup edge_eqb edge_eqb_eq).
    fold (edges (add_node v None (add_node u None g))).
    now rewrite !edges_add_node.
  - intros a b H. apply in_edges_add_edge in H.
    rewrite !in_nodes_add_edge. destruct H as [[= -> ->]|H]; [tauto|].
    destruct (Hends a b H). tauto.
Qed.

Lemma well_formed_empty : well_formed (nodes empty_graph) (edges empty_graph).
Proof. repeat split; try constructor; contradiction. Qed.

Lemma well_formed_add_foreign_key (pks : list (string * list string))
      (self : Dependencies) (fk : foreign_key) :
  well_formed (nodes (graph self)) (edges (graph self)) ->
  let d := add_foreign_key pks self fk in
  well_formed (nodes (graph d)) (edges (graph d)).
Proof.
  intros H. unfold add_foreign_key.
  destruct (negb (aliased (fk_props pks fk))); cbn [graph].
  - now apply well_formed_add_edge.
  - now apply well_formed_add_edge, well_formed_add_edge,
      well_formed_add_node.
Qed.

(** Whatever its outcome, [load] leaves a well-formed graph. *)
Lemma well_formed_load (c : introspection) (self : Dependencies) :
  let d := fst (load c self) in
  well_formed (nodes (graph d)) (edges (graph d)).
Proof.
  unfold load.
  destruct (load_pks c) as [pks|e]; cbn [fst graph];
    [|exact well_formed_empty].
  assert (H1 : well_formed
                 (nodes (fold_left
                           (fun g npk => add_node (Table (fst npk))
                                                  (Some (snd npk)) g)
                           pks empty_graph))
                 (edges (fold_left
                           (fun g npk => add_node (Table (fst npk))
                                                  (Some (snd npk)) g)
                           pks empty_graph))).
  { generalize well_formed_empty. generalize empty_graph.
    induction pks as [|[n pk] pks IH]; intros g Hg; cbn; [assumption|].
    apply IH. now apply well_formed_add_node. }
  set (G0 := fold_left _ pks empty_graph) in *.
  destruct (load_fks c) as [fks|e]; cbn [fst graph]; [|exact H1].
  assert (H2 : forall d,
             well_formed (nodes (graph d)) (edges (graph d)) ->
             well_formed
               (nodes (graph (fold_left (add_foreign_key pks) fks d)))
               (edges (graph (fold_left (add_foreign_key pks) fks d)))).
  { induction fks as [|fk fks IH]; intros d Hd; cbn; [assumption|].
    apply IH. now apply well_formed_add_foreign_key. }
  specialize (H2 (mkDependencies G0 (_node_alias_count self)) H1).
  destruct (is_directed_acyclic_graph _) as [[|]|]; exact H2.
Qed.

(* ------------------------------------------------------------------ *)
(** ** Lists of nodes *)
(* ------------------------------------------------------------------ *)

Lemma index_le_length (x : node) (l : list node) :
  index x l <= List.length l.
Proof.
  induction l as [|y l IH]; cbn; [lia|].
  destruct (node_eqb x y); lia.
Qed.

Lemma index_lt_In (x : node) (l : list node) :
  index x l < List.length l <-> In x l.
Proof.
  induction l as [|y l IH]; cbn; [split; [lia | tauto]|].
  destruct (node_eqb x y) eqn:E.
  - apply node_eqb_eq in E. subst. split; [auto | lia].
  - apply node_eqb_neq in E. rewrite <- Nat.succ_lt_mono, IH.
    intuition congruence.
Qed.

Lemma index_app_l (x : node) (l l' : list node) :
  In x l -> index x (l ++ l') = index x l.
Proof.
  induction l as [|y l IH]; cbn; [tauto|].
  destruct (node_eqb x y) eqn:E; [reflexivity|].
  apply node_eqb_neq in E. intros [H|H]; [congruence|]. now rewrite IH.
Qed.

Lemma index_app_r (x : node) (l l' : list node) :
  ~ In x l -> index x (l ++ l') = List.length l + index x l'.
Proof.
  induction l as [|y l IH]; cbn; [reflexivity|].
  intros H. destruct (node_eqb x y) eqn:E.
  - apply node_eqb_eq in E. subst. tauto.
  - rewrite IH; tauto.
Qed.

(* ------------------------------------------------------------------ *)
(** ** networkx: successors and edges left *)
(* ------------------------------------------------------------------ *)

Lemma in_dec_edge (u v : node) (es : list edge) :
  {In (u, v) es} + {~ In (u, v) es}.
Proof.
  destruct (existsb (edge_eqb (u, v)) es) eqn:E.
  - left. apply existsb_exists in E. destruct E as (e & He & E).
    apply edge_eqb_eq in E. now subst.
  - right. intros H.
    assert (E' : existsb (edge_eqb (u, v)) es = true).
    { apply existsb_exists. exists (u, v). split; [assumption|].
      now apply edge_eqb_eq. }
    congruence.
Qed.

Lemma in_neighbors (es : list edge) (u v : node) :
  In v (neighbors es u) <-> In (u, v) es.
Proof.
  unfold neighbors. rewrite in_map_iff. split.
  - intros ([a b] & <- & H). apply filter_In in H. cbn in *.
    destruct H as [H E]. apply node_eqb_eq in E. now subst.
  - intros H. exists (u, v). split; [reflexivity|].
    apply filter_In. split; [assumption | apply node_eqb_refl].
Qed.

Lemma NoDup_neighbors (es : list edge) (u : node) :
  NoDup es -> NoDup (neighbors es u).
Proof.
  unfold neighbors. induction es as [|[a b] es IH]; cbn; [constructor|].
  intros Hnd. inversion Hnd as [|? ? Hni Hnd']; subst.
  destruct (node_eqb a u) eqn:E; cbn; [|auto].
  apply node_eqb_eq in E. subst. constructor; [|auto].
  intros H. apply Hni. now apply (in_neighbors es u b).
Qed.

Lemma in_predecessors (es : list edge) (u v : node) :
  In u (predecessors es v) <-> In (u, v) es.
Proof.
  unfold predecessors. rewrite in_map_iff. split.
  - intros ([a b] & <- & H). apply filter_In in H. cbn in *.
    destruct H as [H E]. apply node_eqb_eq in E. now subst.
  - intros H. exists (u, v). split; [reflexivity|].
    apply filter_In. split; [assumption | apply node_eqb_refl].
Qed.

Lemma remaining_zero (es : list edge) (P : list node) (v : node) :
  remaining es P v = 0 <-> forall u, In (u, v) es -> In u P.
Proof.
  unfold remaining. induction es as [|[a b] es IH]; cbn.
  - split; [contradiction | reflexivity].
  - destruct (node_eqb b v) eqn:Eb; cbn.
    + apply node_eqb_eq in Eb. subst b.
      destruct (node_mem a P) eqn:Ea; cbn.
      * apply node_mem_In in Ea. rewrite IH. split.
        -- intros H u [[= ->]|Hu]; auto.
        -- intros H u Hu. apply H. now right.
      * apply node_mem_false in Ea. split; [discriminate|].
        intros H. exfalso. apply Ea, H. now left.
    + apply node_eqb_neq in Eb. rewrite IH. split.
      * intros H u [[= -> ->]|Hu]; [congruence | auto].
      * intros H u Hu. apply H. now right.
Qed.

Lemma remaining_snoc_other (es : list edge) (P : list node) (n v : node) :
  ~ In (n, v) es -> remaining es (P ++ [n]) v = remaining es P v.
Proof.
  unfold remaining. induction es as [|[a b] es IH]; cbn; [reflexivity|].
  intros H.
  assert (Hes : ~ In (n, v) es) by tauto.
  assert (Hab : (a, b) <> (n, v)) by (intros E; apply H; now left).
  specialize (IH Hes).
  destruct (node_eqb b v) eqn:Eb; cbn; [|exact IH].
  apply node_eqb_eq in Eb. subst b.
  assert (Ea : node_mem a (P ++ [n]) = node_mem a P).
  { unfold node_mem. rewrite existsb_app. cbn.
    destruct (node_eqb a n) eqn:E; [|now rewrite !orb_false_r].
    apply node_eqb_eq in E. congruence. }
  rewrite Ea. destruct (node_mem a P); cbn; now rewrite IH.
Qed.

Lemma remaining_snoc_edge (es : list edge) (P : list node) (n v : node) :
  NoDup es -> ~ In n P -> In (n, v) es ->
  remaining es P v = S (remaining es (P ++ [n]) v).
Proof.
  unfold remaining. induction es as [|[a b] es IH]; cbn; [tauto|].
  intros Hnd Hn Hin. inversion Hnd as [|? ? Hni Hnd']; subst.
  destruct Hin as [[= -> ->]|Hin].
  - rewrite node_eqb_refl. cbn.
    pose proof (proj2 (node_mem_false n P) Hn) as E1. rewrite E1.
    assert (E2 : node_mem n (P ++ [n]) = true).
    { apply node_mem_In, in_or_app. right. now left. }
    rewrite E2. cbn. f_equal. symmetry.
    exact (remaining_snoc_other es P n v Hni).
  - specialize (IH Hnd' Hn Hin).
    assert (Hab : (a, b) <> (n, v)) by (intros E; apply Hni; now rewrite E).
    destruct (node_eqb b v) eqn:Eb; cbn; [|exact IH].
    apply node_eqb_eq in Eb. subst b.
    assert (Ea : node_mem a (P ++ [n]) = node_mem a P).
    { unfold node_mem. rewrite existsb_app. cbn.
      destruct (node_eqb a n) eqn:E; [|now rewrite !orb_false_r].
      apply node_eqb_eq in E. congruence. }
    rewrite Ea. destruct (node_mem a P); cbn; now rewrite IH.
Qed.

(* ------------------------------------------------------------------ *)
(** ** networkx: the topological sort *)
(* ------------------------------------------------------------------ *)

(** The inner loop on the in-degree map alone. *)
Lemma relax_spec (cs : list node) :
  forall (im : list (node * Z)) (z : list node),
    NoDup cs ->
    NoDup (map fst im) ->
    (forall c, In c cs -> exists d, dict_get node_eqb c im = Some d) ->
    exists im',
      relax cs im z
      = Return (im',
                z ++ filter (fun c => match dict_get node_eqb c im with
                                      | Some d => (d - 1 =? 0)%Z
                                      | None => false
                                      end) cs)
      /\ NoDup (map fst im')
      /\ forall v,
          dict_get node_eqb v im' =
          if node_mem v cs then
            match dict_get node_eqb v im with
            | Some d => if (d - 1 =? 0)%Z then None else Some (d - 1)%Z
            | None => None
            end
          else dict_get node_eqb v im.
Proof.
  induction cs as [|c cs IH]; intros im z Hcs Him Hkeys.
  - exists im. cbn. rewrite app_nil_r. auto.
  - inversion Hcs as [|? ? Hc Hcs']; subst.
    destruct (Hkeys c (or_introl eq_refl)) as [d Hd].
    cbn [relax filter]. rewrite Hd.
    assert (Hother : forall im1,
               (forall v, v <> c ->
                          dict_get node_eqb v im1 = dict_get node_eqb v im) ->
               forall c', In c' cs ->
                          dict_get node_eqb c' im1 = dict_get node_eqb c' im).
    { intros im1 H c' Hc'. apply H. intros ->. contradiction. }
    assert (Hmem : forall v, v <> c ->
                             node_mem v (c :: cs) = node_mem v cs).
    { intros v Hv. cbn. apply node_eqb_neq in Hv. now rewrite Hv. }
    destruct (d - 1 =? 0)%Z eqn:Ez.
    + set (im1 := dict_del node_eqb c im).
      assert (H1 : forall v, v <> c ->
                   dict_get node_eqb v im1 = dict_get node_eqb v im).
      { intros v Hv. apply (dict_get_del_other node_eqb node_eqb_eq).
        congruence. }
      destruct (IH im1 (z ++ [c]) Hcs'
                   (dict_keys_del_NoDup node_eqb c im Him)) as (im' & E & Hnd & Hget).
      { intros c' Hc'. rewrite (Hother im1 H1 c' Hc'). now apply Hkeys; right. }
      exists im'. split; [|split; [assumption|]].
      * rewrite E. rewrite <- app_assoc. cbn. do 4 f_equal.
        apply filter_ext_in. intros c' Hc'. now rewrite (Hother im1 H1 c' Hc').
      * intros v. rewrite Hget. destruct (node_eqb v c) eqn:Ev.
        -- apply node_eqb_eq in Ev. subst v.
           rewrite (proj2 (node_mem_false c cs) Hc).
           cbn. rewrite node_eqb_refl. cbn. rewrite Hd, Ez.
           apply (dict_get_del_same node_eqb node_eqb_eq). assumption.
        -- apply node_eqb_neq in Ev. rewrite (Hmem v Ev), (H1 v Ev).
           reflexivity.
    + set (im1 := dict_set node_eqb c (d - 1)%Z im).
      assert (H1 : forall v, v <> c ->
                   dict_get node_eqb v im1 = dict_get node_eqb v im).
      { intros v Hv. apply (dict_get_set_other node_eqb node_eqb_eq).
        congruence. }
      destruct (IH im1 z Hcs'
                   (dict_keys_set_NoDup node_eqb node_eqb_eq c (d - 1)%Z im Him))
        as (im' & E & Hnd & Hget).
      { intros c' Hc'. rewrite (Hother im1 H1 c' Hc'). now apply Hkeys; right. }
      exists im'. split; [|split; [assumption|]].
      * rewrite E. do 3 f_equal.
        apply filter_ext_in. intros c' Hc'. now rewrite (Hother im1 H1 c' Hc').
      * intros v. rewrite Hget. destruct (node_eqb v c) eqn:Ev.
        -- apply node_eqb_eq in Ev. subst v.
           rewrite (proj2 (node_mem_false c cs) Hc).
           cbn. rewrite node_eqb_refl. cbn. rewrite Hd, Ez.
           apply (dict_get_set_same node_eqb node_eqb_eq).
        -- apply node_eqb_neq in Ev. rewrite (Hmem v Ev), (H1 v Ev).
           reflexivity.
Qed.

Section kahn_facts.
Variables (ns : list node) (es : list edge).
Hypothesis Hwf : well_formed ns es.

(** One node of a generation: its children are gone through, and the
    children left without an edge into them join the new generation. *)
Lemma kahn_step (im : list (node * Z)) (P rest z : list node) (n : node) :
  kahn_inv ns es im P (n :: rest ++ z) ->
  exists im' new,
    relax (neighbors es n) im z = Return (im', z ++ new)
    /\ kahn_inv ns es im' (P ++ [n]) (rest ++ z ++ new).
Proof.
  intros (Hnd & Hincl & Hkeys & H3 & H4 & H5).
  destruct Hwf as (Hns & Hes & Hends).
  assert (HnP : ~ In n P).
  { apply NoDup_remove_2 in Hnd. intros H. apply Hnd, in_or_app. now left. }
  assert (Hn0 : remaining es P n = 0).
  { apply H3; [apply Hincl|]; apply in_or_app; right; now left. }
  assert (Hrem : forall c, In (n, c) es ->
                   remaining es P c = S (remaining es (P ++ [n]) c)).
  { intros c Hc. now apply remaining_snoc_edge. }
  assert (Hrem' : forall v, ~ In (n, v) es ->
                    remaining es (P ++ [n]) v = remaining es P v).
  { intros v Hv. now apply remaining_snoc_other. }
  assert (Hchild : forall c, In (n, c) es ->
            dict_get node_eqb c im
            = Some (Z.of_nat (S (remaining es (P ++ [n]) c)))).
  { intros c Hc. rewrite H4, (Hrem c Hc).
    destruct (Hends n c Hc) as [_ Hcn].
    now rewrite (proj2 (node_mem_In c ns) Hcn). }
  destruct (relax_spec (neighbors es n) im z
              (NoDup_neighbors es n Hes) Hkeys) as (im' & E & Hnd' & Hget).
  { intros c Hc. apply in_neighbors in Hc. eexists. now apply Hchild. }
  set (new := filter _ (neighbors es n)) in E.
  exists im', new. split; [exact E|].
  assert (Hnew : forall v, In v new <->
                           In (n, v) es /\ remaining es (P ++ [n]) v = 0).
  { intros v. unfold new. rewrite filter_In, in_neighbors. split.
    - intros [Hv Hd]. split; [assumption|]. rewrite (Hchild v Hv) in Hd.
      apply Z.eqb_eq in Hd. lia.
    - intros [Hv Hr]. split; [assumption|]. rewrite (Hchild v Hv), Hr.
      reflexivity. }
  assert (Happ : (P ++ [n]) ++ rest ++ z ++ new
                 = (P ++ n :: rest ++ z) ++ new).
  { rewrite <- !app_assoc. cbn. now rewrite <- app_assoc. }
  assert (Hfresh : forall v, In v new -> ~ In v (P ++ n :: rest ++ z)).
  { intros v Hv Hin. apply Hnew in Hv. destruct Hv as [Hv _].
    apply H3 in Hin; [|now apply (Hends n v)]. rewrite (Hrem v Hv) in Hin.
    discriminate. }
  unfold kahn_inv. rewrite Happ. repeat split.
  - apply NoDup_app; [assumption | |].
    + unfold new. apply NoDup_filter. now apply NoDup_neighbors.
    + intros a Ha Hb. now apply (Hfresh a).
  - apply incl_app; [assumption|]. intros v Hv. apply Hnew in Hv.
    now apply (Hends n v).
  - assumption.
  - intros Hin. apply in_app_or in Hin. destruct Hin as [Hin|Hin].
    + destruct (in_dec_edge n v es) as [He|He].
      * exfalso. apply H3 in Hin; [|assumption].
        rewrite (Hrem v He) in Hin. discriminate.
      * rewrite (Hrem' v He). now apply H3.
    + now apply Hnew.
  - intros Hr. apply in_or_app.
    destruct (in_dec_edge n v es) as [He|He].
    + right. apply Hnew. tauto.
    + left. apply H3; [assumption|]. now rewrite <- (Hrem' v He).
  - intros v. rewrite Hget.
    destruct (node_mem v (neighbors es n)) eqn:Ev.
    + apply node_mem_In, in_neighbors in Ev. rewrite (Hchild v Ev).
      destruct (Hends n v Ev) as [_ Hvn].
      rewrite (proj2 (node_mem_In v ns) Hvn). cbn [andb].
      destruct (remaining es (P ++ [n]) v) as [|r] eqn:Er.
      * reflexivity.
      * replace (Z.of_nat (S (S r)) - 1 =? 0)%Z with false
          by (symmetry; apply Z.eqb_neq; lia).
        cbn [Nat.eqb negb]. f_equal. lia.
    + apply node_mem_false in Ev. rewrite in_neighbors in Ev.
      rewrite (Hrem' v Ev). apply H4.
  - intros u v Hv Huv. apply in_app_or in Hv. destruct Hv as [Hv|[<-|[]]].
    + pose proof (H5 u v Hv Huv) as Hlt.
      assert (Hu : In u P).
      { apply index_lt_In. apply (proj2 (index_lt_In v P)) in Hv. lia. }
      now rewrite !index_app_l.
    + assert (Hu : In u P) by (apply (proj1 (remaining_zero es P n) Hn0 u Huv)).
      rewrite (index_app_l u P _ Hu), (index_app_r n P _ HnP).
      apply (proj2 (index_lt_In u P)) in Hu. lia.
Qed.

(** One generation. *)
Lemma generation_spec (this : list node) :
  forall (im : list (node * Z)) (z P : list node),
    kahn_inv ns es im P (this ++ z) ->
    exists im' z',
      generation ns es this im z = Return (im', z')
      /\ kahn_inv ns es im' (P ++ this) z'.
Proof.
  induction this as [|n rest IH]; intros im z P Hinv.
  - exists im, z. cbn. now rewrite app_nil_r.
  - cbn [generation].
    assert (Hn : node_mem n ns = true).
    { destruct Hinv as (_ & Hincl & _). apply node_mem_In, Hincl.
      apply in_or_app. right. now left. }
    rewrite Hn. cbn [negb].
    destruct (kahn_step im P rest z n Hinv) as (im1 & new & E & Hinv1).
    rewrite E.
    destruct (IH im1 (z ++ new) (P ++ [n]) Hinv1) as (im' & z' & E' & Hinv').
    exists im', z'. split; [exact E'|].
    rewrite <- app_assoc in Hinv'. exact Hinv'.
Qed.

Lemma kahn_inv_length (im : list (node * Z)) (P pend : list node) :
  kahn_inv ns es im P pend ->
  List.length P + List.length pend <= List.length ns.
Proof.
  intros (Hnd & Hincl & _). rewrite <- length_app.
  now apply NoDup_incl_length.
Qed.

(** The loop over the generations: it ends within the budget, either
    with every node sorted or short of nodes that all keep an edge into
    them. *)
Lemma generations_spec (fuel : nat) :
  forall (im : list (node * Z)) (P zero : list node),
    kahn_inv ns es im P zero ->
    List.length ns < fuel + List.length P ->
    exists r,
      generations fuel ns es im zero = Some r
      /\ ((exists gs, r = Return gs
                      /\ kahn_inv ns es [] (P ++ List.concat gs) [])
          \/ (r = Raise NetworkXUnfeasible
              /\ exists im' P', im' <> [] /\ kahn_inv ns es im' P' [])).
Proof.
  induction fuel as [|fuel IH]; intros im P zero Hinv Hfuel.
  - destruct zero as [|n zs].
    + cbn. eexists. split; [reflexivity|]. destruct im as [|kd im].
      * left. exists []. cbn. now rewrite app_nil_r.
      * right. split; [reflexivity|]. exists (kd :: im), P.
        split; [discriminate | assumption].
    + apply kahn_inv_length in Hinv. cbn in *. lia.
  - destruct zero as [|n zs].
    + cbn. eexists. split; [reflexivity|]. destruct im as [|kd im].
      * left. exists []. cbn. now rewrite app_nil_r.
      * right. split; [reflexivity|]. exists (kd :: im), P.
        split; [discriminate | assumption].
    + cbn [generations].
      assert (Hinv0 : kahn_inv ns es im P ((n :: zs) ++ [])).
      { now rewrite app_nil_r. }
      destruct (generation_spec (n :: zs) im [] P Hinv0)
        as (im' & z' & E & Hinv').
      rewrite E.
      destruct (IH im' (P ++ n :: zs) z' Hinv') as (r & Er & Hr).
      { rewrite length_app. cbn. lia. }
      rewrite Er. destruct Hr as [(gs & -> & Hgs)|(-> & Hun)].
      * eexists. split; [reflexivity|]. left. exists ((n :: zs) :: gs).
        split; [reflexivity|]. cbn [List.concat].
        now rewrite app_assoc.
      * eexists. split; [reflexivity|]. right. split; [reflexivity|].
        exact Hun.
Qed.

Lemma remaining_nil (v : node) :
  in_degree es v = Z.of_nat (remaining es [] v).
Proof.
  unfold in_degree, remaining, predecessors. rewrite length_map.
  do 2 f_equal. apply filter_ext. intros e. cbn. now rewrite andb_true_r.
Qed.

Lemma fold_dict_set_get (l : list (node * Z)) :
  forall (acc : list (node * Z)) (v : node),
    NoDup (map fst l) ->
    dict_get node_eqb v
      (fold_left (fun d kv => dict_set node_eqb (fst kv) (snd kv) d) l acc)
    = match dict_get node_eqb v l with
      | Some d => Some d
      | None => dict_get node_eqb v acc
      end.
Proof.
  induction l as [|[k d] l IH]; intros acc v Hnd; cbn; [reflexivity|].
  inversion Hnd as [|? ? Hk Hnd']; subst. rewrite (IH _ v Hnd').
  destruct (node_eqb v k) eqn:E.
  - apply node_eqb_eq in E. subst v.
    rewrite (proj2 (dict_get_None node_eqb node_eqb_eq k l) Hk).
    apply (dict_get_set_same node_eqb node_eqb_eq).
  - apply node_eqb_neq in E.
    rewrite (dict_get_set_other node_eqb node_eqb_eq k v d acc)
      by congruence.
    reflexivity.
Qed.

Lemma fold_dict_set_NoDup (l : list (node * Z)) :
  forall acc : list (node * Z),
    NoDup (map fst acc) ->
    NoDup (map fst (fold_left
                      (fun d kv => dict_set node_eqb (fst kv) (snd kv) d)
                      l acc)).
Proof.
  induction l as [|[k d] l IH]; intros acc Hnd; cbn; [assumption|].
  apply IH. now apply (dict_keys_set_NoDup node_eqb node_eqb_eq).
Qed.

Lemma positive_degrees_keys :
  map fst (filter (fun vd : node * Z => (0 <? snd vd)%Z)
                  (map (fun v => (v, in_degree es v)) ns))
  = filter (fun v => (0 <? in_degree es v)%Z) ns.
Proof.
  clear Hwf. induction ns as [|y l IH]; cbn [map filter fst snd];
    [reflexivity|].
  destruct (0 <? in_degree es y)%Z; cbn [map fst]; now rewrite IH.
Qed.

Lemma positive_degrees_get (v : node) :
  dict_get node_eqb v
    (filter (fun vd : node * Z => (0 <? snd vd)%Z)
            (map (fun v => (v, in_degree es v)) ns))
  = if node_mem v ns && (0 <? in_degree es v)%Z
    then Some (in_degree es v) else None.
Proof.
  clear Hwf.
  induction ns as [|y l IH];
    cbn [map filter fst snd node_mem existsb dict_get]; [reflexivity|].
  fold (node_mem v l).
  destruct (node_eqb v y) eqn:E; cbn [orb andb].
  - apply node_eqb_eq in E. subst y.
    destruct (0 <? in_degree es v)%Z eqn:Ed;
      cbn [dict_get fst snd andb].
    + now rewrite node_eqb_refl.
    + rewrite IH. now rewrite andb_false_r.
  - destruct (0 <? in_degree es y)%Z; cbn [dict_get fst snd];
      rewrite ?E; exact IH.
Qed.

(** The state the sort starts from. *)
Lemma kahn_inv_initial :
  kahn_inv ns es (initial_indegree_map ns es) []
           (initial_zero_indegree ns es).
Proof.
  destruct Hwf as (Hns & Hes & Hends).
  unfold kahn_inv, initial_indegree_map, initial_zero_indegree.
  cbn [app]. repeat split.
  - now apply NoDup_filter.
  - apply incl_filter.
  - apply fold_dict_set_NoDup. constructor.
  - intros Hin. apply filter_In in Hin. destruct Hin as [_ Hd].
    rewrite remaining_nil in Hd. apply Z.eqb_eq in Hd. lia.
  - intros Hr. apply filter_In. split; [assumption|].
    rewrite remaining_nil, Hr. reflexivity.
  - intros v. rewrite fold_dict_set_get.
    + rewrite positive_degrees_get, remaining_nil. cbn [dict_get].
      destruct (node_mem v ns); cbn [andb]; [|reflexivity].
      destruct (remaining es [] v); reflexivity.
    + rewrite positive_degrees_keys. now apply NoDup_filter.
  - intros u v [].
Qed.

Lemma remaining_positive (P : list node) (v : node) :
  remaining es P v <> 0 -> exists u, In (u, v) es /\ ~ In u P.
Proof.
  unfold remaining. intros H.
  assert (Hin : exists e, In e (filter
                   (fun e => node_eqb (snd e) v
                             && negb (node_mem (fst e) P)) es)).
  { destruct (filter (fun e => node_eqb (snd e) v
                                && negb (node_mem (fst e) P)) es)
      as [|e l]; [contradiction|].
    exists e. now left. }
  destruct Hin as ([a b] & Hin).
  apply filter_In in Hin. destruct Hin as [Hin Hc].
  apply andb_true_iff in Hc. cbn in Hc. destruct Hc as [Hb Ha].
  apply node_eqb_eq in Hb. subst b. exists a. split; [assumption|].
  apply node_mem_false. now apply negb_true_iff.
Qed.

Lemma least_rank (rank : node -> nat) (l : list node) :
  l <> [] -> exists v, In v l /\ forall w, In w l -> rank v <= rank w.
Proof.
  induction l as [|x l IH]; [congruence|]. intros _.
  destruct l as [|y l].
  - exists x. split; [now left|]. intros w [<-|[]]. lia.
  - destruct IH as (v & Hv & Hmin); [discriminate|].
    destruct (Nat.le_gt_cases (rank x) (rank v)) as [Hle|Hgt].
    + exists x. split; [now left|]. intros w [<-|Hw]; [lia|].
      specialize (Hmin w Hw). lia.
    + exists v. split; [now right|]. intros w [<-|Hw]; [lia|].
      now apply Hmin.
Qed.

(** When the sort stops short, no ranking exists that every edge
    climbs. *)
Lemma kahn_stuck_unranked (im : list (node * Z)) (P : list node)
      (rank : node -> nat) :
  im <> [] -> kahn_inv ns es im P [] -> ~ ranked es rank.
Proof.
  intros Him (Hnd & Hincl & Hkeys & H3 & H4 & H5) Hrank.
  destruct Hwf as (Hns & Hes & Hends).
  rewrite app_nil_r in *.
  set (S := filter (fun v => negb (node_mem v P)) ns).
  assert (HS : forall v, In v S <-> In v ns /\ ~ In v P).
  { intros v. unfold S. rewrite filter_In, negb_true_iff, node_mem_false.
    tauto. }
  assert (Hne : S <> []).
  { destruct im as [|[k d] im]; [congruence|].
    pose proof (H4 k) as Hk. cbn in Hk. rewrite node_eqb_refl in Hk.
    destruct (node_mem k ns) eqn:Ek; [|discriminate].
    destruct (remaining es P k =? 0)%nat eqn:Er; [discriminate|].
    apply node_mem_In in Ek. apply Nat.eqb_neq in Er.
    assert (Hk' : In k S).
    { apply HS. split; [assumption|]. intros HP. apply Er.
      now apply H3. }
    intros E. rewrite E in Hk'. contradiction. }
  destruct (least_rank rank S Hne) as (v & Hv & Hmin).
  apply HS in Hv. destruct Hv as [Hvn HvP].
  assert (Hr : remaining es P v <> 0).
  { intros Hr. apply HvP. now apply H3. }
  destruct (remaining_positive P v Hr) as (u & Huv & HuP).
  assert (Hu : In u S).
  { apply HS. split; [|assumption]. now apply (Hends u v). }
  specialize (Hmin u Hu). specialize (Hrank u v Huv). lia.
Qed.

(** The topological sort: either it returns the nodes, each once, in an
    order in which every edge goes forward, or it raises
    [NetworkXUnfeasible] and the edges admit no ranking. *)
Lemma topological_sort_spec :
  (exists l,
      topological_sort ns es = Return l
      /\ NoDup l
      /\ (forall v, In v l <-> In v ns)
      /\ (forall u v, In (u, v) es -> index u l < index v l))
  \/ (topological_sort ns es = Raise NetworkXUnfeasible
      /\ forall rank, ~ ranked es rank).
Proof.
  unfold topological_sort.
  destruct (generations_spec (S (List.length ns))
              (initial_indegree_map ns es) []
              (initial_zero_indegree ns es) kahn_inv_initial)
    as (r & -> & [(gs & -> & Hinv)|(-> & im & P & Him & Hinv)]).
  - cbn. lia.
  - left. exists (List.concat gs). split; [reflexivity|].
    cbn [app] in Hinv.
    destruct Hinv as (Hnd & Hincl & _ & H3 & H4 & H5).
    destruct Hwf as (Hns & Hes & Hends).
    rewrite app_nil_r in *.
    assert (Hall : forall v, In v ns -> In v (List.concat gs)).
    { intros v Hv. apply H3; [assumption|]. specialize (H4 v).
      cbn in H4. rewrite (proj2 (node_mem_In v ns) Hv) in H4. cbn in H4.
      destruct (remaining es (List.concat gs) v); [reflexivity|].
      discriminate. }
    split; [assumption|]. split.
    + intros v. split; [apply Hincl | apply Hall].
    + intros u v Huv. apply H5; [|assumption].
      apply Hall. now apply (Hends u v).
  - right. split; [reflexivity|]. intros rank.
    now apply (kahn_stuck_unranked im P rank).
Qed.
End kahn_facts.

(* ------------------------------------------------------------------ *)
(** ** networkx: descendants and ancestors *)
(* ------------------------------------------------------------------ *)

Lemma reachable_snoc (es : list edge) (u v w : node) :
  reachable es u v -> In (v, w) es -> reachable es u w.
Proof.
  induction 1 as [a b Hab|a b c Hab Hbc IH]; intros Hw.
  - eapply reachable_step; [eassumption|]. now apply reachable_edge.
  - eapply reachable_step; [eassumption|]. now apply IH.
Qed.

Lemma reachable_trans (es : list edge) (u v w : node) :
  reachable es u v -> reachable es v w -> reachable es u w.
Proof.
  induction 1 as [a b Hab|a b c Hab Hbc IH]; intros Hw.
  - eapply reachable_step; eassumption.
  - eapply reachable_step; [eassumption|]. now apply IH.
Qed.

Lemma visit_children_spec (cs : list node) :
  forall visited queue : list node,
    exists new,
      visit_children cs visited queue = (visited ++ new, queue ++ new)
      /\ NoDup new
      /\ forall v, In v new <-> In v cs /\ ~ In v visited.
Proof.
  induction cs as [|c cs IH]; intros visited queue.
  - exists []. cbn. rewrite !app_nil_r. repeat split; try constructor.
    + contradiction.
    + contradiction.
    + intros [[] _].
  - cbn [visit_children]. destruct (node_mem c visited) eqn:Ec.
    + apply node_mem_In in Ec.
      destruct (IH visited queue) as (new & E & Hnd & Hin).
      exists new. split; [exact E|]. split; [exact Hnd|].
      intros v. rewrite Hin. cbn. split; [tauto|].
      intros [[<-|H] Hv]; tauto.
    + apply node_mem_false in Ec.
      destruct (IH (visited ++ [c]) (queue ++ [c])) as (new & E & Hnd & Hin).
      exists (c :: new). rewrite E, <- !app_assoc. cbn [app].
      split; [reflexivity|]. split.
      * constructor; [|exact Hnd]. intros H. apply Hin in H.
        destruct H as [_ H]. apply H, in_or_app. right. now left.
      * intros v. cbn [In]. rewrite Hin, in_app_iff. cbn [In].
        destruct (node_eqb v c) eqn:Ev.
        -- apply node_eqb_eq in Ev. subst v. tauto.
        -- apply node_eqb_neq in Ev. intuition congruence.
Qed.

Section bfs_facts.
Variables (ns : list node) (es : list edge) (source : node).
Hypothesis Hends : forall u v, In (u, v) es -> In v ns.

Lemma bfs_inv_length (processed queue : list node) :
  bfs_inv ns es source processed queue ->
  List.length processed + List.length queue <= List.length ns.
Proof.
  intros (Hnd & Hincl & _). rewrite <- length_app.
  now apply NoDup_incl_length.
Qed.

Lemma bfs_inv_step (processed queue : list node) (parent : node) :
  bfs_inv ns es source processed (parent :: queue) ->
  forall new,
    NoDup new ->
    (forall v, In v new <->
               In v (neighbors es parent)
               /\ ~ In v (processed ++ parent :: queue)) ->
    bfs_inv ns es source (processed ++ [parent]) (queue ++ new).
Proof.
  intros (Hnd & Hincl & Hreach & Hsrc & Hclosed) new Hnew Hin.
  assert (Happ : (processed ++ [parent]) ++ queue ++ new
                 = (processed ++ parent :: queue) ++ new).
  { rewrite <- !app_assoc. reflexivity. }
  unfold bfs_inv. rewrite Happ. repeat split.
  - apply NoDup_app; [assumption | assumption|].
    intros a Ha Hb. apply Hin in Hb. tauto.
  - apply incl_app; [assumption|]. intros v Hv. apply Hin in Hv.
    destruct Hv as [Hv _]. apply in_neighbors in Hv.
    now apply (Hends parent v).
  - intros v Hv. apply in_app_or in Hv. destruct Hv as [Hv|Hv]; [auto|].
    apply Hin in Hv. destruct Hv as [Hv _]. apply in_neighbors in Hv.
    right. destruct (Hreach parent) as [->|Hp].
    + apply in_or_app. right. now left.
    + now apply reachable_edge.
    + now apply (reachable_snoc es source parent v).
  - apply in_or_app. now left.
  - intros u v Hu Huv. apply in_app_or in Hu.
    destruct Hu as [Hu|[<-|[]]].
    + apply in_or_app. left. now apply (Hclosed u v).
    + destruct (node_mem v (processed ++ parent :: queue)) eqn:Ev.
      * apply node_mem_In in Ev. apply in_or_app. now left.
      * apply node_mem_false in Ev. apply in_or_app. right.
        apply Hin. split; [now apply in_neighbors | assumption].
Qed.

(** The search ends within the budget with exactly the source and the
    nodes that can be reached from it. *)
Lemma bfs_spec (fuel : nat) :
  forall processed queue : list node,
    bfs_inv ns es source processed queue ->
    List.length ns < fuel + List.length processed ->
    exists more,
      bfs fuel es (processed ++ queue) queue = (processed ++ queue) ++ more
      /\ NoDup ((processed ++ queue) ++ more)
      /\ forall v, In v ((processed ++ queue) ++ more) <->
                   v = source \/ reachable es source v.
Proof.
  assert (Hdone : forall processed,
             bfs_inv ns es source processed [] ->
             NoDup ((processed ++ []) ++ [])
             /\ forall v, In v ((processed ++ []) ++ []) <->
                          v = source \/ reachable es source v).
  { intros processed (Hnd & Hincl & Hreach & Hsrc & Hclosed).
    rewrite !app_nil_r in *. split; [assumption|].
    intros v. split; [apply Hreach|].
    assert (Hall : forall a b, reachable es a b ->
                               In a processed -> In b processed).
    { induction 1 as [a b Hab|a b c Hab Hbc IH]; intros Ha.
      - now apply (Hclosed a b).
      - apply IH. now apply (Hclosed a b). }
    intros [->|Hv]; [assumption|]. now apply (Hall source v). }
  induction fuel as [|fuel IH]; intros processed queue Hinv Hfuel.
  - destruct queue as [|parent queue].
    + exists []. cbn [bfs]. split; [now rewrite !app_nil_r|].
      now apply Hdone.
    + apply bfs_inv_length in Hinv. cbn in *. lia.
  - destruct queue as [|parent queue].
    + exists []. cbn [bfs]. split; [now rewrite !app_nil_r|].
      now apply Hdone.
    + cbn [bfs].
      destruct (visit_children_spec (neighbors es parent)
                  (processed ++ parent :: queue) queue)
        as (new & E & Hnew & Hin).
      rewrite E.
      pose proof (bfs_inv_step processed queue parent Hinv new Hnew Hin)
        as Hinv'.
      assert (Happ : (processed ++ parent :: queue) ++ new
                     = (processed ++ [parent]) ++ queue ++ new).
      { rewrite <- !app_assoc. reflexivity. }
      destruct (IH (processed ++ [parent]) (queue ++ new) Hinv')
        as (more & Eb & Hnd & Hall).
      { rewrite length_app. cbn. lia. }
      exists (new ++ more). rewrite Happ, Eb.
      rewrite <- Happ in *. rewrite <- !app_assoc in *.
      repeat split; try assumption; apply Hall.
Qed.
End bfs_facts.

Lemma nx_descendants_spec (ns : list node) (es : list edge) (source : node) :
  (forall u v, In (u, v) es -> In v ns) ->
  In source ns ->
  exists l,
    nx_descendants ns es source = Return l
    /\ NoDup l
    /\ forall v, In v l <-> reachable es source v /\ v <> source.
Proof.
  intros Hends Hsrc. unfold nx_descendants.
  rewrite (proj2 (node_mem_In source ns) Hsrc). cbn [negb].
  assert (Hinv : bfs_inv ns es source [] [source]).
  { unfold bfs_inv. cbn [app]. repeat split.
    - constructor; [intros [] | constructor].
    - intros v [<-|[]]. assumption.
    - intros v [<-|[]]. now left.
    - now left.
    - intros u v []. }
  destruct (bfs_spec ns es source Hends (S (List.length ns)) [] [source] Hinv)
    as (more & E & Hnd & Hall).
  { cbn. lia. }
  cbn [app] in *. rewrite E. cbn [tl]. exists more.
  split; [reflexivity|]. inversion Hnd as [|? ? Hni Hnd']; subst.
  split; [assumption|]. intros v. split.
  - intros Hv. assert (Hne : v <> source) by (intros ->; contradiction).
    split; [|assumption].
    destruct (proj1 (Hall v) (or_intror Hv)) as [->|H]; [congruence|].
    assumption.
  - intros [Hv Hne].
    destruct (proj2 (Hall v) (or_intror Hv)) as [<-|H]; [congruence|].
    assumption.
Qed.

Lemma in_reverse_edges (es : list edge) (u v : node) :
  In (u, v) (reverse_edges es) <-> In (v, u) es.
Proof.
  unfold reverse_edges. rewrite in_map_iff. split.
  - intros ([a b] & [= <- <-] & H). assumption.
  - intros H. exists (v, u). auto.
Qed.

Lemma reachable_reverse (es : list edge) (u v : node) :
  reachable (reverse_edges es) u v <-> reachable es v u.
Proof.
  assert (H : forall es' a b,
             (forall x y, In (x, y) es' -> In (y, x) es) ->
             reachable es' a b -> reachable es b a).
  { intros es' a b Hes. induction 1 as [a b Hab|a b c Hab Hbc IH].
    - apply reachable_edge. now apply Hes.
    - apply (reachable_snoc es c b a IH). now apply Hes. }
  split.
  - apply H. intros x y Hxy. now apply in_reverse_edges.
  - intros Hr.
    assert (H' : forall a b,
               reachable es a b -> reachable (reverse_edges es) b a).
    { induction 1 as [a b Hab|a b c Hab Hbc IH].
      - apply reachable_edge. now apply in_reverse_edges.
      - apply (reachable_snoc (reverse_edges es) c b a IH).
        now apply in_reverse_edges. }
    now apply H'.
Qed.

Lemma ranked_reachable (es : list edge) (rank : node -> nat) (u v : node) :
  ranked es rank -> reachable es u v -> rank u < rank v.
Proof.
  intros Hr. induction 1 as [a b Hab|a b c Hab Hbc IH].
  - now apply Hr.
  - specialize (Hr a b Hab). lia.
Qed.

Lemma reachable_in_nodes (ns : list node) (es : list edge) (u v : node) :
  well_formed ns es -> reachable es u v -> In u ns /\ In v ns.
Proof.
  intros (_ & _ & Hends). induction 1 as [a b Hab|a b c Hab Hbc IH].
  - now apply Hends.
  - destruct (Hends a b Hab). tauto.
Qed.

Lemma in_subgraph_nodes (ns keep : list node) (v : node) :
  In v (subgraph_nodes ns keep) <-> In v ns /\ In v keep.
Proof.
  unfold subgraph_nodes. now rewrite filter_In, node_mem_In.
Qed.

Lemma in_subgraph_edges (es : list edge) (keep : list node) (u v : node) :
  In (u, v) (subgraph_edges es keep)
  <-> In (u, v) es /\ In u keep /\ In v keep.
Proof.
  unfold subgraph_edges.
  rewrite filter_In, andb_true_iff, !node_mem_In. cbn. tauto.
Qed.

Lemma well_formed_subgraph (ns keep : list node) (es : list edge) :
  well_formed ns es ->
  well_formed (subgraph_nodes ns keep) (subgraph_edges es keep).
Proof.
  intros (Hns & Hes & Hends). split; [|split].
  - now apply NoDup_filter.
  - now apply NoDup_filter.
  - intros u v H. apply in_subgraph_edges in H.
    destruct H as (H & Hu & Hv). destruct (Hends u v H).
    rewrite !in_subgraph_nodes. tauto.
Qed.

(** The sort of an induced subgraph of a graph that has a ranking. *)
Lemma topological_sort_subgraph (ns keep : list node) (es : list edge)
      (rank : node -> nat) :
  well_formed ns es ->
  ranked es rank ->
  exists l,
    topological_sort (subgraph_nodes ns keep) (subgraph_edges es keep)
    = Return l
    /\ NoDup l
    /\ (forall v, In v l <-> In v ns /\ In v keep)
    /\ (forall u v, In (u, v) es -> In u keep -> In v keep ->
                    index u l < index v l).
Proof.
  intros Hwf Hrank.
  destruct (topological_sort_spec _ _ (well_formed_subgraph ns keep es Hwf))
    as [(l & E & Hnd & Hin & Hord)|(_ & Hno)].
  - exists l. split; [exact E|]. split; [exact Hnd|]. split.
    + intros v. rewrite Hin. apply in_subgraph_nodes.
    + intros u v Huv Hu Hv. apply Hord. apply in_subgraph_edges. tauto.
  - exfalso. apply (Hno rank). intros u v H.
    apply in_subgraph_edges in H. now apply Hrank.
Qed.

(** Along a path that stays in [keep], the sort goes forward. *)
Lemma sorted_along_paths (es : list edge) (keep l : list node) :
  (forall u v, In (u, v) es -> In u keep -> In v keep ->
               index u l < index v l) ->
  (forall u w v, In u keep -> In v keep -> In (u, w) es ->
                 reachable es w v -> In w keep) ->
  forall u v, reachable es u v -> In u keep -> In v keep ->
              index u l < index v l.
Proof.
  intros Hord Hconvex u v Hr.
  induction Hr as [a b Hab|a b c Hab Hbc IH]; intros Ha Hc.
  - now apply Hord.
  - assert (Hb : In b keep) by (now apply (Hconvex a b c)).
    specialize (Hord a b Hab Ha Hb). specialize (IH Hb Hc). lia.
Qed.

Lemma index_rev (x : node) (l : list node) :
  NoDup l -> In x l -> index x (rev l) + index x l + 1 = List.length l.
Proof.
  induction l as [|y l IH]; [contradiction|].
  intros Hnd Hx. inversion Hnd as [|? ? Hy Hnd']; subst.
  cbn [rev index List.length]. destruct (node_eqb x y) eqn:E.
  - apply node_eqb_eq in E. subst y.
    rewrite index_app_r by (now rewrite <- in_rev).
    rewrite length_rev. cbn. rewrite node_eqb_refl. lia.
  - apply node_eqb_neq in E. destruct Hx as [Hx|Hx]; [congruence|].
    rewrite index_app_l by (now rewrite <- in_rev).
    specialize (IH Hnd' Hx). lia.
Qed.

(* ------------------------------------------------------------------ *)
(** ** Dependencies: descendants and ancestors *)
(* ------------------------------------------------------------------ *)

(** A graph that [nx.is_directed_acyclic_graph] accepts has a ranking. *)
Lemma sorted_graph_ranked (ns : list node) (es : list edge)
      (l0 : list node) :
  well_formed ns es ->
  topological_sort ns es = Return l0 ->
  ranked es (fun v => index v l0).
Proof.
  intros Hwf E.
  destruct (topological_sort_spec ns es Hwf)
    as [(l & E' & _ & _ & Hord)|(E' & _)]; [|congruence].
  rewrite E in E'. injection E' as <-. exact Hord.
Qed.

Section sorted_graph.
Variables (self : Dependencies) (l0 : list node) (t : node).
Let ns := nodes (graph self).
Let es := edges (graph self).
Hypothesis Hwf : well_formed ns es.
Hypothesis Hsorted : topological_sort ns es = Return l0.
Hypothesis Ht : In t ns.

Lemma no_cycle (u : node) : ~ reachable es u u.
Proof.
  intros H.
  pose proof (ranked_reachable es _ u u
                (sorted_graph_ranked ns es l0 Hwf Hsorted) H). lia.
Qed.

Lemma descendants_sorted :
  exists l,
    descendants self t = Return (t :: l)
    /\ NoDup (t :: l)
    /\ (forall v, In v l <-> reachable es t v)
    /\ (forall u v, In u (t :: l) -> In v (t :: l) ->
                    reachable es u v -> precedes (t :: l) u v).
Proof.
  pose proof Hwf as (Hns & Hes & Hends).
  destruct (nx_descendants_spec ns es t) as (keep & Ek & _ & Hkeep);
    [intros u v H; now apply (Hends u v) | assumption |].
  assert (Hkeep' : forall v, In v keep <-> reachable es t v).
  { intros v. rewrite Hkeep. split; [tauto|]. intros H.
    split; [assumption|]. intros ->. now apply (no_cycle t). }
  destruct (topological_sort_subgraph ns keep es _ Hwf
              (sorted_graph_ranked ns es l0 Hwf Hsorted))
    as (l & El & Hnd & Hin & Hord).
  assert (Hl : forall v, In v l <-> reachable es t v).
  { intros v. rewrite Hin, Hkeep'. split; [tauto|]. intros H.
    split; [|assumption]. now apply (reachable_in_nodes ns es t v). }
  assert (Htl : ~ In t l).
  { intros H. apply Hl in H. now apply (no_cycle t). }
  exists l. unfold descendants. fold ns es. rewrite Ek, El.
  split; [reflexivity|]. split; [now constructor|]. split; [exact Hl|].
  assert (Hpaths : forall u v, reachable es u v -> In u keep -> In v keep ->
                               index u l < index v l).
  { apply sorted_along_paths; [exact Hord|].
    intros u w v Hu _ Huw _. apply Hkeep'. apply Hkeep' in Hu.
    now apply (reachable_snoc es t u w). }
  intros u v Hu Hv Hr. unfold precedes.
  split; [assumption|]. split; [assumption|].
  destruct Hu as [<-|Hu], Hv as [<-|Hv].
  - exfalso. now apply (no_cycle t).
  - cbn [index]. rewrite node_eqb_refl.
    destruct (node_eqb v t) eqn:E; [|lia].
    apply node_eqb_eq in E. subst v. contradiction.
  - exfalso. apply Hl in Hu. apply (no_cycle t).
    now apply (reachable_trans es t u t).
  - cbn [index].
    destruct (node_eqb u t) eqn:Eu;
      [apply node_eqb_eq in Eu; subst u; contradiction|].
    destruct (node_eqb v t) eqn:Ev;
      [apply node_eqb_eq in Ev; subst v; contradiction|].
    apply -> Nat.succ_lt_mono.
    apply Hpaths; [assumption | |]; apply Hkeep', Hl; assumption.
Qed.

Lemma ancestors_sorted :
  exists l,
    ancestors self t = Return (t :: l)
    /\ NoDup (t :: l)
    /\ (forall v, In v l <-> reachable es v t)
    /\ (forall u v, In u (t :: l) -> In v (t :: l) ->
                    reachable es u v -> precedes (t :: l) v u).
Proof.
  pose proof Hwf as (Hns & Hes & Hends).
  destruct (nx_descendants_spec ns (reverse_edges es) t)
    as (keep & Ek & _ & Hkeep);
    [intros u v H; apply (proj1 (in_reverse_edges es u v)) in H;
     now apply (Hends v u)
    | assumption |].
  assert (Hkeep' : forall v, In v keep <-> reachable es v t).
  { intros v. rewrite Hkeep, reachable_reverse. split; [tauto|]. intros H.
    split; [assumption|]. intros ->. now apply (no_cycle t). }
  destruct (topological_sort_subgraph ns keep es _ Hwf
              (sorted_graph_ranked ns es l0 Hwf Hsorted))
    as (l & El & Hnd & Hin & Hord).
  assert (Hl : forall v, In v l <-> reachable es v t).
  { intros v. rewrite Hin, Hkeep'. split; [tauto|]. intros H.
    split; [|assumption]. now apply (reachable_in_nodes ns es v t). }
  assert (Hrl : forall v, In v (rev l) <-> reachable es v t).
  { intros v. now rewrite <- in_rev. }
  assert (Htl : ~ In t (rev l)).
  { intros H. apply Hrl in H. now apply (no_cycle t). }
  exists (rev l). unfold ancestors, nx_ancestors. fold ns es.
  rewrite Ek, El.
  split; [reflexivity|].
  split; [constructor; [assumption | now apply NoDup_rev]|].
  split; [exact Hrl|].
  assert (Hpaths : forall u v, reachable es u v -> In u keep -> In v keep ->
                               index u l < index v l).
  { apply sorted_along_paths; [exact Hord|].
    intros u w v _ Hv _ Hwv. apply Hkeep'. apply Hkeep' in Hv.
    now apply (reachable_trans es w v t). }
  intros u v Hu Hv Hr. unfold precedes.
  split; [assumption|]. split; [assumption|].
  destruct Hu as [<-|Hu], Hv as [<-|Hv].
  - exfalso. now apply (no_cycle t).
  - exfalso. apply Hrl in Hv. apply (no_cycle t).
    now apply (reachable_trans es t v t).
  - cbn [index]. rewrite node_eqb_refl.
    destruct (node_eqb u t) eqn:E; [|lia].
    apply node_eqb_eq in E. subst u. contradiction.
  - cbn [index].
    destruct (node_eqb u t) eqn:Eu;
      [apply node_eqb_eq in Eu; subst u; contradiction|].
    destruct (node_eqb v t) eqn:Ev;
      [apply node_eqb_eq in Ev; subst v; contradiction|].
    apply -> Nat.succ_lt_mono.
    apply (proj2 (in_rev l u)) in Hu. apply (proj2 (in_rev l v)) in Hv.
    pose proof (index_rev u l Hnd Hu) as Iu.
    pose proof (index_rev v l Hnd Hv) as Iv.
    assert (Hlt : index u l < index v l).
    { apply Hpaths; [assumption | |]; apply Hkeep', Hl; assumption. }
    lia.
Qed.
End sorted_graph.

(** A [load] that returns has sorted its graph. *)
Lemma load_ok_sorted (c : introspection) (self0 : Dependencies) :
  snd (load c self0) = Return tt ->
  exists l0,
    topological_sort (nodes (graph (fst (load c self0))))
                     (edges (graph (fst (load c self0)))) = Return l0.
Proof.
  unfold load.
  destruct (load_pks c) as [pks|e]; cbn [fst snd]; [|discriminate].
  destruct (load_fks c) as [fks|e]; cbn [fst snd]; [|discriminate].
  destruct (is_directed_acyclic_graph _) as [[|]|e] eqn:E;
    cbn [fst snd]; try discriminate.
  intros _. unfold is_directed_acyclic_graph in E.
  destruct (topological_sort _ _) as [l0|e] eqn:Es.
  - now exists l0.
  - destruct e as [| | | | | |name]; try discriminate E.
    destruct (String.eqb name "NetworkXUnfeasible") eqn:En.
    + apply String.eqb_eq in En. subst name. discriminate E.
    + exfalso. revert E. clear.
      repeat (destruct name as [|[[] [] [] [] [] [] [] []] name];
              try discriminate).
Qed.

(** C5: for every node [t] of a loaded graph, [descendants(t)] returns
    [t] followed by exactly the nodes reachable from [t], in an order in
    which every listed node comes after all the listed nodes it can be
    reached from, and [ancestors(t)] returns [t] followed by exactly
    the nodes [t] is reachable from, in the reverse order: every listed
    node comes before all the listed nodes it can be reached from, the
    nearest ancestors first. *)
Theorem descendants_ancestors_order (c : introspection)
        (self0 : Dependencies) (t : node) :
  let self := fst (load c self0) in
  snd (load c self0) = Return tt ->
  In t (nodes (graph self)) ->
  lists_descendants (edges (graph self)) t (descendants self t)
  /\ lists_ancestors (edges (graph self)) t (ancestors self t).
Proof.
  intros self Hok Ht.
  destruct (load_ok_sorted c self0 Hok) as (l0 & Hsorted).
  pose proof (well_formed_load c self0) as Hwf. cbn zeta in Hwf.
  split.
  - exact (descendants_sorted self l0 t Hwf Hsorted Ht).
  - exact (ancestors_sorted self l0 t Hwf Hsorted Ht).
Qed.

Lemma descendants_ancestors_order_witness :
  lists_descendants
    (edges (graph (fst (load chain_of_three new_dependencies))))
    (Table "`s`.`B`")
    (descendants (fst (load chain_of_three new_dependencies))
                 (Table "`s`.`B`"))
  /\ lists_ancestors
       (edges (graph (fst (load chain_of_three new_dependencies))))
       (Table "`s`.`B`")
       (ancestors (fst (load chain_of_three new_dependencies))
                  (Table "`s`.`B`")).
Proof.
  apply (descendants_ancestors_order chain_of_three new_dependencies
           (Table "`s`.`B`")).
  - vm_compute. reflexivity.
  - vm_compute. auto.
Defined.

Example descendants_of_chain :
  descendants (fst (load chain_of_three new_dependencies)) (Table "`s`.`A`")
  = Return [Table "`s`.`A`"; Table "`s`.`B`"; Table "`s`.`C`"]
  /\ ancestors (fst (load chain_of_three new_dependencies)) (Table "`s`.`C`")
     = Return [Table "`s`.`C`"; Table "`s`.`B`"; Table "`s`.`A`"].
Proof. vm_compute. split; reflexivity. Qed.

(* ------------------------------------------------------------------ *)
(** ** Dependencies.load: the edges of one foreign key *)
(* ------------------------------------------------------------------ *)

Lemma edge_absent (g : DiGraph) (u v : node) :
  well_formed (nodes g) (edges g) ->
  ~ In u (nodes g) \/ ~ In v (nodes g) ->
  dict_get edge_eqb (u, v) (edge_data g) = None.
Proof.
  intros (_ & _ & Hends) H.
  apply (dict_get_None edge_eqb edge_eqb_eq). intros Hin.
  destruct (Hends u v Hin). tauto.
Qed.

Lemma edge_data_add_node (n : node) (pk : option (list string))
      (g : DiGraph) :
  edge_data (add_node n pk g) = edge_data g.
Proof.
  unfold add_node. now destruct (dict_get node_eqb n (node_data g)), pk.
Qed.

(** An aliased foreign key puts a new alias node in the graph and two
    new edges with the same attributes, referenced table to alias node
    and alias node to referencing table, and nothing else: no edge from
    the referenced to the referencing table. *)
Lemma add_foreign_key_aliased (pks : list (string * list string))
      (self : Dependencies) (fk : foreign_key) :
  well_formed (nodes (graph self)) (edges (graph self)) ->
  alias_bound self ->
  aliased (fk_props pks fk) = true ->
  let d := add_foreign_key pks self fk in
  let a := Alias (_node_alias_count self) in
  ~ In a (nodes (graph self))
  /\ In a (nodes (graph d))
  /\ edge_data (graph d)
     = edge_data (graph self)
         ++ [((Table (fk_referenced_table fk), a), fk_props pks fk);
             ((a, Table (fk_referencing_table fk)), fk_props pks fk)]
  /\ _node_alias_count d = S (_node_alias_count self).
Proof.
  intros Hwf Hb Ha. cbn zeta. unfold add_foreign_key. rewrite Ha.
  cbn [negb graph _node_alias_count].
  set (a := Alias (_node_alias_count self)).
  set (p := fk_props pks fk).
  set (ref := Table (fk_referenced_table fk)).
  set (tbl := Table (fk_referencing_table fk)).
  assert (Hfresh : ~ In a (nodes (graph self))).
  { intros H. apply Hb in H. lia. }
  split; [exact Hfresh|]. split.
  - rewrite in_nodes_add_edge. now left.
  - split; [|reflexivity].
    assert (E1 : dict_get edge_eqb (ref, a) (edge_data (graph self)) = None).
    { apply edge_absent; [assumption | now right]. }
    assert (E2 : dict_get edge_eqb (a, tbl) (edge_data (graph self)) = None).
    { apply edge_absent; [assumption | now left]. }
    unfold add_edge at 1. cbn [edge_data].
    rewrite !edge_data_add_node.
    unfold add_edge at 1. cbn [edge_data].
    rewrite !edge_data_add_node.
    rewrite (dict_set_absent edge_eqb (ref, a) p _ E1).
    rewrite (dict_set_absent edge_eqb (a, tbl) p).
    + now rewrite <- app_assoc.
    + apply (dict_get_None edge_eqb edge_eqb_eq).
      rewrite map_app, in_app_iff. cbn. intros [H|[H|[]]].
      * apply (proj1 (dict_get_None edge_eqb edge_eqb_eq _ _) E2).
        exact H.
      * discriminate H.
Qed.

(** A foreign key keeps the alias labels below the counter. *)
Lemma alias_bound_add_foreign_key (pks : list (string * list string))
      (self : Dependencies) (fk : foreign_key) :
  alias_bound self -> alias_bound (add_foreign_key pks self fk).
Proof.
  intros Hb i. unfold add_foreign_key.
  destruct (negb (aliased (fk_props pks fk)));
    cbn [graph _node_alias_count]; rewrite ?in_nodes_add_edge,
      ?in_nodes_add_node.
  - intros [H|[H|H]]; try discriminate H. now apply Hb.
  - intros [H|[H|[H|[H|[H|H]]]]]; try discriminate H;
      try (injection H as ->; lia).
    apply Hb in H. lia.
Qed.

(* ------------------------------------------------------------------ *)
(** ** Dependencies.load: the outcome of loading twice *)
(* ------------------------------------------------------------------ *)

(** [nx.is_directed_acyclic_graph] answers whether a ranking exists. *)
Lemma is_directed_acyclic_graph_spec (g : DiGraph) :
  well_formed (nodes g) (edges g) ->
  (is_directed_acyclic_graph g = Return true
   /\ exists rank, ranked (edges g) rank)
  \/ (is_directed_acyclic_graph g = Return false
      /\ forall rank, ~ ranked (edges g) rank).
Proof.
  intros Hwf. unfold is_directed_acyclic_graph.
  destruct (topological_sort_spec (nodes g) (edges g) Hwf)
    as [(l & E & _ & _ & Hord)|(E & Hno)]; rewrite E.
  - left. split; [reflexivity|]. exists (fun v => index v l). exact Hord.
  - right. split; [reflexivity | exact Hno].
Qed.

Lemma edges_rename_graph (f : node -> node) (g : DiGraph) :
  edges (rename_graph f g)
  = map (fun e : edge => (f (fst e), f (snd e))) (edges g).
Proof.
  unfold edges, rename_graph. cbn [edge_data]. now rewrite !map_map.
Qed.

Lemma ranked_rename (k : nat) (g : DiGraph) :
  (exists rank, ranked (edges (rename_graph (shift_alias k) g)) rank)
  <-> exists rank, ranked (edges g) rank.
Proof.
  rewrite edges_rename_graph. split; intros [rank Hr].
  - exists (fun v => rank (shift_alias k v)). intros u v Huv.
    apply Hr. apply in_map_iff. exists (u, v). auto.
  - exists (fun v => rank (unshift_alias k v)). intros a b Hab.
    apply in_map_iff in Hab. destruct Hab as ([u v] & [= <- <-] & Huv).
    assert (E : forall n, unshift_alias k (shift_alias k n) = n).
    { intros [x|x]; cbn; [reflexivity | f_equal; lia]. }
    cbn [fst snd]. rewrite !E. now apply Hr.
Qed.

Lemma is_directed_acyclic_graph_rename (k : nat) (g : DiGraph) :
  well_formed (nodes g) (edges g) ->
  well_formed (nodes (rename_graph (shift_alias k) g))
              (edges (rename_graph (shift_alias k) g)) ->
  is_directed_acyclic_graph (rename_graph (shift_alias k) g)
  = is_directed_acyclic_graph g.
Proof.
  intros Hwf Hwf'.
  destruct (is_directed_acyclic_graph_spec g Hwf) as [[E R]|[E R]];
    destruct (is_directed_acyclic_graph_spec _ Hwf') as [[E' R']|[E' R']];
    rewrite E, E'; try reflexivity; exfalso.
  - apply (proj2 (ranked_rename k g)) in R. destruct R as [rank R].
    now apply (R' rank).
  - apply (proj1 (ranked_rename k g)) in R'. destruct R' as [rank R'].
    now apply (R rank).
Qed.

Lemma load_outcome (c : introspection) (self : Dependencies) :
  snd (load c self) =
  match load_pks c, load_fks c with
  | Raise e, _ => Raise e
  | Return _, Raise e => Raise e
  | Return _, Return _ =>
      match is_directed_acyclic_graph (graph (fst (load c self))) with
      | Raise e => Raise e
      | Return false => Raise cyclic_dependencies
      | Return true => Return tt
      end
  end.
Proof.
  unfold load.
  destruct (load_pks c) as [pks|e]; [|reflexivity].
  destruct (load_fks c) as [fks|e]; [|reflexivity].
  cbn [fst snd].
  destruct (is_directed_acyclic_graph _) as [[|]|e] eqn:E;
    cbn [fst snd]; rewrite ?E; reflexivity.
Qed.

(** The outcome of [load] does not depend on the object it is called
    on. *)
Lemma load_outcome_from_counter (c : introspection) (self : Dependencies) :
  snd (load c self) = snd (load c new_dependencies).
Proof.
  rewrite (load_outcome c self), (load_outcome c new_dependencies).
  destruct (load_pks c) as [pks|e]; [|reflexivity].
  destruct (load_fks c) as [fks|e]; [|reflexivity].
  pose proof (well_formed_load c self) as Hwf.
  pose proof (well_formed_load c new_dependencies) as Hwf0.
  cbn zeta in Hwf, Hwf0.
  rewrite (load_from_counter c self) in Hwf |- *.
  cbn [graph] in Hwf |- *.
  now rewrite (is_directed_acyclic_graph_rename _ _ Hwf0 Hwf).
Qed.

(** C3 (amended): of two consecutive [load]s over unchanged
    introspection results, the second produces the graph of the first
    with every alias label raised by the number of labels the first one
    took: the same table nodes with the same primary keys, as many alias
    nodes, and the same edges with the same attributes up to that
    renaming; and it ends as the first did.  [load] clears the nodes and
    the edges and leaves the alias counter running. *)
Theorem load_twice_isomorphic (c : introspection) (self : Dependencies) :
  let d1 := fst (load c self) in
  let d2 := fst (load c d1) in
  let taken := _node_alias_count d1 - _node_alias_count self in
  graph d2 = rename_graph (shift_alias taken) (graph d1)
  /\ alias_node_count (graph d2) = alias_node_count (graph d1)
  /\ filter (fun n => negb (is_alias n)) (nodes (graph d2))
     = filter (fun n => negb (is_alias n)) (nodes (graph d1))
  /\ _node_alias_count d2 = _node_alias_count d1 + taken
  /\ snd (load c d1) = snd (load c self).
Proof.
  cbn zeta.
  rewrite (load_outcome_from_counter c (fst (load c self))).
  rewrite (load_outcome_from_counter c self).
  rewrite (load_from_counter c (fst (load c self))).
  rewrite (load_from_counter c self).
  cbn [graph _node_alias_count].
  set (d0 := fst (load c new_dependencies)).
  replace (_node_alias_count self + _node_alias_count d0
           - _node_alias_count self)
    with (_node_alias_count d0) by lia.
  rewrite rename_graph_shift_shift.
  split; [reflexivity|]. split; [now rewrite !alias_node_count_rename|].
  split; [|split; reflexivity].
  unfold nodes, rename_graph. cbn [node_data]. rewrite !map_map. cbn [fst].
  induction (node_data (graph d0)) as [|[[x|x] v] l IH]; cbn;
    [reflexivity | now rewrite IH | exact IH].
Qed.

(* ------------------------------------------------------------------ *)
(** ** Dependencies.load: the state in the loop over the foreign keys *)
(* ------------------------------------------------------------------ *)

Lemma tables_only (pks : list (string * list string)) :
  forall (g : DiGraph) (i : nat),
    In (Alias i)
       (nodes (fold_left
                 (fun g npk => add_node (Table (fst npk)) (Some (snd npk)) g)
                 pks g)) ->
    In (Alias i) (nodes g).
Proof.
  induction pks as [|[n pk] pks IH]; intros g i H; cbn in H; [assumption|].
  apply IH in H. apply in_nodes_add_node in H.
  destruct H as [H|H]; [discriminate H | assumption].
Qed.

(** Before each foreign key, the graph built so far is well formed and
    its alias labels lie below the counter: the hypotheses of
    [add_foreign_key_aliased] hold at every turn of the loop. *)
Lemma load_loop_invariant (pks : list (string * list string))
      (fks : list foreign_key) (count : nat) :
  let tables :=
    fold_left (fun g npk => add_node (Table (fst npk)) (Some (snd npk)) g)
              pks empty_graph in
  let d := fold_left (add_foreign_key pks) fks
                     (mkDependencies tables count) in
  well_formed (nodes (graph d)) (edges (graph d)) /\ alias_bound d.
Proof.
  cbn zeta.
  set (d0 := mkDependencies _ count).
  assert (H0 : well_formed (nodes (graph d0)) (edges (graph d0))
               /\ alias_bound d0).
  { split.
    - unfold d0. cbn [graph]. generalize well_formed_empty.
      generalize empty_graph.
      induction pks as [|[n pk] pks IH]; intros g Hg; cbn; [assumption|].
      apply IH. now apply well_formed_add_node.
    - intros i H. unfold d0 in H. cbn [graph] in H.
      apply tables_only in H. contradiction. }
  revert H0. generalize d0. clear d0.
  induction fks as [|fk fks IH]; intros d [Hwf Hb]; cbn; [now split|].
  apply IH. split.
  - now apply well_formed_add_foreign_key.
  - now apply alias_bound_add_foreign_key.
Qed.

(* ------------------------------------------------------------------ *)
(** ** Connection: what every method keeps *)
(* ------------------------------------------------------------------ *)

Lemma evolves_refl (s : Connection) : evolves s s.
Proof.
  split; [reflexivity|]. split; [exists []; now rewrite app_nil_r|].
  now split.
Qed.

Lemma evolves_trans (s1 s2 s3 : Connection) :
  evolves s1 s2 -> evolves s2 s3 -> evolves s1 s3.
Proof.
  intros (E1 & [l1 T1] & H1 & F1) (E2 & [l2 T2] & H2 & F2).
  split; [congruence|]. split.
  - exists (l1 ++ l2). now rewrite T2, T1, app_assoc.
  - split; auto.
Qed.

(** A change of the state that is a later state on the face of it. *)
Ltac evolves_solve :=
  split; [reflexivity|];
  split; [first [exists []; cbn; now rewrite app_nil_r
                | eexists; reflexivity]|];
  split; [cbn; auto; intros; discriminate | cbn; auto].

Lemma respects_ret {A : Type} (a : A) : respects (ret a).
Proof. intros s r s' [= _ <-]. apply evolves_refl. Qed.

Lemma respects_raise {A : Type} (e : exn) : respects (raise (A := A) e).
Proof. intros s r s' [= _ <-]. apply evolves_refl. Qed.

Lemma respects_out_of_fuel {A : Type} : respects (out_of_fuel (A := A)).
Proof. intros s r s' [=]. Qed.

Lemma respects_gets {A : Type} (f : Connection -> A) : respects (gets f).
Proof. intros s r s' [= _ <-]. apply evolves_refl. Qed.

Lemma respects_modify (f : Connection -> Connection) :
  (forall s, evolves s (f s)) -> respects (modify f).
Proof. intros H s r s' [= _ <-]. apply H. Qed.

Lemma respects_bind {A B : Type} (m : M A) (k : A -> M B) :
  respects m -> (forall a, respects (k a)) -> respects (bind m k).
Proof.
  intros Hm Hk s r s'. unfold bind.
  destruct (m s) as [[[a|e] s1]|] eqn:E; [| |discriminate].
  - intros H. eapply evolves_trans; [exact (Hm _ _ _ E) | exact (Hk a _ _ _ H)].
  - intros [= _ <-]. exact (Hm _ _ _ E).
Qed.

Lemma respects_try_except {A : Type} (m : M A) (h : exn -> option (M A)) :
  respects m ->
  (forall e k, h e = Some k -> respects k) ->
  respects (try_except m h).
Proof.
  intros Hm Hh s r s'. unfold try_except.
  destruct (m s) as [[[a|e] s1]|] eqn:E; [| |discriminate].
  - intros [= <- <-]. exact (Hm _ _ _ E).
  - destruct (h e) as [k|] eqn:Ek.
    + intros H. eapply evolves_trans;
        [exact (Hm _ _ _ E) | exact (Hh e k Ek _ _ _ H)].
    + intros [= <- <-]. exact (Hm _ _ _ E).
Qed.

Lemma respects_driver (env : nat -> response) (c : call) :
  respects (driver env c).
Proof.
  intros s r s'. unfold driver.
  destruct (env (tick s)); intros [= _ <-]; evolves_solve.
Qed.

Lemma respects_the_conn : respects the_conn.
Proof.
  intros s r s'. unfold the_conn.
  destruct (_conn s); intros [= _ <-]; apply evolves_refl.
Qed.

Lemma respects_read_in_transaction : respects read_in_transaction.
Proof.
  intros s r s'. unfold read_in_transaction.
  destruct (_in_transaction s); intros [= _ <-]; apply evolves_refl.
Qed.

(** Builds the proof that a method respects [evolves] from its parts. *)
Ltac respects_step :=
  match goal with
  | |- respects (bind _ _) => apply respects_bind; [|intros ?]
  | |- respects (try_except _ _) =>
      apply respects_try_except;
      [|let H := fresh "H" in intros ? ? H;
        repeat match type of H with
               | match ?x with _ => _ end = Some _ => destruct x
               | (if ?b then _ else _) = Some _ => destruct b
               end;
        try discriminate H; injection H as <-]
  | |- respects (ret _) => apply respects_ret
  | |- respects (raise _) => apply respects_raise
  | |- respects out_of_fuel => apply respects_out_of_fuel
  | |- respects (gets _) => apply respects_gets
  | |- respects (driver _ _) => apply respects_driver
  | |- respects the_conn => apply respects_the_conn
  | |- respects read_in_transaction => apply respects_read_in_transaction
  | |- respects (modify _) =>
      apply respects_modify; intros ?; evolves_solve
  | |- respects (if ?b then _ else _) => destruct b
  | |- respects (match ?x with _ => _ end) => destruct x
  | |- respects _ => assumption
  end.

Section Respects.
Variable env : nat -> response.
Variable config_reconnect : bool.

Lemma respects_close : respects (close env).
Proof. unfold close. repeat respects_step. Qed.

Lemma respects_execute_query (c : cursor) (sql : string)
      (args : list pyval) :
  respects (_execute_query env c sql args).
Proof. unfold _execute_query. repeat respects_step. Qed.

Lemma respects_query_body
      (connect cancel_transaction : M unit) (sql : string)
      (args : list pyval) (as_dict : bool) (rc : option bool) :
  respects connect ->
  respects cancel_transaction ->
  respects (query_body env config_reconnect connect cancel_transaction
                       sql args as_dict rc).
Proof.
  intros Hc Hx. pose proof respects_close as Hclose.
  pose proof respects_execute_query as Hexec.
  unfold query_body, client_cursor, sqlite_cursor.
  repeat (respects_step || apply Hclose || apply Hexec).
Qed.

Lemma respects_connect_body
      (query : string -> list pyval -> bool -> option bool -> M cursor) :
  (forall sql args as_dict rc, respects (query sql args as_dict rc)) ->
  respects (connect_body env query).
Proof.
  intros Hq. unfold connect_body.
  repeat (respects_step || apply Hq).
Qed.

Lemma respects_cancel_transaction_body
      (query : string -> list pyval -> bool -> option bool -> M cursor) :
  (forall sql args as_dict rc, respects (query sql args as_dict rc)) ->
  respects (cancel_transaction_body query).
Proof.
  intros Hq. unfold cancel_transaction_body.
  repeat (respects_step || apply Hq).
Qed.

Lemma respects_methods (fuel : nat) :
  (forall sql args as_dict rc,
      respects (query env config_reconnect fuel sql args as_dict rc))
  /\ respects (connect env config_reconnect fuel)
  /\ respects (cancel_transaction env config_reconnect fuel).
Proof.
  induction fuel as [|fuel (IHq & IHc & IHx)].
  - split; [|split]; [intros sql args as_dict rc| |];
      exact respects_out_of_fuel.
  - split; [|split].
    + intros sql args as_dict rc. rewrite query_S.
      now apply respects_query_body.
    + rewrite connect_S. now apply respects_connect_body.
    + rewrite cancel_transaction_S.
      now apply respects_cancel_transaction_body.
Qed.

Lemma respects_is_connected : respects (is_connected env).
Proof. unfold is_connected, ping. repeat respects_step. Qed.

Lemma respects_commit_transaction (fuel : nat) :
  respects (commit_transaction env config_reconnect fuel).
Proof.
  pose proof (proj1 (respects_methods fuel)) as Hq.
  unfold commit_transaction. repeat (respects_step || apply Hq).
Qed.
End Respects.

(* ------------------------------------------------------------------ *)
(** ** Connection.query: one statement, one call *)
(* ------------------------------------------------------------------ *)

Section Query_once.
Variable env : nat -> response.
Variable config_reconnect : bool.

Lemma execute_query_raise (c : cursor) (sql : string) (args : list pyval)
      (s : Connection) (e : exn) :
  env (tick s) = RRaise e ->
  _execute_query env c sql args s
  = Some (Raise (surfaced e sql),
          log_call (Execute (cur_conn c) sql args) true s).
Proof.
  intros He. unfold _execute_query, try_except, driver. rewrite He.
  destruct e as [ce| | | | | |]; try reflexivity.
  cbn. now destruct (translate_query_error ce sql).
Qed.

Lemma execute_query_ok (c : cursor) (sql : string) (args : list pyval)
      (s : Connection) :
  env (tick s) = ROk ->
  _execute_query env c sql args s
  = Some (Return tt, log_call (Execute (cur_conn c) sql args) true s).
Proof.
  intros He. unfold _execute_query, try_except, driver. now rewrite He.
Qed.

(** Unfolds one call of [query] down to [_execute_query]. *)
Ltac query_unfold :=
  rewrite query_S;
  cbv [query_body bind gets modify client_cursor sqlite_cursor the_conn ret
       try_except set_row_factory conn_info _conn row_factory
       _in_transaction tick trace].

Lemma query_returns_once (s : Connection) (h : handle) (sql : string)
      (args : list pyval) (as_dict : bool) (rc : option bool) (fuel : nat) :
  _conn s = Some h ->
  env (tick s) = ROk ->
  query env config_reconnect (S fuel) sql args as_dict rc s
  = Some (Return (Cursor h as_dict), after_statement h sql args as_dict s).
Proof.
  destruct s as [ci c rf itx t tr]. cbn. intros -> He.
  unfold after_statement. query_unfold.
  destruct (is_sqlite ci) eqn:Hb; cbv [negb];
    erewrite (execute_query_ok _ sql args) by exact He; reflexivity.
Qed.

Lemma query_raises_once (s : Connection) (h : handle) (sql : string)
      (args : list pyval) (as_dict : bool) (rc : option bool) (e : exn)
      (fuel : nat) :
  _conn s = Some h ->
  env (tick s) = RRaise e ->
  connection_loss (conn_info s) (surfaced e sql) = false ->
  query env config_reconnect (S fuel) sql args as_dict rc s
  = Some (Raise (surfaced e sql), after_statement h sql args as_dict s).
Proof.
  destruct s as [ci c rf itx t tr]. cbn. intros -> He Hl.
  unfold connection_loss in Hl. unfold after_statement. query_unfold.
  destruct (is_sqlite ci) eqn:Hb; cbv [negb];
    erewrite (execute_query_raise _ sql args _ e) by exact He;
    cbn [andb] in Hl.
  - destruct (lost_or_sqlite_database_error (surfaced e sql)); [|reflexivity].
    cbn in Hl. apply negb_false_iff in Hl. rewrite Hl. reflexivity.
  - rewrite andb_true_r in Hl. rewrite Hl. reflexivity.
Qed.
End Query_once.

(* ------------------------------------------------------------------ *)
(** ** Connection: the connections that exist *)
(* ------------------------------------------------------------------ *)

Section Existing_connections.
Variable env : nat -> response.
Variable config_reconnect : bool.

(** The health check answers [True] on the file backend only. *)
Lemma is_connected_true (s s' : Connection) :
  is_connected env s = Some (Return true, s') ->
  is_sqlite (conn_info s) = true /\ s' = s.
Proof.
  unfold is_connected, ping, try_except, bind, the_conn, gets, raise, ret.
  destruct (_conn s); cbn;
    destruct (is_sqlite (conn_info s)) eqn:Hb; cbn; rewrite ?Hb;
    try (intros [= <-]; now split); try discriminate.
  unfold driver. destruct (env (tick s)) as [|[]]; cbn; rewrite ?Hb;
    intros [=].
Qed.

(** On the file backend it answers [True] in every state. *)
Lemma is_connected_file_backend (s : Connection) :
  is_sqlite (conn_info s) = true ->
  is_connected env s = Some (Return true, s).
Proof.
  intros Hb.
  unfold is_connected, ping, try_except, bind, the_conn, gets, raise, ret.
  destruct (_conn s); rewrite ?Hb; cbn; rewrite ?Hb; reflexivity.
Qed.

Lemma in_transaction_file_backend (s : Connection) (b : bool) :
  is_sqlite (conn_info s) = true ->
  _in_transaction s = Some b ->
  in_transaction env s = Some (Return b, s).
Proof.
  intros Hb Hitx.
  unfold in_transaction, bind, read_in_transaction, modify, ret.
  rewrite Hitx.
  destruct b; [rewrite (is_connected_file_backend s Hb)|];
    destruct s; cbn in *; subst; reflexivity.
Qed.

(** With no transaction open, [in_transaction] answers [False] on
    either backend and changes nothing. *)
Lemma in_transaction_closed (s : Connection) :
  _in_transaction s = Some false ->
  in_transaction env s = Some (Return false, s).
Proof.
  intros Hitx.
  unfold in_transaction, bind, read_in_transaction, modify, ret.
  rewrite Hitx. destruct s; cbn in *; subst; reflexivity.
Qed.

(** [in_transaction] keeps the backend, the handle and the calls made;
    it may mark the transaction closed. *)
Lemma in_transaction_later (s s' : Connection) (r : result bool) :
  in_transaction env s = Some (r, s') ->
  conn_info s' = conn_info s
  /\ (exists calls, trace s' = trace s ++ calls)
  /\ (_conn s <> None -> _conn s' <> None).
Proof.
  unfold in_transaction, bind, read_in_transaction, modify, ret.
  destruct (_in_transaction s) as [[|]|]; try discriminate.
  - destruct (is_connected env s) as [[[v|e] s2]|] eqn:Ec;
      try discriminate; intros [= _ <-];
      destruct (respects_is_connected env _ _ _ Ec) as (H1 & H2 & H3 & _);
      auto.
  - intros [= _ <-]. cbn. split; [reflexivity|].
    split; [exists []; now rewrite app_nil_r | auto].
  - intros [= _ <-]. split; [reflexivity|].
    split; [exists []; now rewrite app_nil_r | auto].
Qed.

(** The constructor returns on the file backend only, with a handle and
    with no transaction open. *)
Lemma init_returns_on_file_backend (fuel : nat) (ci : conn_info_t)
      (s : Connection) :
  __init__ env config_reconnect fuel ci = Some (Return tt, s) ->
  conn_info s = ci
  /\ is_sqlite ci = true
  /\ _in_transaction s = Some false
  /\ _conn s <> None.
Proof.
  unfold __init__, bind.
  destruct (connect env config_reconnect fuel _)
    as [[[[]|e] s1]|] eqn:Ec; try discriminate.
  destruct (proj1 (proj2 (respects_methods env config_reconnect fuel))
              _ _ _ Ec) as (Eci & _).
  cbn in Eci.
  destruct (is_connected env s1) as [[[[|]|e] s2]|] eqn:Ei;
    try discriminate.
  destruct (is_connected_true s1 s2 Ei) as [Hb ->].
  rewrite Eci in Hb. rewrite Hb. cbn.
  unfold modify. intros [= <-]. cbn.
  split; [assumption|]. split; [reflexivity|]. split; [reflexivity|].
  (* [connect] has set the handle *)
  destruct fuel as [|fuel]; [discriminate Ec|].
  rewrite connect_S in Ec. revert Ec.
  unfold connect_body, bind, gets, modify, driver, ret. cbn.
  rewrite Hb. cbn.
  match goal with
  | |- context [env ?t] => destruct (env t)
  end; [|discriminate].
  match goal with
  | |- context [query _ _ _ ?q ?a ?d ?rc ?s0] =>
      destruct (query env config_reconnect fuel q a d rc s0)
        as [[[cur|e] s3]|] eqn:Eq
  end; try discriminate.
  intros [= <-].
  destruct (proj1 (respects_methods env config_reconnect fuel)
              _ _ _ _ _ _ _ Eq) as (_ & _ & Hh & _).
  apply Hh. discriminate.
Qed.

(** [start_transaction] keeps the backend, the handle and the calls
    made. *)
Lemma start_transaction_later (fuel : nat) (s s' : Connection)
      (r : result unit) :
  start_transaction env config_reconnect fuel s = Some (r, s') ->
  conn_info s' = conn_info s
  /\ (exists calls, trace s' = trace s ++ calls)
  /\ (_conn s <> None -> _conn s' <> None).
Proof.
  unfold start_transaction, bind, gets, modify.
  destruct (in_transaction env s) as [[[b|e] s1]|] eqn:Ei;
    try discriminate.
  2:{ intros [= _ <-]. exact (in_transaction_later s s1 _ Ei). }
  destruct (in_transaction_later s s1 _ Ei) as (E1 & [l1 T1] & H1).
  destruct b; cbn.
  { intros [= _ <-]. split; [assumption|]. split; [now exists l1 | assumption]. }
  match goal with
  | |- context [match ?q s1 with _ => _ end] =>
      destruct (q s1) as [[[c|e] s2]|] eqn:Eq
  end; try discriminate; intros [= _ <-]; cbn;
    destruct (is_sqlite (conn_info s1));
    destruct (proj1 (respects_methods env config_reconnect fuel)
                _ _ _ _ _ _ _ Eq) as (E2 & [l2 T2] & H2 & _);
    (split; [congruence|];
     split; [exists (l1 ++ l2); now rewrite T2, T1, app_assoc | auto]).
Qed.

(** With no transaction open, [start_transaction] marks the transaction
    open when it returns and leaves it marked closed when it raises. *)
Lemma start_transaction_outcome (fuel : nat) (s s' : Connection)
      (r : result unit) :
  _in_transaction s = Some false ->
  start_transaction env config_reconnect fuel s = Some (r, s') ->
  _in_transaction s'
  = Some (match r with Return _ => true | Raise _ => false end).
Proof.
  intros Hitx. unfold start_transaction, bind, gets, modify.
  rewrite (in_transaction_closed s Hitx). cbn.
  match goal with
  | |- context [match ?q s with _ => _ end] =>
      destruct (q s) as [[[c|e] s2]|] eqn:Eq
  end; try discriminate; intros [= <- <-]; [reflexivity|].
  destruct (is_sqlite (conn_info s));
    destruct (proj1 (respects_methods env config_reconnect fuel)
                _ _ _ _ _ _ _ Eq) as (_ & _ & _ & H); now apply H.
Qed.

(** Whatever comes of it, the first driver call of [query] on a
    connection with a handle is the statement, on that handle. *)
Lemma query_first_call (fuel : nat) (s s' : Connection) (h : handle)
      (sql : string) (args : list pyval) (as_dict : bool)
      (rc : option bool) (r : result cursor) :
  _conn s = Some h ->
  query env config_reconnect fuel sql args as_dict rc s = Some (r, s') ->
  exists calls, trace s' = trace s ++ Execute h sql args :: calls.
Proof.
  intros Hc. destruct fuel as [|fuel]; [discriminate|].
  rewrite query_S.
  destruct (respects_methods env config_reconnect fuel) as (_ & Hconn & Hx).
  pose proof (respects_close env) as Hclose.
  pose proof (respects_execute_query env) as Hexec.
  unfold query_body. unfold bind at 1. unfold gets at 1.
  unfold bind at 1.
  set (handler := fun e : exn => _).
  assert (Hh : forall e k, handler e = Some k -> respects k).
  { intros e k H. unfold handler in H.
    destruct (lost_or_sqlite_database_error e); [|discriminate H].
    injection H as <-. unfold client_cursor, sqlite_cursor.
    repeat (respects_step || apply Hclose || apply Hexec). }
  clearbody handler.
  assert (Hcur : exists b s1,
             (if negb (is_sqlite (conn_info s)) then client_cursor as_dict
              else bind the_conn
                     (fun _ => bind (modify (set_row_factory as_dict))
                                    (fun _ => sqlite_cursor))) s
             = Some (Return (Cursor h b), s1)
             /\ trace s1 = trace s).
  { unfold client_cursor, sqlite_cursor, bind, the_conn, gets, modify, ret.
    destruct (is_sqlite (conn_info s)); cbn; rewrite Hc; cbn;
      [rewrite Hc|]; do 2 eexists; split; reflexivity. }
  destruct Hcur as (b & s1 & -> & Ht).
  unfold try_except, bind, ret.
  destruct (_execute_query env (Cursor h b) sql args s1)
    as [[[[]|e] s2]|] eqn:Ee; try discriminate.
  - intros [= _ <-]. revert Ee. unfold _execute_query, try_except, driver.
    destruct (env (tick s1)) as [|[ce| | | | | |]]; try discriminate;
      try (destruct (translate_query_error ce sql); discriminate).
    intros [= <-]. exists []. cbn. now rewrite Ht.
  - assert (Ht2 : trace s2 = trace s ++ [Execute h sql args]).
    { revert Ee. unfold _execute_query, try_except, driver.
      destruct (env (tick s1)) as [|[ce| | | | | |]]; try discriminate;
        try (destruct (translate_query_error ce sql));
        intros [= _ <-]; cbn; now rewrite Ht. }
    destruct (handler e) as [k|] eqn:Ek.
    + intros H. destruct (Hh e k Ek _ _ _ H) as (_ & [l T] & _).
      exists l. now rewrite T, Ht2, <- app_assoc.
    + intros [= _ <-]. exists []. exact Ht2.
Qed.

(** C7: a connection exists on the file backend only (on the networked
    backend the constructor never returns), it has a handle, and every
    method keeps the backend and the handle.  On such a connection,
    [start_transaction] called while a transaction is open raises the
    nested-transaction error and leaves the state as it was, the
    transaction still marked open.  With no transaction open, whatever
    the driver answers, the first driver call of [start_transaction] is
    the statement, BEGIN or START, and it marks the transaction open
    whenever it returns and leaves it marked closed whenever it raises;
    when the driver runs the statement it returns after that one call,
    and when the driver answers the statement with an error that is no
    connection loss it raises the error after that one call. *)
Theorem start_transaction_nested :
  (* the connections that exist *)
  (forall fuel ci s,
      __init__ env config_reconnect fuel ci = Some (Return tt, s) ->
      conn_info s = ci /\ is_sqlite ci = true
      /\ _in_transaction s = Some false /\ _conn s <> None)
  /\ (forall fuel s s' sql args as_dict rc (r : result cursor),
         query env config_reconnect fuel sql args as_dict rc s
         = Some (r, s') ->
         conn_info s' = conn_info s /\ (_conn s <> None -> _conn s' <> None))
  /\ (forall fuel s s' (r : result unit),
         start_transaction env config_reconnect fuel s = Some (r, s')
         \/ commit_transaction env config_reconnect fuel s = Some (r, s')
         \/ cancel_transaction env config_reconnect fuel s = Some (r, s') ->
         conn_info s' = conn_info s /\ (_conn s <> None -> _conn s' <> None))
  (* a transaction is open *)
  /\ (forall fuel s,
         is_sqlite (conn_info s) = true ->
         _in_transaction s = Some true ->
         start_transaction env config_reconnect fuel s
         = Some (Raise nested_transaction, s))
  (* no transaction is open *)
  /\ (forall fuel s s' h (r : result unit),
         _in_transaction s = Some false ->
         _conn s = Some h ->
         start_transaction env config_reconnect fuel s = Some (r, s') ->
         (exists calls,
             trace s'
             = trace s ++ Execute h (begin_statement (conn_info s)) []
                            :: calls)
         /\ _in_transaction s'
            = Some (match r with Return _ => true | Raise _ => false end))
  /\ (forall fuel s h,
         _in_transaction s = Some false ->
         _conn s = Some h ->
         env (tick s) = ROk ->
         start_transaction env config_reconnect (S fuel) s
         = Some (Return tt,
                 set_in_transaction true
                   (after_statement h (begin_statement (conn_info s)) []
                      false s)))
  /\ (forall fuel s h e,
         _in_transaction s = Some false ->
         _conn s = Some h ->
         env (tick s) = RRaise e ->
         connection_loss (conn_info s)
           (surfaced e (begin_statement (conn_info s))) = false ->
         start_transaction env config_reconnect (S fuel) s
         = Some (Raise (surfaced e (begin_statement (conn_info s))),
                 after_statement h (begin_statement (conn_info s)) []
                   false s)).
Proof.
  split; [exact init_returns_on_file_backend|].
  split.
  { intros fuel s s' sql args as_dict rc r H.
    destruct (proj1 (respects_methods env config_reconnect fuel)
                _ _ _ _ _ _ _ H) as (H1 & _ & H2 & _). now split. }
  split.
  { intros fuel s s' r [H|[H|H]].
    - destruct (start_transaction_later fuel s s' r H) as (H1 & _ & H2).
      now split.
    - destruct (respects_commit_transaction env config_reconnect fuel
                  _ _ _ H) as (H1 & _ & H2 & _). now split.
    - destruct (proj2 (proj2 (respects_methods env config_reconnect fuel))
                  _ _ _ H) as (H1 & _ & H2 & _). now split. }
  split.
  { intros fuel s Hb Hitx. unfold start_transaction, bind.
    now rewrite (in_transaction_file_backend s true Hb Hitx). }
  split.
  { intros fuel s s' h r Hitx Hc H.
    split; [|exact (start_transaction_outcome fuel s s' r Hitx H)].
    revert H. unfold start_transaction, bind, gets, modify.
    rewrite (in_transaction_closed s Hitx). cbn. unfold begin_statement.
    destruct (is_sqlite (conn_info s));
      match goal with
      | |- context [match ?q s with _ => _ end] =>
          destruct (q s) as [[[c|e] s2]|] eqn:Eq
      end; try discriminate; intros [= _ <-]; cbn;
      exact (query_first_call fuel s s2 h _ [] false None _ Hc Eq). }
  split.
  { intros fuel s h Hitx Hc He. unfold start_transaction, bind, gets, modify.
    rewrite (in_transaction_closed s Hitx). cbn. unfold begin_statement.
    destruct (is_sqlite (conn_info s)) eqn:Hb;
      now rewrite (query_returns_once env config_reconnect s h _ []
                     false None fuel Hc He). }
  intros fuel s h e Hitx Hc He Hl.
  unfold start_transaction, bind, gets, modify.
  rewrite (in_transaction_closed s Hitx). cbn.
  unfold begin_statement in *.
  destruct (is_sqlite (conn_info s)) eqn:Hb;
    now rewrite (query_raises_once env config_reconnect s h _ []
                   false None e fuel Hc He Hl).
Qed.
End Existing_connections.

Lemma start_transaction_nested_witness :
  (conn_info idle_file_connection = ConnInfo "lab.db" PortSqlite TlsNone
   /\ is_sqlite (ConnInfo "lab.db" PortSqlite TlsNone) = true
   /\ _in_transaction idle_file_connection = Some false
   /\ _conn idle_file_connection <> None)
  /\ start_transaction env_ok true 1 idle_file_connection
     = Some (Return tt, in_file_transaction)
  /\ start_transaction env_ok true 1 in_file_transaction
     = Some (Raise nested_transaction, in_file_transaction).
Proof.
  split; [|split].
  - exact (proj1 (start_transaction_nested env_ok true) 2
             (ConnInfo "lab.db" PortSqlite TlsNone) idle_file_connection
             eq_refl).
  - exact (proj1 (proj2 (proj2 (proj2 (proj2 (proj2
             (start_transaction_nested env_ok true))))))
             0 idle_file_connection 0 eq_refl eq_refl eq_refl).
  - exact (proj1 (proj2 (proj2 (proj2
             (start_transaction_nested env_ok true))))
             1 in_file_transaction eq_refl eq_refl).
Defined.

(* ------------------------------------------------------------------ *)
(** ** Connection.query: the reconnection on the file backend *)
(* ------------------------------------------------------------------ *)

(** On a file that stays stale, with a transaction open, [query] and
    [cancel_transaction] call each other without end: the ROLLBACK goes
    to the handle that has just failed, fails as the statement did and
    is handled as the statement was. *)
Lemma stale_transaction_never_ends (fuel : nat) :
  forall (s : Connection) (h : handle),
    is_sqlite (conn_info s) = true ->
    _conn s = Some h ->
    _in_transaction s = Some true ->
    3 <= tick s ->
    (forall sql args as_dict,
        query env_stale true fuel sql args as_dict None s = None)
    /\ cancel_transaction env_stale true fuel s = None.
Proof.
  induction fuel as [|fuel IH]; intros s h Hb Hc Hitx Ht;
    [split; reflexivity|].
  assert (He : forall s1, tick s1 = tick s -> env_stale (tick s1)
                                              = RRaise stale_file).
  { intros s1 ->. unfold env_stale.
    now rewrite (proj2 (Nat.leb_le 3 (tick s)) Ht). }
  split.
  - intros sql args as_dict.
    destruct s as [ci c rf itx t tr]. cbn in Hb, Hc, Hitx, Ht. subst c itx.
    rewrite query_S.
    cbv [query_body bind gets modify client_cursor sqlite_cursor the_conn ret
         try_except set_row_factory conn_info _conn row_factory
         _in_transaction tick trace].
    rewrite Hb. cbv [negb].
    erewrite (execute_query_raise env_stale _ sql args _ stale_file)
      by (apply He; reflexivity).
    cbn [surfaced stale_file lost_or_sqlite_database_error
         sqlite3.is_DatabaseError sqlite_reraised sqlite3.is_OperationalError
         sqlite3.is_IntegrityError sqlite3.is_ProgrammingError orb].
    cbv [raise read_in_transaction log_call _in_transaction conn_info _conn
         row_factory tick trace cur_conn].
    match goal with
    | |- context [cancel_transaction _ _ _ ?s1] =>
        now rewrite (proj2 (IH s1 h Hb eq_refl eq_refl
                              (Nat.le_le_succ_r _ _ Ht)))
    end.
  - rewrite cancel_transaction_S.
    unfold cancel_transaction_body, try_except, bind.
    now rewrite (proj1 (IH s h Hb Hc Hitx Ht)).
Qed.

(** C4 (the code at the failing input): a file-backend connection as
    the constructor leaves it, a statement asked for with
    [as_dict=True], and a file that has gone stale.  The reconnection
    goes through and the statement is run once more on the new handle,
    but the cursor returned yields tuples: the new connection's
    [row_factory] is not set before the cursor is opened, where the
    same statement without the loss gives a cursor that yields dicts.
    And with a transaction open and a file that stays stale, the call
    does not come to raise [LostConnectionError]: the recursion of
    [query] and [cancel_transaction] has no end, whatever the budget. *)
Theorem query_retry_on_file_backend :
  __init__ env_stale_once true 2 (ConnInfo "lab.db" PortSqlite TlsNone)
  = Some (Return tt, idle_file_connection)
  /\ connection_loss (conn_info idle_file_connection) stale_file = true
  /\ query env_ok true 1 "SELECT * FROM session" [] true None
           idle_file_connection
     = Some (Return (Cursor 0 true),
             after_statement 0 "SELECT * FROM session" [] true
               idle_file_connection)
  /\ query env_stale_once true 3 "SELECT * FROM session" [] true None
           idle_file_connection
     = Some (Return (Cursor 4 false),
             mkConnection (ConnInfo "lab.db" PortSqlite TlsNone) (Some 4)
               false (Some false) 7
               [Flush "lab.db"; Sqlite3Connect "lab.db";
                Execute 0 "PRAGMA foreign_keys=1" [];
                Execute 0 "SELECT * FROM session" [];
                Close 0; Flush "lab.db"; Sqlite3Connect "lab.db";
                Execute 4 "PRAGMA foreign_keys=1" [];
                Execute 4 "SELECT * FROM session" []])
  /\ start_transaction env_stale true 1 idle_file_connection
     = Some (Return tt, in_file_transaction)
  /\ forall fuel,
      query env_stale true fuel "SELECT * FROM session" [] true None
            in_file_transaction
      = None.
Proof.
  split; [reflexivity|]. split; [reflexivity|]. split; [reflexivity|].
  split; [reflexivity|]. split; [reflexivity|].
  intros fuel.
  apply (proj1 (stale_transaction_never_ends fuel in_file_transaction 0
                  eq_refl eq_refl eq_refl (le_n 3))).
Qed.

(* ------------------------------------------------------------------ *)
(** ** Dependencies.load: the primary key on the file backend *)
(* ------------------------------------------------------------------ *)

(** The primary-key query of the file backend keeps the columns of rank
    1 only: of a key of several columns, the first. *)
Lemma select_primary_keys_rank_one (sqlite_master : list master_row)
      (t col : string) :
  In (t, col) (select_primary_keys sqlite_master) ->
  exists m,
    In m sqlite_master /\ m_name m = t
    /\ In (TableInfo col 1) (pragma_table_info m).
Proof.
  unfold select_primary_keys. rewrite in_flat_map.
  intros (m & Hm & Hin). exists m. split; [assumption|].
  destruct (String.eqb (m_type m) "table" && negb (like_tilde (m_name m)));
    [|destruct Hin].
  apply in_map_iff in Hin. destruct Hin as ([name pk] & [= <- <-] & Hin).
  apply filter_In in Hin. destruct Hin as [Hin Hpk]. cbn in Hpk.
  apply Nat.eqb_eq in Hpk. subst pk. auto.
Qed.

(** The networked backend's query lists every column of the key: on the
    same schema the foreign key is stored with [primary] true. *)
Lemma composite_key_networked_primary :
  let d := fst (load composite_key_networked new_dependencies) in
  snd (load composite_key_networked new_dependencies) = Return tt
  /\ load_pks composite_key_networked
     = Return [("`s`.`A`", ["x"; "y"]); ("`s`.`B`", ["x"; "y"; "z"])]
  /\ edge_data (graph d)
     = [((Table "`s`.`A`", Table "`s`.`B`"),
         Props true [("x", "x"); ("y", "y")] false true)].
Proof. vm_compute. repeat split; reflexivity. Qed.

(** C2 (the code at the failing input): on the file backend, table [B]
    with primary key [(x, y, z)] and a foreign key [(x, y)] to table
    [A].  Every referencing column is part of the primary key of [B],
    but the primary-key query selects [p.pk=1], the first column of
    each key, so [load] holds [x] alone as the key of [B] and stores the
    foreign key's edge with [primary] false; [parents(B, primary=True)]
    is empty. *)
Theorem composite_key_on_file_not_primary :
  let c := file_introspection ["s"] composite_key_catalog in
  let d := fst (load c new_dependencies) in
  primary_key_columns table_B = ["x"; "y"; "z"]
  /\ load_fks c
     = Return [ForeignKey "`s`.`B`" "`s`.`A`" [("x", "x"); ("y", "y")]]
  /\ incl ["x"; "y"] (primary_key_columns table_B)
  /\ load_pks c = Return [("`s`.`A`", ["x"]); ("`s`.`B`", ["x"])]
  /\ snd (load c new_dependencies) = Return tt
  /\ edge_data (graph d)
     = [((Table "`s`.`A`", Table "`s`.`B`"),
         Props false [("x", "x"); ("y", "y")] false true)]
  /\ parents d (Table "`s`.`B`") (Some true) = []
  /\ map fst (parents d (Table "`s`.`B`") None) = [Table "`s`.`A`"].
Proof.
  cbn zeta. split; [reflexivity|]. split; [reflexivity|].
  split; [intros a [<-|[<-|[]]]; cbn; auto|].
  vm_compute. repeat split; reflexivity.
Qed.

(* ------------------------------------------------------------------ *)
(** ** Connection.query: a statement that does not lose the connection *)
(* ------------------------------------------------------------------ *)

Section Query_without_loss.
Variable env : nat -> response.
Variable config_reconnect : bool.

(** [query] makes one driver call and no reconnection unless the
    statement raises a connection loss, whatever [reconnect] is: a
    statement the driver runs gives a cursor on the current handle that
    yields dicts exactly when [as_dict] was asked for; an error that is
    not a connection loss (on the file backend the operational,
    integrity and programming errors among them) is raised, translated
    when it is the networked driver's, and the handle and the
    transaction state stay as they were. *)
Theorem query_without_loss (s : Connection) (h : handle) (sql : string)
        (args : list pyval) (as_dict : bool) (rc : option bool)
        (fuel : nat) :
  _conn s = Some h ->
  (env (tick s) = ROk ->
   query env config_reconnect (S fuel) sql args as_dict rc s
   = Some (Return (Cursor h as_dict), after_statement h sql args as_dict s))
  /\ (forall e,
         env (tick s) = RRaise e ->
         connection_loss (conn_info s) (surfaced e sql) = false ->
         query env config_reconnect (S fuel) sql args as_dict rc s
         = Some (Raise (surfaced e sql),
                 after_statement h sql args as_dict s))
  /\ _conn (after_statement h sql args as_dict s) = Some h
  /\ _in_transaction (after_statement h sql args as_dict s)
     = _in_transaction s
  /\ trace (after_statement h sql args as_dict s)
     = trace s ++ [Execute h sql args].
Proof.
  intros Hc. split; [|split].
  - intros He. now apply query_returns_once.
  - intros e He Hl. now apply query_raises_once.
  - unfold after_statement.
    destruct (is_sqlite (conn_info s)); cbn; auto.
Qed.
End Query_without_loss.

Lemma query_without_loss_witness :
  query (env_raise_at 2 unique_failed) true 1
        "INSERT INTO session VALUES (1)" [] false None idle_file_connection
  = Some (Raise unique_failed,
          after_statement 0 "INSERT INTO session VALUES (1)" [] false
            idle_file_connection).
Proof.
  exact (proj1 (proj2 (query_without_loss
                         (env_raise_at 2 unique_failed) true
                         idle_file_connection 0
                         "INSERT INTO session VALUES (1)" [] false None 0
                         eq_refl))
           unique_failed eq_refl eq_refl).
Defined.

(* ------------------------------------------------------------------ *)
(** ** Connection.connect on the networked backend *)
(* ------------------------------------------------------------------ *)

Section Connect_facts.
Variable env : nat -> response.
Variable config_reconnect : bool.

(** When the driver's [connect] raises [InternalError], a second attempt
    is made, once: without the TLS options when [use_tls] was [None], and
    with the arguments of the first attempt otherwise.  If it succeeds
    its connection becomes the handle and is set to autocommit; if it
    raises, the error goes to the caller, an [InternalError] too, and
    the handle stays what it was. *)
Theorem connect_retries_after_internal_error (s : Connection)
        (args : list pyval) (fuel : nat) :
  let ci := conn_info s in
  let again := ClientConnect (has_ssl ci && negb (ssl_input_is_None ci)) in
  is_sqlite ci = false ->
  env (tick s)
  = RRaise (ClientError (ClientErr client_err.InternalError args)) ->
  (env (S (tick s)) = ROk ->
   env (S (S (tick s))) = ROk ->
   exists s',
     connect env config_reconnect (S fuel) s = Some (Return tt, s')
     /\ _conn s' = Some (S (tick s))
     /\ trace s' = trace s ++ [ClientConnect (has_ssl ci); again;
                               Autocommit (S (tick s))])
  /\ (forall e2,
         env (S (tick s)) = RRaise e2 ->
         exists s',
           connect env config_reconnect (S fuel) s = Some (Raise e2, s')
           /\ _conn s' = _conn s
           /\ trace s' = trace s ++ [ClientConnect (has_ssl ci); again]).
Proof.
  destruct s as [ci c rf itx t tr]. cbn. intros Hb He. split.
  - intros H1 H2.
    repeat (progress (conn_unfold; cbn; rewrite ?Hb, ?He, ?H1, ?H2)).
    eexists. split; [reflexivity|]. cbn.
    rewrite <- !app_assoc. cbn. auto.
  - intros e2 H1.
    repeat (progress (conn_unfold; cbn; rewrite ?Hb, ?He, ?H1)).
    eexists. split; [reflexivity|]. cbn.
    rewrite <- !app_assoc. cbn. auto.
Qed.

(** An error of the driver's [connect] other than [InternalError] is
    raised after the one attempt: the handle stays what it was and
    autocommit is not set. *)
Theorem connect_error_keeps_handle (s : Connection) (e : exn) (fuel : nat) :
  is_sqlite (conn_info s) = false ->
  env (tick s) = RRaise e ->
  (forall args,
      e <> ClientError (ClientErr client_err.InternalError args)) ->
  connect env config_reconnect (S fuel) s
  = Some (Raise e, log_call (ClientConnect (has_ssl (conn_info s))) true s).
Proof.
  destruct s as [ci c rf itx t tr]. cbn. intros Hb He Hne.
  repeat (progress (conn_unfold; cbn; rewrite ?Hb, ?He)).
  destruct e as [[[] a]| | | | | |]; try reflexivity.
  now destruct (Hne a).
Qed.
End Connect_facts.

Lemma connect_retries_after_internal_error_witness :
  exists s',
    connect (env_raise_at 0 handshake_failed) true 1
      (unconnected (ConnInfo "db" (Port 3306) TlsNone))
    = Some (Return tt, s')
    /\ _conn s' = Some 1
    /\ trace s' = [ClientConnect true; ClientConnect false; Autocommit 1].
Proof.
  exact (proj1 (connect_retries_after_internal_error
                  (env_raise_at 0 handshake_failed) true
                  (unconnected (ConnInfo "db" (Port 3306) TlsNone))
                  [VInt 1043; VStr "Bad handshake"] 0 eq_refl eq_refl)
           eq_refl eq_refl).
Defined.

Lemma connect_error_keeps_handle_witness :
  connect (env_raise_at 0 connection_refused) true 1
          (unconnected (ConnInfo "db" (Port 3306) TlsNone))
  = Some (Raise connection_refused,
          log_call (ClientConnect true) true
            (unconnected (ConnInfo "db" (Port 3306) TlsNone))).
Proof.
  apply (connect_error_keeps_handle (env_raise_at 0 connection_refused) true
           (unconnected (ConnInfo "db" (Port 3306) TlsNone))
           connection_refused 0 eq_refl eq_refl).
  intros args. discriminate.
Defined.

(* ------------------------------------------------------------------ *)
(** ** Connection on the file backend: construction and health check *)
(* ------------------------------------------------------------------ *)

Section File_backend_facts.
Variable env : nat -> response.
Variable config_reconnect : bool.

(** On the file backend the construction flushes the file, opens it,
    turns the foreign key checks on and returns with no transaction
    open; the connection is not pinged. *)
Theorem init_file_backend (ci : conn_info_t) (fuel : nat) :
  is_sqlite ci = true ->
  env 0 = ROk ->
  env 1 = ROk ->
  __init__ env config_reconnect (S (S fuel)) ci
  = Some (Return tt,
          mkConnection ci (Some 0) false (Some false) 2
            [Flush (host ci); Sqlite3Connect (host ci);
             Execute 0 "PRAGMA foreign_keys=1" []]).
Proof.
  intros Hb H0 H1. unfold __init__.
  repeat (progress (conn_unfold; cbn; rewrite ?Hb, ?H0, ?H1)).
  reflexivity.
Qed.


(** On the file backend the health check answers [True] in every state,
    also with no handle, and makes no driver call; so [in_transaction]
    answers the flag as it stands and changes nothing. *)
Theorem file_backend_always_connected (s : Connection) :
  is_sqlite (conn_info s) = true ->
  is_connected env s = Some (Return true, s)
  /\ forall b, _in_transaction s = Some b ->
               in_transaction env s = Some (Return b, s).
Proof.
  intros Hb. split.
  - now apply is_connected_file_backend.
  - intros b Hitx. now apply in_transaction_file_backend.
Qed.
End File_backend_facts.

Lemma init_file_backend_witness :
  __init__ env_ok true 2 (ConnInfo "lab.db" PortSqlite TlsNone)
  = Some (Return tt, idle_file_connection).
Proof.
  exact (init_file_backend env_ok true (ConnInfo "lab.db" PortSqlite TlsNone)
           0 eq_refl eq_refl eq_refl).
Defined.


Lemma file_backend_always_connected_witness :
  is_connected env_ok (unconnected (ConnInfo "lab.db" PortSqlite TlsNone))
  = Some (Return true, unconnected (ConnInfo "lab.db" PortSqlite TlsNone))
  /\ in_transaction env_ok in_file_transaction
     = Some (Return true, in_file_transaction).
Proof.
  split.
  - exact (proj1 (file_backend_always_connected env_ok
                    (unconnected (ConnInfo "lab.db" PortSqlite TlsNone))
                    eq_refl)).
  - exact (proj2 (file_backend_always_connected env_ok in_file_transaction
                    eq_refl) true eq_refl).
Defined.

(* ------------------------------------------------------------------ *)
(** ** Connection.transaction: the scoped transaction *)
(* ------------------------------------------------------------------ *)

Section Scoped_transaction_facts.
Variable env : nat -> response.
Variable config_reconnect : bool.

Lemma start_transaction_returns_open (s s1 : Connection) (fuel : nat) :
  start_transaction env config_reconnect fuel s = Some (Return tt, s1) ->
  _in_transaction s1 = Some true.
Proof.
  unfold start_transaction, bind, gets, modify.
  destruct (in_transaction env s) as [[[b|e] s']|]; try discriminate.
  destruct b; cbn; try discriminate.
  destruct (is_sqlite (conn_info s'));
    match goal with
    | |- context [query ?a ?b ?c ?d ?e ?f ?g ?h] =>
        destruct (query a b c d e f g h) as [[[x|x] s'']|]
    end; try discriminate; intros [= <-]; reflexivity.
Qed.

(** The block runs with the transaction marked open; when it returns,
    COMMIT is issued on the handle the block left and the scoped
    transaction returns what the block returned, with the transaction
    marked closed. *)
Theorem transaction_commits {A : Type} (body : M A) (s s1 s2 : Connection)
        (a : A) (h : handle) (fuel : nat) :
  start_transaction env config_reconnect (S fuel) s = Some (Return tt, s1) ->
  body s1 = Some (Return a, s2) ->
  _conn s2 = Some h ->
  env (tick s2) = ROk ->
  _in_transaction s1 = Some true
  /\ transaction env config_reconnect (S fuel) body s
     = Some (Return a,
             set_in_transaction false
               (after_statement h "COMMIT" [] false s2)).
Proof.
  intros Hs Hbody Hc He. split; [now apply (start_transaction_returns_open s s1 (S fuel))|].
  unfold transaction, bind. rewrite Hs, Hbody.
  rewrite (commit_transaction_closes_after env config_reconnect (S fuel) s2).
  now rewrite (query_returns_once env config_reconnect s2 h "COMMIT" []
                 false None fuel Hc He).
Qed.

(** When the block raises, ROLLBACK is issued on the handle the block
    left, the transaction is marked closed and the error of the block is
    raised again. *)
Theorem transaction_rolls_back {A : Type} (body : M A)
        (s s1 s2 : Connection) (e : exn) (h : handle) (fuel : nat) :
  start_transaction env config_reconnect (S fuel) s = Some (Return tt, s1) ->
  body s1 = Some (Raise e, s2) ->
  _conn s2 = Some h ->
  env (tick s2) = ROk ->
  transaction (A := A) env config_reconnect (S fuel) body s
  = Some (Raise e,
          set_in_transaction false
            (after_statement h "ROLLBACK" [] false s2)).
Proof.
  intros Hs Hbody Hc He.
  unfold transaction, bind. rewrite Hs, Hbody.
  rewrite (cancel_transaction_closes_after env config_reconnect (S fuel) s2).
  now rewrite (query_returns_once env config_reconnect s2 h "ROLLBACK" []
                 false None fuel Hc He).
Qed.

(** On the file backend, entering a scoped transaction while a
    transaction is open raises the nested-transaction error, and on the
    way out the [except] clause rolls the open transaction back and
    marks it closed; the block does not run. *)
Theorem transaction_nested_cancels_outer {A : Type} (body : M A)
        (s : Connection) (h : handle) (fuel : nat) :
  is_sqlite (conn_info s) = true ->
  _in_transaction s = Some true ->
  _conn s = Some h ->
  env (tick s) = ROk ->
  transaction (A := A) env config_reconnect (S fuel) body s
  = Some (Raise nested_transaction,
          set_in_transaction false
            (after_statement h "ROLLBACK" [] false s)).
Proof.
  intros Hb Htx Hc He.
  unfold transaction, bind.
  rewrite (start_transaction_nested_sqlite env config_reconnect s h (S fuel)
             Hb Htx Hc).
  rewrite (cancel_transaction_closes_after env config_reconnect (S fuel) s).
  now rewrite (query_returns_once env config_reconnect s h "ROLLBACK" []
                 false None fuel Hc He).
Qed.

(** Whatever the block and the driver do, the scoped transaction does
    not return with the transaction marked open. *)
Theorem transaction_returns_closed {A : Type} (body : M A)
        (s s' : Connection) (a : A) (fuel : nat) :
  transaction env config_reconnect fuel body s = Some (Return a, s') ->
  _in_transaction s' = Some false.
Proof.
  unfold transaction, bind.
  destruct (start_transaction env config_reconnect fuel s)
    as [[[[]|e] s1]|]; try discriminate.
  - destruct (body s1) as [[[b|e] s2]|]; try discriminate.
    + rewrite (commit_transaction_closes_after env config_reconnect fuel s2).
      destruct (query env config_reconnect fuel "COMMIT" [] false None s2)
        as [[[c|e] s3]|]; try discriminate.
      * intros [= _ <-]. reflexivity.
      * destruct (is_sqlite3_OperationalError e); try discriminate.
        intros [= _ <-]. reflexivity.
    + rewrite (cancel_transaction_closes_after env config_reconnect fuel s2).
      destruct (query env config_reconnect fuel "ROLLBACK" [] false None s2)
        as [[[c|e'] s3]|]; try discriminate.
      destruct (is_sqlite3_OperationalError e'); discriminate.
  - rewrite (cancel_transaction_closes_after env config_reconnect fuel s1).
    destruct (query env config_reconnect fuel "ROLLBACK" [] false None s1)
      as [[[c|e'] s3]|]; try discriminate.
    destruct (is_sqlite3_OperationalError e'); discriminate.
Qed.

(** When the COMMIT raises an error that is neither a connection loss
    nor an operational error of the file engine, the scoped transaction
    raises it: no ROLLBACK is issued and the transaction stays marked as
    the block left it. *)
Theorem transaction_commit_error {A : Type} (body : M A)
        (s s1 s2 : Connection) (a : A) (e : exn) (h : handle) (fuel : nat) :
  start_transaction env config_reconnect (S fuel) s = Some (Return tt, s1) ->
  body s1 = Some (Return a, s2) ->
  _conn s2 = Some h ->
  env (tick s2) = RRaise e ->
  connection_loss (conn_info s2) (surfaced e "COMMIT") = false ->
  is_sqlite3_OperationalError (surfaced e "COMMIT") = false ->
  transaction env config_reconnect (S fuel) body s
  = Some (Raise (surfaced e "COMMIT"),
          after_statement h "COMMIT" [] false s2)
  /\ _in_transaction (after_statement h "COMMIT" [] false s2)
     = _in_transaction s2.
Proof.
  intros Hs Hbody Hc He Hl Ho. split.
  - unfold transaction, bind. rewrite Hs, Hbody.
    rewrite (commit_transaction_closes_after env config_reconnect (S fuel) s2).
    rewrite (query_raises_once env config_reconnect s2 h "COMMIT" []
               false None e fuel Hc He Hl).
    now rewrite Ho.
  - unfold after_statement. now destruct (is_sqlite (conn_info s2)).
Qed.
End Scoped_transaction_facts.

Lemma transaction_commits_witness :
  _in_transaction in_file_transaction = Some true
  /\ transaction env_ok true 1 (insert_row env_ok) idle_file_connection
     = Some (Return tt,
             set_in_transaction false
               (after_statement 0 "COMMIT" [] false
                  (after_statement 0 "INSERT INTO session VALUES (1)" []
                     false in_file_transaction))).
Proof.
  exact (transaction_commits env_ok true (insert_row env_ok)
           idle_file_connection in_file_transaction
           (after_statement 0 "INSERT INTO session VALUES (1)" [] false
              in_file_transaction)
           tt 0 0 eq_refl eq_refl eq_refl eq_refl).
Defined.

Lemma transaction_rolls_back_witness :
  transaction env_ok true 1 failing_block idle_file_connection
  = Some (Raise (OtherError "ValueError"),
          set_in_transaction false
            (after_statement 0 "ROLLBACK" [] false in_file_transaction)).
Proof.
  exact (transaction_rolls_back env_ok true failing_block
           idle_file_connection in_file_transaction in_file_transaction
           (OtherError "ValueError") 0 0 eq_refl eq_refl eq_refl eq_refl).
Defined.

Lemma transaction_nested_cancels_outer_witness :
  transaction env_ok true 1 (insert_row env_ok) in_file_transaction
  = Some (Raise nested_transaction,
          set_in_transaction false
            (after_statement 0 "ROLLBACK" [] false in_file_transaction)).
Proof.
  exact (transaction_nested_cancels_outer env_ok true (insert_row env_ok)
           in_file_transaction 0 0 eq_refl eq_refl eq_refl eq_refl).
Defined.

Lemma transaction_returns_closed_witness :
  transaction env_ok true 1 (insert_row env_ok) idle_file_connection
  = Some (Return tt,
          set_in_transaction false
            (after_statement 0 "COMMIT" [] false
               (after_statement 0 "INSERT INTO session VALUES (1)" []
                  false in_file_transaction)))
  /\ _in_transaction
       (set_in_transaction false
          (after_statement 0 "COMMIT" [] false
             (after_statement 0 "INSERT INTO session VALUES (1)" []
                false in_file_transaction)))
     = Some false.
Proof.
  split; [reflexivity|].
  exact (transaction_returns_closed env_ok true (insert_row env_ok)
           idle_file_connection _ tt 1 eq_refl).
Defined.

Lemma transaction_commit_error_witness :
  transaction (env_raise_at 4 foreign_key_failed) true 1
              (insert_row (env_raise_at 4 foreign_key_failed))
              idle_file_connection
  = Some (Raise foreign_key_failed,
          after_statement 0 "COMMIT" [] false
            (after_statement 0 "INSERT INTO session VALUES (1)" [] false
               in_file_transaction))
  /\ _in_transaction
       (after_statement 0 "COMMIT" [] false
          (after_statement 0 "INSERT INTO session VALUES (1)" [] false
             in_file_transaction))
     = Some true.
Proof.
  exact (transaction_commit_error (env_raise_at 4 foreign_key_failed) true
           (insert_row (env_raise_at 4 foreign_key_failed))
           idle_file_connection in_file_transaction
           (after_statement 0 "INSERT INTO session VALUES (1)" [] false
              in_file_transaction)
           tt foreign_key_failed 0 0
           eq_refl eq_refl eq_refl eq_refl eq_refl eq_refl).
Defined.

(* ------------------------------------------------------------------ *)
(** ** Dependencies.load: cyclic foreign keys *)
(* ------------------------------------------------------------------ *)

Section cycle_facts.
Variables (ns : list node) (es : list edge).
Hypothesis Hwf : well_formed ns es.

(** Outside [P] every node has an edge into it from outside [P]: walking
    the edges backwards from [h] either closes a cycle or finds [n] more
    nodes. *)
Lemma backward_walk (P : list node) :
  (forall v, In v ns -> ~ In v P -> exists u, In (u, v) es /\ ~ In u P) ->
  forall (n : nat) (h : node),
    In h ns -> ~ In h P ->
    (exists u, reachable es u u)
    \/ exists h' l,
        List.length l = n
        /\ NoDup (h' :: l)
        /\ incl (h' :: l) ns
        /\ ~ In h' P
        /\ forall x, In x l -> reachable es h' x.
Proof.
  intros Hpred n h Hh HhP. destruct Hwf as (_ & _ & Hends).
  induction n as [|n IH].
  - right. exists h, []. split; [reflexivity|].
    split; [constructor; [intros [] | constructor]|].
    split; [intros x [<-|[]]; assumption|].
    split; [assumption | intros x []].
  - destruct IH as [Hc|(h' & l & Hlen & Hnd & Hincl & Hh'P & Hreach)];
      [now left|].
    destruct (Hpred h') as (u & Hu & HuP);
      [apply Hincl; now left | assumption |].
    destruct (node_eqb u h') eqn:Euh.
    { apply node_eqb_eq in Euh. subst u. left. exists h'.
      now apply reachable_edge. }
    destruct (node_mem u l) eqn:Eul.
    { apply node_mem_In in Eul. left. exists u.
      apply reachable_step with h'; [assumption | now apply Hreach]. }
    apply node_eqb_neq in Euh. apply node_mem_false in Eul.
    right. exists u, (h' :: l). split; [cbn; now rewrite Hlen|].
    split.
    { constructor; [|assumption]. intros [H|H]; [now subst | contradiction]. }
    split.
    { intros x [<-|Hx]; [now apply (Hends u h') | now apply Hincl]. }
    split; [assumption|].
    intros x [<-|Hx]; [now apply reachable_edge|].
    apply reachable_step with h'; [assumption | now apply Hreach].
Qed.

(** When the sort stops short, the edges left hold a cycle. *)
Lemma kahn_stuck_cycle (im : list (node * Z)) (P : list node) :
  im <> [] -> kahn_inv ns es im P [] -> exists u, reachable es u u.
Proof.
  intros Him (Hnd & Hincl & Hkeys & H3 & H4 & H5).
  rewrite app_nil_r in *.
  assert (Hk : exists k, In k ns /\ ~ In k P).
  { destruct im as [|[k d] im]; [congruence|]. exists k.
    pose proof (H4 k) as Hk. cbn in Hk. rewrite node_eqb_refl in Hk.
    destruct (node_mem k ns) eqn:Ek; [|discriminate].
    destruct (remaining es P k =? 0)%nat eqn:Er; [discriminate|].
    apply node_mem_In in Ek. apply Nat.eqb_neq in Er.
    split; [assumption|]. intros HP. apply Er. now apply H3. }
  destruct Hk as (k & Hkn & HkP).
  assert (Hpred : forall v, In v ns -> ~ In v P ->
                            exists u, In (u, v) es /\ ~ In u P).
  { intros v Hv HvP. apply (remaining_positive es P v).
    intros Hr. apply HvP. now apply H3. }
  destruct (backward_walk P Hpred (List.length ns) k Hkn HkP)
    as [Hc|(h' & l & Hlen & Hnd' & Hincl' & _)]; [assumption|].
  pose proof (NoDup_incl_length Hnd' Hincl') as Hle. cbn in Hle. lia.
Qed.

(** The topological sort raises [NetworkXUnfeasible] only on a graph
    with a cycle. *)
Lemma topological_sort_cycle :
  topological_sort ns es = Raise NetworkXUnfeasible ->
  exists u, reachable es u u.
Proof.
  unfold topological_sort.
  destruct (generations_spec ns es Hwf (S (List.length ns))
              (initial_indegree_map ns es) []
              (initial_zero_indegree ns es) (kahn_inv_initial ns es Hwf))
    as (r & -> & [(gs & -> & Hinv)|(-> & im & P & Him & Hinv)]).
  - cbn. lia.
  - discriminate.
  - intros _. now apply (kahn_stuck_cycle im P).
Qed.
End cycle_facts.

(** [nx.is_directed_acyclic_graph] answers whether the graph is free of
    cycles. *)
Lemma is_directed_acyclic_graph_cycle (g : DiGraph) :
  well_formed (nodes g) (edges g) ->
  (is_directed_acyclic_graph g = Return true
   /\ forall u, ~ reachable (edges g) u u)
  \/ (is_directed_acyclic_graph g = Return false
      /\ exists u, reachable (edges g) u u).
Proof.
  intros Hwf. unfold is_directed_acyclic_graph.
  destruct (topological_sort_spec (nodes g) (edges g) Hwf)
    as [(l & E & _ & _ & Hord)|(E & Hno)].
  - rewrite E. left. split; [reflexivity|]. intros u Hu.
    pose proof (ranked_reachable (edges g) (fun v => index v l) u u Hord Hu).
    lia.
  - right. rewrite E. split; [reflexivity|].
    now apply (topological_sort_cycle (nodes g) (edges g) Hwf).
Qed.

(** Once the two queries have returned, [load] returns exactly when the
    foreign keys are free of cycles; when they hold a cycle it raises
    the [DataJointError] for cyclic dependencies, and the graph it
    leaves behind holds the cycle.  It raises no error of networkx. *)
Theorem load_raises_on_cycle (c : introspection) (self : Dependencies)
        (pks : list (string * list string)) (fks : list foreign_key) :
  load_pks c = Return pks ->
  load_fks c = Return fks ->
  let es := edges (graph (fst (load c self))) in
  (snd (load c self) = Return tt /\ forall u, ~ reachable es u u)
  \/ (snd (load c self) = Raise cyclic_dependencies
      /\ exists u, reachable es u u).
Proof.
  intros Hp Hf. cbn zeta. rewrite (load_outcome c self), Hp, Hf.
  pose proof (well_formed_load c self) as Hwf. cbn zeta in Hwf.
  destruct (is_directed_acyclic_graph_cycle _ Hwf) as [[E H]|[E H]];
    rewrite E; [left | right]; split; auto.
Qed.

Lemma load_raises_on_cycle_witness :
  snd (load (file_introspection ["s"] cyclic_catalog) new_dependencies)
  = Raise cyclic_dependencies
  /\ exists u,
      reachable
        (edges (graph (fst (load (file_introspection ["s"] cyclic_catalog)
                                 new_dependencies)))) u u.
Proof.
  destruct (load_raises_on_cycle (file_introspection ["s"] cyclic_catalog)
              new_dependencies _ _ eq_refl eq_refl) as [[H _]|H].
  - vm_compute in H. discriminate H.
  - exact H.
Defined.

(* ------------------------------------------------------------------ *)
(** ** Dependencies.load: every foreign key is a path of the graph *)
(* ------------------------------------------------------------------ *)

Lemma reachable_incl (es es' : list edge) (u v : node) :
  incl es es' -> reachable es u v -> reachable es' u v.
Proof.
  intros Hincl H. induction H as [u v H|u v w H _ IH].
  - apply reachable_edge. now apply Hincl.
  - apply reachable_step with v; [now apply Hincl | assumption].
Qed.

(** The graph [load] has built when both queries returned. *)
Lemma load_graph (c : introspection) (self : Dependencies)
      (pks : list (string * list string)) (fks : list foreign_key) :
  load_pks c = Return pks ->
  load_fks c = Return fks ->
  fst (load c self)
  = fold_left (add_foreign_key pks) fks
      (mkDependencies
         (fold_left (fun g npk => add_node (Table (fst npk)) (Some (snd npk)) g)
                    pks empty_graph)
         (_node_alias_count self)).
Proof.
  intros Hp Hf. unfold load. rewrite Hp, Hf. cbn [graph _node_alias_count].
  now destruct (is_directed_acyclic_graph _) as [[]|].
Qed.

Lemma edges_add_foreign_key (pks : list (string * list string))
      (d : Dependencies) (fk : foreign_key) :
  incl (edges (graph d)) (edges (graph (add_foreign_key pks d fk))).
Proof.
  intros e He. unfold add_foreign_key.
  destruct (negb (aliased (fk_props pks fk))); cbn [graph];
    rewrite ?in_edges_add_edge, ?edges_add_node; auto.
Qed.

Lemma edges_add_foreign_keys (pks : list (string * list string))
      (fks : list foreign_key) :
  forall d : Dependencies,
    incl (edges (graph d))
         (edges (graph (fold_left (add_foreign_key pks) fks d))).
Proof.
  induction fks as [|fk fks IH]; intros d; cbn; [apply incl_refl|].
  eapply incl_tran; [apply (edges_add_foreign_key pks d fk) | apply IH].
Qed.

(** One foreign key: the referencing table can be reached from the
    referenced table, by one edge, or by two through the alias node. *)
Lemma add_foreign_key_path (pks : list (string * list string))
      (d : Dependencies) (fk : foreign_key) :
  reachable (edges (graph (add_foreign_key pks d fk)))
            (Table (fk_referenced_table fk))
            (Table (fk_referencing_table fk)).
Proof.
  unfold add_foreign_key.
  destruct (negb (aliased (fk_props pks fk))); cbn [graph].
  - apply reachable_edge. rewrite in_edges_add_edge. now left.
  - apply reachable_step with (Alias (_node_alias_count d)).
    + rewrite !in_edges_add_edge. right. now left.
    + apply reachable_edge. rewrite in_edges_add_edge. now left.
Qed.

Lemma add_foreign_keys_path (pks : list (string * list string))
      (fks : list foreign_key) (fk : foreign_key) :
  In fk fks ->
  forall d : Dependencies,
    reachable (edges (graph (fold_left (add_foreign_key pks) fks d)))
              (Table (fk_referenced_table fk))
              (Table (fk_referencing_table fk)).
Proof.
  induction fks as [|fk' fks IH]; intros Hin d; [destruct Hin|].
  cbn. destruct Hin as [->|Hin]; [|now apply IH].
  eapply reachable_incl; [apply edges_add_foreign_keys|].
  apply add_foreign_key_path.
Qed.

Lemma load_foreign_key_path (c : introspection) (self : Dependencies)
      (pks : list (string * list string)) (fks : list foreign_key)
      (fk : foreign_key) :
  load_pks c = Return pks ->
  load_fks c = Return fks ->
  In fk fks ->
  reachable (edges (graph (fst (load c self))))
            (Table (fk_referenced_table fk))
            (Table (fk_referencing_table fk)).
Proof.
  intros Hp Hf Hin. rewrite (load_graph c self pks fks Hp Hf).
  now apply add_foreign_keys_path.
Qed.

(** After a [load] that returned, every foreign key shows in the
    traversals: its referencing table is listed by [descendants] of the
    referenced table, and its referenced table by [ancestors] of the
    referencing table, aliased or not. *)
Theorem foreign_key_in_descendants (c : introspection)
        (self0 : Dependencies) (fks : list foreign_key) (fk : foreign_key) :
  let self := fst (load c self0) in
  load_fks c = Return fks ->
  snd (load c self0) = Return tt ->
  In fk fks ->
  (exists l,
      descendants self (Table (fk_referenced_table fk))
      = Return (Table (fk_referenced_table fk) :: l)
      /\ In (Table (fk_referencing_table fk)) l)
  /\ (exists l,
         ancestors self (Table (fk_referencing_table fk))
         = Return (Table (fk_referencing_table fk) :: l)
         /\ In (Table (fk_referenced_table fk)) l).
Proof.
  intros self Hf Hok Hin.
  destruct (load_pks c) as [pks|e] eqn:Hp;
    [|rewrite (load_outcome c self0), Hp in Hok; discriminate Hok].
  pose proof (load_foreign_key_path c self0 pks fks fk Hp Hf Hin) as Hpath.
  destruct (load_ok_sorted c self0 Hok) as (l0 & Hsorted).
  pose proof (well_formed_load c self0) as Hwf. cbn zeta in Hwf.
  destruct (reachable_in_nodes _ _ _ _ Hwf Hpath) as [Hu Hv].
  split.
  - destruct (descendants_sorted self l0 _ Hwf Hsorted Hu)
      as (l & E & _ & Hl & _).
    exists l. split; [exact E | now apply Hl].
  - destruct (ancestors_sorted self l0 _ Hwf Hsorted Hv)
      as (l & E & _ & Hl & _).
    exists l. split; [exact E | now apply Hl].
Qed.

Lemma foreign_key_in_descendants_witness :
  (exists l,
      descendants (fst (load (file_introspection ["s"] aliased_catalog)
                             new_dependencies))
                  (Table "`s`.`A`")
      = Return (Table "`s`.`A`" :: l)
      /\ In (Table "`s`.`B`") l)
  /\ (exists l,
         ancestors (fst (load (file_introspection ["s"] aliased_catalog)
                              new_dependencies))
                   (Table "`s`.`B`")
         = Return (Table "`s`.`B`" :: l)
         /\ In (Table "`s`.`A`") l).
Proof.
  apply (foreign_key_in_descendants (file_introspection ["s"] aliased_catalog)
           new_dependencies
           [ForeignKey "`s`.`B`" "`s`.`A`" [("owner_id", "id")]]
           (ForeignKey "`s`.`B`" "`s`.`A`" [("owner_id", "id")])).
  - reflexivity.
  - vm_compute. reflexivity.
  - now left.
Defined.

(** A foreign key of a table to itself makes [load] raise the error for
    cyclic dependencies. *)
Theorem load_rejects_self_reference (c : introspection)
        (self : Dependencies) (pks : list (string * list string))
        (fks : list foreign_key) (fk : foreign_key) :
  load_pks c = Return pks ->
  load_fks c = Return fks ->
  In fk fks ->
  fk_referencing_table fk = fk_referenced_table fk ->
  snd (load c self) = Raise cyclic_dependencies.
Proof.
  intros Hp Hf Hin Hself.
  pose proof (load_foreign_key_path c self pks fks fk Hp Hf Hin) as Hpath.
  rewrite Hself in Hpath.
  rewrite (load_outcome c self), Hp, Hf.
  pose proof (well_formed_load c self) as Hwf. cbn zeta in Hwf.
  destruct (is_directed_acyclic_graph_cycle _ Hwf) as [[E H]|[E H]];
    rewrite E; [|reflexivity].
  now destruct (H _ Hpath).
Qed.

Lemma load_rejects_self_reference_witness :
  snd (load (file_introspection ["s"] self_reference_catalog)
            new_dependencies)
  = Raise cyclic_dependencies.
Proof.
  apply (load_rejects_self_reference
           (file_introspection ["s"] self_reference_catalog)
           new_dependencies
           [("`s`.`T`", ["id"])]
           [ForeignKey "`s`.`T`" "`s`.`T`" [("parent_id", "id")]]
           (ForeignKey "`s`.`T`" "`s`.`T`" [("parent_id", "id")])).
  - reflexivity.
  - reflexivity.
  - now left.
  - reflexivity.
Defined.

(** In a loaded graph [descendants] and [ancestors] are converse: [v] is
    listed among the descendants of [u] exactly when [u] is listed
    among the ancestors of [v]. *)
Theorem descendants_ancestors_converse (c : introspection)
        (self0 : Dependencies) (u v : node) :
  let self := fst (load c self0) in
  snd (load c self0) = Return tt ->
  In u (nodes (graph self)) ->
  In v (nodes (graph self)) ->
  exists lu lv,
    descendants self u = Return (u :: lu)
    /\ ancestors self v = Return (v :: lv)
    /\ (In v lu <-> In u lv).
Proof.
  intros self Hok Hu Hv.
  destruct (load_ok_sorted c self0 Hok) as (l0 & Hsorted).
  pose proof (well_formed_load c self0) as Hwf. cbn zeta in Hwf.
  destruct (descendants_sorted self l0 u Hwf Hsorted Hu)
    as (lu & Eu & _ & Hlu & _).
  destruct (ancestors_sorted self l0 v Hwf Hsorted Hv)
    as (lv & Ev & _ & Hlv & _).
  exists lu, lv. split; [exact Eu|]. split; [exact Ev|].
  now rewrite Hlu, Hlv.
Qed.

Lemma descendants_ancestors_converse_witness :
  exists lu lv,
    descendants (fst (load (file_introspection ["s"] chain_catalog)
                           new_dependencies))
                (Table "`s`.`A`")
    = Return (Table "`s`.`A`" :: lu)
    /\ ancestors (fst (load (file_introspection ["s"] chain_catalog)
                            new_dependencies))
                 (Table "`s`.`C`")
       = Return (Table "`s`.`C`" :: lv)
    /\ (In (Table "`s`.`C`") lu <-> In (Table "`s`.`A`") lv).
Proof.
  apply (descendants_ancestors_converse
           (file_introspection ["s"] chain_catalog) new_dependencies
           (Table "`s`.`A`") (Table "`s`.`C`")).
  - vm_compute. reflexivity.
  - vm_compute. auto.
  - vm_compute. auto.
Defined.

(* ------------------------------------------------------------------ *)
(** ** Dependencies: parents and children *)
(* ------------------------------------------------------------------ *)

(** Assigning to keys that are new and all different appends the items
    in order. *)
Lemma fold_dict_set_fresh {A V : Type} (key : A -> node) (val : A -> V)
      (l : list A) :
  forall acc : list (node * V),
    NoDup (map key l) ->
    (forall a, In a l -> ~ In (key a) (map fst acc)) ->
    fold_left (fun d a => dict_set node_eqb (key a) (val a) d) l acc
    = acc ++ map (fun a => (key a, val a)) l.
Proof.
  induction l as [|a l IH]; intros acc Hnd Hfresh; cbn.
  - now rewrite app_nil_r.
  - inversion Hnd as [|? ? Ha Hnd']; subst.
    assert (E : dict_set node_eqb (key a) (val a) acc
                = acc ++ [(key a, val a)]).
    { apply (dict_set_absent node_eqb).
      apply (dict_get_None node_eqb node_eqb_eq). apply Hfresh. now left. }
    rewrite E, IH; [now rewrite <- app_assoc | assumption |].
    intros b Hb. rewrite map_app, in_app_iff. cbn.
    intros [H|[H|[]]].
    + apply (Hfresh b); [now right | assumption].
    + apply Ha. rewrite H. now apply in_map.
Qed.

(** The edges into one node come from different nodes, and the edges
    out of one node go to different nodes. *)
Lemma NoDup_sources (v : node) (f : props -> bool)
      (d : list (edge * props)) :
  NoDup (map fst d) ->
  NoDup (map (fun ep : edge * props => fst (fst ep))
             (filter (fun ep => node_eqb (snd (fst ep)) v && f (snd ep)) d)).
Proof.
  induction d as [|[[a b] p] d IH]; intros Hnd; cbn; [constructor|].
  inversion Hnd as [|? ? Hk Hnd']; subst.
  destruct (node_eqb b v && f p) eqn:E; [|now apply IH].
  cbn. constructor; [|now apply IH].
  intros Hin. apply in_map_iff in Hin.
  destruct Hin as ([[a' b'] p'] & Ha & Hin). cbn in Ha. subst a'.
  apply filter_In in Hin. destruct Hin as [Hin Hc]. cbn in Hc.
  apply andb_true_iff in Hc. destruct Hc as [Hb' _].
  apply andb_true_iff in E. destruct E as [Hb _].
  apply node_eqb_eq in Hb, Hb'. subst b b'.
  apply Hk. change (a, v) with (fst ((a, v), p')). now apply in_map.
Qed.

Lemma NoDup_targets (u : node) (f : props -> bool)
      (d : list (edge * props)) :
  NoDup (map fst d) ->
  NoDup (map (fun ep : edge * props => snd (fst ep))
             (filter (fun ep => node_eqb (fst (fst ep)) u && f (snd ep)) d)).
Proof.
  induction d as [|[[a b] p] d IH]; intros Hnd; cbn; [constructor|].
  inversion Hnd as [|? ? Hk Hnd']; subst.
  destruct (node_eqb a u && f p) eqn:E; [|now apply IH].
  cbn. constructor; [|now apply IH].
  intros Hin. apply in_map_iff in Hin.
  destruct Hin as ([[a' b'] p'] & Hb & Hin). cbn in Hb. subst b'.
  apply filter_In in Hin. destruct Hin as [Hin Hc]. cbn in Hc.
  apply andb_true_iff in Hc. destruct Hc as [Ha' _].
  apply andb_true_iff in E. destruct E as [Ha _].
  apply node_eqb_eq in Ha, Ha'. subst a a'.
  apply Hk. change (u, b) with (fst ((u, b), p')). now apply in_map.
Qed.

(** In a graph without parallel edges the dict comprehensions of
    [parents] and [children] never assign to a key twice. *)
Lemma parents_items (self : Dependencies) (v : node) (flt : option bool) :
  NoDup (edges (graph self)) ->
  parents self v flt
  = map (fun ep : edge * props => (fst (fst ep), snd ep))
        (filter (fun ep => node_eqb (snd (fst ep)) v
                           && primary_matches flt (snd ep))
                (edge_data (graph self))).
Proof.
  intros Hnd. unfold parents.
  exact (fold_dict_set_fresh (fun ep : edge * props => fst (fst ep)) snd _ []
           (NoDup_sources v (primary_matches flt) _ Hnd)
           (fun _ _ H => H)).
Qed.

Lemma children_items (self : Dependencies) (u : node) (flt : option bool) :
  NoDup (edges (graph self)) ->
  children self u flt
  = map (fun ep : edge * props => (snd (fst ep), snd ep))
        (filter (fun ep => node_eqb (fst (fst ep)) u
                           && primary_matches flt (snd ep))
                (edge_data (graph self))).
Proof.
  intros Hnd. unfold children.
  exact (fold_dict_set_fresh (fun ep : edge * props => snd (fst ep)) snd _ []
           (NoDup_targets u (primary_matches flt) _ Hnd)
           (fun _ _ H => H)).
Qed.

Lemma in_parents (self : Dependencies) (u v : node) (p : props)
      (flt : option bool) :
  NoDup (edges (graph self)) ->
  In (u, p) (parents self v flt)
  <-> In ((u, v), p) (edge_data (graph self))
      /\ primary_matches flt p = true.
Proof.
  intros Hnd. rewrite (parents_items self v flt Hnd), in_map_iff. split.
  - intros ([[a b] q] & [= <- <-] & Hin). apply filter_In in Hin.
    cbn in Hin. destruct Hin as [Hin Hc].
    apply andb_true_iff in Hc. destruct Hc as [Hb Hq].
    apply node_eqb_eq in Hb. subst b. now split.
  - intros [Hin Hq]. exists ((u, v), p). split; [reflexivity|].
    apply filter_In. split; [assumption|]. cbn.
    now rewrite node_eqb_refl, Hq.
Qed.

Lemma in_children (self : Dependencies) (u v : node) (p : props)
      (flt : option bool) :
  NoDup (edges (graph self)) ->
  In (v, p) (children self u flt)
  <-> In ((u, v), p) (edge_data (graph self))
      /\ primary_matches flt p = true.
Proof.
  intros Hnd. rewrite (children_items self u flt Hnd), in_map_iff. split.
  - intros ([[a b] q] & [= <- <-] & Hin). apply filter_In in Hin.
    cbn in Hin. destruct Hin as [Hin Hc].
    apply andb_true_iff in Hc. destruct Hc as [Ha Hq].
    apply node_eqb_eq in Ha. subst a. now split.
  - intros [Hin Hq]. exists ((u, v), p). split; [reflexivity|].
    apply filter_In. split; [assumption|]. cbn.
    now rewrite node_eqb_refl, Hq.
Qed.

(** For two nodes [u] and [v] of the graph [load] has built, [u] is a
    parent of [v] with attributes [p] exactly when [v] is a child of [u]
    with attributes [p], which is when the graph holds the edge from [u]
    to [v] with attributes [p] and [p] passes the [primary] filter; no
    parent and no child is listed twice.  (Both are taken among the
    nodes: on a name that is not a node, networkx's [in_edges] and
    [out_edges] read the name as a collection of nodes.) *)
Theorem parents_children_converse (c : introspection)
        (self0 : Dependencies) (u v : node) (p : props)
        (flt : option bool) :
  let self := fst (load c self0) in
  In u (nodes (graph self)) ->
  In v (nodes (graph self)) ->
  (In (u, p) (parents self v flt) <-> In (v, p) (children self u flt))
  /\ (In (u, p) (parents self v flt)
      <-> dict_get edge_eqb (u, v) (edge_data (graph self)) = Some p
          /\ primary_matches flt p = true)
  /\ NoDup (map fst (parents self v flt))
  /\ NoDup (map fst (children self u flt)).
Proof.
  intros self _ _.
  pose proof (well_formed_load c self0) as (_ & Hnd & _). fold self in Hnd.
  split; [now rewrite (in_parents self u v p flt Hnd),
            (in_children self u v p flt Hnd)|].
  split.
  - rewrite (in_parents self u v p flt Hnd). split; intros [H Hq];
      (split; [|assumption]).
    + now apply (dict_get_In edge_eqb edge_eqb_eq).
    + now apply (dict_get_Some_In edge_eqb edge_eqb_eq).
  - split.
    + rewrite (parents_items self v flt Hnd), map_map. cbn [fst].
      now apply NoDup_sources.
    + rewrite (children_items self u flt Hnd), map_map. cbn [fst].
      now apply NoDup_targets.
Qed.

Lemma parents_children_converse_witness :
  In (Table "`s`.`A`", Props true [("id", "id")] false false)
     (parents (fst (load (file_introspection ["s"] chain_catalog)
                         new_dependencies))
              (Table "`s`.`B`") (Some true))
  <-> In (Table "`s`.`B`", Props true [("id", "id")] false false)
         (children (fst (load (file_introspection ["s"] chain_catalog)
                              new_dependencies))
                   (Table "`s`.`A`") (Some true)).
Proof.
  refine (proj1 (parents_children_converse
                   (file_introspection ["s"] chain_catalog) new_dependencies
                   (Table "`s`.`A`") (Table "`s`.`B`")
                   (Props true [("id", "id")] false false) (Some true) _ _)).
  - vm_compute. auto.
  - vm_compute. auto.
Defined.

(** In a loaded graph every child of a node is listed among its
    descendants and every parent among its ancestors. *)
Theorem children_in_descendants (c : introspection) (self0 : Dependencies)
        (u w : node) (flt : option bool) :
  let self := fst (load c self0) in
  snd (load c self0) = Return tt ->
  In u (nodes (graph self)) ->
  (In w (map fst (children self u flt)) ->
   exists l, descendants self u = Return (u :: l) /\ In w l)
  /\ (In w (map fst (parents self u flt)) ->
      exists l, ancestors self u = Return (u :: l) /\ In w l).
Proof.
  intros self Hok Hu.
  destruct (load_ok_sorted c self0 Hok) as (l0 & Hsorted).
  pose proof (well_formed_load c self0) as Hwf. cbn zeta in Hwf.
  fold self in Hwf, Hsorted.
  pose proof Hwf as (_ & Hnd & _).
  split; intros Hin; apply in_map_iff in Hin;
    destruct Hin as ([w' p] & Hw & Hin); cbn in Hw; subst w'.
  - apply (in_children self u w p flt Hnd) in Hin. destruct Hin as [Hin _].
    destruct (descendants_sorted self l0 u Hwf Hsorted Hu)
      as (l & E & _ & Hl & _).
    exists l. split; [exact E|]. apply Hl. apply reachable_edge.
    change (u, w) with (fst ((u, w), p)). now apply in_map.
  - apply (in_parents self w u p flt Hnd) in Hin. destruct Hin as [Hin _].
    destruct (ancestors_sorted self l0 u Hwf Hsorted Hu)
      as (l & E & _ & Hl & _).
    exists l. split; [exact E|]. apply Hl. apply reachable_edge.
    change (w, u) with (fst ((w, u), p)). now apply in_map.
Qed.

Lemma children_in_descendants_witness :
  exists l,
    descendants (fst (load (file_introspection ["s"] aliased_catalog)
                           new_dependencies))
                (Table "`s`.`A`")
    = Return (Table "`s`.`A`" :: l)
    /\ In (Alias 0) l.
Proof.
  refine (proj1 (children_in_descendants
                   (file_introspection ["s"] aliased_catalog)
                   new_dependencies (Table "`s`.`A`") (Alias 0) None _ _) _).
  - vm_compute. reflexivity.
  - vm_compute. auto.
  - vm_compute. auto.
Defined.

(* ------------------------------------------------------------------ *)
(** ** Dependencies.load: the alias nodes *)
(* ------------------------------------------------------------------ *)

Lemma nodes_add_node (n : node) (pk : option (list string)) (g : DiGraph) :
  nodes (add_node n pk g)
  = if node_mem n (nodes g) then nodes g else nodes g ++ [n].
Proof.
  unfold add_node, nodes.
  destruct (dict_get node_eqb n (node_data g)) as [a|] eqn:E.
  - assert (Hm : node_mem n (map fst (node_data g)) = true).
    { apply node_mem_In.
      apply (dict_get_Some_In node_eqb node_eqb_eq) in E.
      change n with (fst (n, a)). now apply in_map. }
    rewrite Hm. destruct pk; [|reflexivity]. cbn [node_data].
    rewrite (dict_keys_set node_eqb). unfold dict_mem.
    now rewrite E.
  - assert (Hm : node_mem n (map fst (node_data g)) = false).
    { apply node_mem_false.
      now apply (dict_get_None node_eqb node_eqb_eq). }
    rewrite Hm. cbn [node_data].
    rewrite (dict_keys_set node_eqb). unfold dict_mem.
    now rewrite E.
Qed.

Lemma nodes_add_edge (u v : node) (p : props) (g : DiGraph) :
  nodes (add_edge u v p g) = nodes (add_node v None (add_node u None g)).
Proof. reflexivity. Qed.

Lemma alias_node_count_add_node (n : node) (pk : option (list string))
      (g : DiGraph) :
  alias_node_count (add_node n pk g)
  = alias_node_count g
    + (if is_alias n && negb (node_mem n (nodes g)) then 1 else 0).
Proof.
  unfold alias_node_count. rewrite nodes_add_node.
  destruct (node_mem n (nodes g)); [rewrite andb_false_r; lia|].
  rewrite andb_true_r, filter_app, length_app. cbn.
  now destruct (is_alias n).
Qed.

Lemma alias_node_count_add_table (t : string) (pk : option (list string))
      (g : DiGraph) :
  alias_node_count (add_node (Table t) pk g) = alias_node_count g.
Proof. rewrite alias_node_count_add_node. cbn. lia. Qed.

Lemma alias_node_count_add_present (n : node) (pk : option (list string))
      (g : DiGraph) :
  In n (nodes g) ->
  alias_node_count (add_node n pk g) = alias_node_count g.
Proof.
  intros H. rewrite alias_node_count_add_node.
  rewrite (proj2 (node_mem_In n (nodes g)) H), andb_false_r. lia.
Qed.

Lemma alias_node_count_add_edge (u v : node) (p : props) (g : DiGraph) :
  alias_node_count (add_edge u v p g)
  = alias_node_count (add_node v None (add_node u None g)).
Proof. reflexivity. Qed.

(** One foreign key takes the next label when it is aliased and none
    otherwise. *)
Lemma alias_labels_add_foreign_key (pks : list (string * list string))
      (first : nat) (self : Dependencies) (fk : foreign_key) :
  alias_labels_from first self ->
  alias_labels_from first (add_foreign_key pks self fk)
  /\ _node_alias_count (add_foreign_key pks self fk)
     = _node_alias_count self
       + (if aliased (fk_props pks fk) then 1 else 0).
Proof.
  intros (Hle & Hin & Hcount). unfold add_foreign_key, alias_labels_from.
  destruct (aliased (fk_props pks fk)); cbn [negb graph _node_alias_count].
  - set (a := Alias (_node_alias_count self)).
    assert (Hfresh : node_mem a (nodes (graph self)) = false).
    { apply node_mem_false. intros H. apply Hin in H. lia. }
    split; [|lia]. split; [lia|]. split.
    + intros i. rewrite !in_nodes_add_edge, in_nodes_add_node, Hin.
      unfold a. split.
      * intros [H|[H|[H|[H|[H|H]]]]]; try discriminate H;
          try (injection H as ->; lia). lia.
      * intros H.
        destruct (Nat.eq_dec i (_node_alias_count self)) as [->|Hne];
          [now left | do 4 right; lia].
    + rewrite alias_node_count_add_edge, alias_node_count_add_table.
      rewrite alias_node_count_add_present
        by (rewrite in_nodes_add_edge; auto).
      rewrite alias_node_count_add_edge.
      rewrite alias_node_count_add_present
        by (rewrite !in_nodes_add_node; auto).
      rewrite alias_node_count_add_table, alias_node_count_add_node.
      rewrite Hfresh. cbn [is_alias a andb negb]. lia.
  - split; [|lia]. split; [assumption|]. split.
    + intros i. rewrite in_nodes_add_edge, <- Hin.
      split; [intros [H|[H|H]]; [discriminate H | discriminate H | exact H]
             | auto].
    + rewrite alias_node_count_add_edge, !alias_node_count_add_table.
      exact Hcount.
Qed.

Lemma alias_labels_add_foreign_keys (pks : list (string * list string))
      (first : nat) (fks : list foreign_key) :
  forall self : Dependencies,
    alias_labels_from first self ->
    alias_labels_from first (fold_left (add_foreign_key pks) fks self)
    /\ _node_alias_count (fold_left (add_foreign_key pks) fks self)
       = _node_alias_count self
         + List.length (filter (fun fk => aliased (fk_props pks fk)) fks).
Proof.
  induction fks as [|fk fks IH]; intros self H; cbn [fold_left filter].
  - split; [assumption | cbn; lia].
  - destruct (alias_labels_add_foreign_key pks first self fk H) as [H1 E1].
    destruct (IH _ H1) as [H2 E2]. split; [assumption|].
    rewrite E2, E1. destruct (aliased (fk_props pks fk)); cbn; lia.
Qed.

Lemma alias_node_count_tables (pks : list (string * list string)) :
  forall g : DiGraph,
    alias_node_count
      (fold_left (fun g npk => add_node (Table (fst npk)) (Some (snd npk)) g)
                 pks g)
    = alias_node_count g.
Proof.
  induction pks as [|[n pk] pks IH]; intros g; cbn [fold_left];
    [reflexivity|].
  rewrite IH, alias_node_count_add_node. cbn. lia.
Qed.

Lemma no_alias_labels (g : DiGraph) (n : nat) :
  (forall i, ~ In (Alias i) (nodes g)) ->
  alias_node_count g = 0 ->
  alias_labels_from n (mkDependencies g n).
Proof.
  intros Hno H0. unfold alias_labels_from. cbn [graph _node_alias_count].
  split; [lia|]. split; [|now rewrite H0].
  intros i. split; [intros H; now destruct (Hno i) | lia].
Qed.

(** The alias labels of a [load] are the numbers from the counter it
    found to the counter it leaves, each on one node: no label of an
    earlier [load] is used again, and as many labels are taken as there
    are aliased foreign keys. *)
Theorem alias_labels_of_load (c : introspection) (self : Dependencies) :
  let d := fst (load c self) in
  _node_alias_count self <= _node_alias_count d
  /\ (forall i, In (Alias i) (nodes (graph d))
                <-> _node_alias_count self <= i < _node_alias_count d)
  /\ alias_node_count (graph d)
     = _node_alias_count d - _node_alias_count self
  /\ (forall pks fks,
         load_pks c = Return pks ->
         load_fks c = Return fks ->
         _node_alias_count d
         = _node_alias_count self
           + List.length (filter (fun fk => aliased (fk_props pks fk)) fks)).
Proof.
  cbn zeta.
  assert (H : alias_labels_from (_node_alias_count self) (fst (load c self))
              /\ forall pks fks,
                  load_pks c = Return pks ->
                  load_fks c = Return fks ->
                  _node_alias_count (fst (load c self))
                  = _node_alias_count self
                    + List.length
                        (filter (fun fk => aliased (fk_props pks fk)) fks)).
  { destruct (load_pks c) as [pks|e] eqn:Hp.
    2:{ unfold load. rewrite Hp. cbn [fst _node_alias_count].
        split; [|intros ? ? [=]].
        apply no_alias_labels; [intros i []|reflexivity]. }
    destruct (load_fks c) as [fks|e] eqn:Hf.
    2:{ unfold load. rewrite Hp, Hf. cbn [fst graph _node_alias_count].
        split; [|intros ? ? _ [=]].
        apply no_alias_labels.
        - intros i H. apply tables_only in H. destruct H.
        - now rewrite alias_node_count_tables. }
    rewrite (load_graph c self pks fks Hp Hf).
    set (d0 := mkDependencies _ (_node_alias_count self)).
    assert (H0 : alias_labels_from (_node_alias_count self) d0).
    { apply no_alias_labels.
      - intros i H. apply tables_only in H. destruct H.
      - now rewrite alias_node_count_tables. }
    destruct (alias_labels_add_foreign_keys pks _ fks d0 H0) as [H1 E].
    split; [exact H1|]. intros pks' fks' [= <-] [= <-]. exact E. }
  destruct H as [(H1 & H2 & H3) H4].
  split; [exact H1|]. split; [exact H2|]. split; [lia | exact H4].
Qed.

Lemma alias_labels_of_load_witness :
  _node_alias_count
    (fst (load (file_introspection ["s"] aliased_catalog)
               (mkDependencies empty_graph 5)))
  = 5 + List.length
          (filter (fun fk => aliased (fk_props
                                        [("`s`.`A`", ["id"]);
                                         ("`s`.`B`", ["id"])] fk))
                  [ForeignKey "`s`.`B`" "`s`.`A`" [("owner_id", "id")]]).
Proof.
  exact (proj2 (proj2 (proj2
           (alias_labels_of_load (file_introspection ["s"] aliased_catalog)
                                 (mkDependencies empty_graph 5))))
           _ _ eq_refl eq_refl).
Defined.

(** Assigning to a key that a filter on the keys rejects leaves the
    filtered items as they were. *)
Lemma filter_dict_set_reject {K V : Type} (eqb : K -> K -> bool)
      (eqb_eq : forall a b, eqb a b = true <-> a = b)
      (f : K * V -> bool) (k : K) (v : V) (d : list (K * V)) :
  (forall v', f (k, v') = false) ->
  filter f (dict_set eqb k v d) = filter f d.
Proof.
  intros Hf. induction d as [|[k' v'] d IH]; cbn.
  - now rewrite Hf.
  - destruct (eqb k k') eqn:E; cbn.
    + apply eqb_eq in E. subst k'. now rewrite !Hf.
    + now rewrite IH.
Qed.

Lemma edge_data_add_edge (u v : node) (p : props) (g : DiGraph) :
  edge_data (add_edge u v p g) = dict_set edge_eqb (u, v) p (edge_data g).
Proof.
  unfold add_edge. cbn [edge_data]. now rewrite !edge_data_add_node.
Qed.

(** No edge of a well-formed graph touches a node that is not in it. *)
Lemma filter_edges_absent (g : DiGraph) (a : node) :
  well_formed (nodes g) (edges g) ->
  ~ In a (nodes g) ->
  filter (fun ep : edge * props => node_eqb (snd (fst ep)) a) (edge_data g)
  = []
  /\ filter (fun ep : edge * props => node_eqb (fst (fst ep)) a)
            (edge_data g)
     = [].
Proof.
  intros (_ & _ & Hends) Ha.
  assert (H : forall ep, In ep (edge_data g) ->
                         node_eqb (snd (fst ep)) a = false
                         /\ node_eqb (fst (fst ep)) a = false).
  { intros [[u v] p] Hin. cbn.
    assert (Huv : In (u, v) (edges g)).
    { change (u, v) with (fst ((u, v), p)). now apply in_map. }
    destruct (Hends u v Huv) as [Hu Hv].
    split; apply node_eqb_neq; intros ->; contradiction. }
  split.
  - induction (edge_data g) as [|ep l IH]; [reflexivity|]. cbn.
    rewrite (proj1 (H ep (or_introl eq_refl))).
    apply IH. intros ep' Hin. apply H. now right.
  - induction (edge_data g) as [|ep l IH]; [reflexivity|]. cbn.
    rewrite (proj2 (H ep (or_introl eq_refl))).
    apply IH. intros ep' Hin. apply H. now right.
Qed.

(** One foreign key leaves the edges of the alias nodes in place and,
    when it is aliased, links its own alias node. *)
Lemma alias_linked_add_foreign_key (pks : list (string * list string))
      (fks : list foreign_key) (self : Dependencies) (fk : foreign_key) :
  In fk fks ->
  well_formed (nodes (graph self)) (edges (graph self)) ->
  alias_bound self ->
  alias_linked pks fks (graph self) ->
  alias_linked pks fks (graph (add_foreign_key pks self fk)).
Proof.
  intros Hfk Hwf Hb Hl.
  destruct (aliased (fk_props pks fk)) eqn:Ha.
  - destruct (add_foreign_key_aliased pks self fk Hwf Hb Ha)
      as (Hfresh & _ & Hedges & _).
    intros i Hi.
    assert (Hi' : i = _node_alias_count self \/ In (Alias i) (nodes (graph self))).
    { revert Hi. unfold add_foreign_key. rewrite Ha. cbn [negb graph].
      rewrite !in_nodes_add_edge, in_nodes_add_node.
      intros [H|[H|[H|[H|[H|H]]]]]; try discriminate H;
        try (injection H as ->; now left). now right. }
    rewrite Hedges, !filter_app. cbn [filter fst snd].
    destruct Hi' as [->|Hi'].
    + exists fk. split; [assumption|]. split; [assumption|].
      destruct (filter_edges_absent (graph self) _ Hwf Hfresh) as [E1 E2].
      rewrite E1, E2, node_eqb_refl. cbn. auto.
    + destruct (Hl i Hi') as (fk' & Hin' & Ha' & E1 & E2).
      exists fk'. split; [assumption|]. split; [assumption|].
      rewrite E1, E2.
      assert (Hne : Nat.eqb (_node_alias_count self) i = false).
      { apply Nat.eqb_neq. intros E. subst i. contradiction. }
      cbn. rewrite Hne. cbn. auto.
  - intros i Hi.
    assert (Hi' : In (Alias i) (nodes (graph self))).
    { revert Hi. unfold add_foreign_key. rewrite Ha. cbn [negb graph].
      rewrite in_nodes_add_edge.
      intros [H|[H|H]]; [discriminate H | discriminate H | exact H]. }
    destruct (Hl i Hi') as (fk' & Hin' & Ha' & E1 & E2).
    exists fk'. split; [assumption|]. split; [assumption|].
    unfold add_foreign_key. rewrite Ha. cbn [negb graph].
    rewrite edge_data_add_edge.
    rewrite !(filter_dict_set_reject edge_eqb edge_eqb_eq) by reflexivity.
    now split.
Qed.

Lemma alias_linked_add_foreign_keys (pks : list (string * list string))
      (all : list foreign_key) (fks : list foreign_key) :
  incl fks all ->
  forall self : Dependencies,
    well_formed (nodes (graph self)) (edges (graph self)) ->
    alias_bound self ->
    alias_linked pks all (graph self) ->
    alias_linked pks all (graph (fold_left (add_foreign_key pks) fks self)).
Proof.
  induction fks as [|fk fks IH]; intros Hincl self Hwf Hb Hl;
    cbn [fold_left]; [assumption|].
  apply IH.
  - intros x Hx. apply Hincl. now right.
  - now apply well_formed_add_foreign_key.
  - now apply alias_bound_add_foreign_key.
  - apply alias_linked_add_foreign_key; try assumption.
    apply Hincl. now left.
Qed.

(** In the graph [load] has built, every alias node stands for one
    aliased foreign key: its one parent is the referenced table, its
    one child is the referencing table, and both edges carry the
    attributes of the foreign key. *)
Theorem alias_node_links (c : introspection) (self0 : Dependencies)
        (pks : list (string * list string)) (fks : list foreign_key)
        (i : nat) :
  let self := fst (load c self0) in
  load_pks c = Return pks ->
  load_fks c = Return fks ->
  In (Alias i) (nodes (graph self)) ->
  exists fk,
    In fk fks
    /\ aliased (fk_props pks fk) = true
    /\ parents self (Alias i) None
       = [(Table (fk_referenced_table fk), fk_props pks fk)]
    /\ children self (Alias i) None
       = [(Table (fk_referencing_table fk), fk_props pks fk)].
Proof.
  intros self Hp Hf Hi. unfold self in *.
  rewrite (load_graph c self0 pks fks Hp Hf) in *.
  destruct (load_loop_invariant pks fks (_node_alias_count self0))
    as [Hwf Hb].
  cbn zeta in Hwf, Hb.
  set (d0 := mkDependencies _ (_node_alias_count self0)) in *.
  assert (Hl0 : alias_linked pks fks (graph d0)).
  { intros j Hj. unfold d0 in Hj. cbn [graph] in Hj.
    apply tables_only in Hj. destruct Hj. }
  assert (Hwf0 : well_formed (nodes (graph d0)) (edges (graph d0))
                 /\ alias_bound d0).
  { exact (load_loop_invariant pks [] (_node_alias_count self0)). }
  destruct Hwf0 as [Hwf0 Hb0].
  destruct (alias_linked_add_foreign_keys pks fks fks (incl_refl _) d0
              Hwf0 Hb0 Hl0 i Hi) as (fk & Hin & Ha & E1 & E2).
  exists fk. split; [assumption|]. split; [assumption|].
  unfold parents, children.
  rewrite (filter_ext
             (fun ep : edge * props =>
                node_eqb (snd (fst ep)) (Alias i)
                && primary_matches None (snd ep))
             (fun ep => node_eqb (snd (fst ep)) (Alias i)))
    by (intros ep; cbn; apply andb_true_r).
  rewrite (filter_ext
             (fun ep : edge * props =>
                node_eqb (fst (fst ep)) (Alias i)
                && primary_matches None (snd ep))
             (fun ep => node_eqb (fst (fst ep)) (Alias i)))
    by (intros ep; cbn; apply andb_true_r).
  rewrite E1, E2. split; reflexivity.
Qed.

Lemma alias_node_links_witness :
  exists fk,
    In fk [ForeignKey "`s`.`B`" "`s`.`A`" [("owner_id", "id")]]
    /\ aliased (fk_props [("`s`.`A`", ["id"]); ("`s`.`B`", ["id"])] fk) = true
    /\ parents (fst (load (file_introspection ["s"] aliased_catalog)
                          new_dependencies))
               (Alias 0) None
       = [(Table (fk_referenced_table fk),
           fk_props [("`s`.`A`", ["id"]); ("`s`.`B`", ["id"])] fk)]
    /\ children (fst (load (file_introspection ["s"] aliased_catalog)
                           new_dependencies))
                (Alias 0) None
       = [(Table (fk_referencing_table fk),
           fk_props [("`s`.`A`", ["id"]); ("`s`.`B`", ["id"])] fk)].
Proof.
  refine (alias_node_links (file_introspection ["s"] aliased_catalog)
            new_dependencies _ _ 0 eq_refl eq_refl _).
  vm_compute. auto.
Defined.

(* ------------------------------------------------------------------ *)
(** ** Dependencies.load: the primary keys gathered *)
(* ------------------------------------------------------------------ *)

Lemma append_inv_head (p a b : string) : (p ++ a = p ++ b)%string -> a = b.
Proof.
  induction p as [|ch p IH]; cbn; [auto|]. intros [= H]. auto.
Qed.

Lemma append_inv_tail (a b : string) (ch : ascii) :
  (a ++ String ch "" = b ++ String ch "")%string -> a = b.
Proof.
  revert b. induction a as [|x a IH]; intros [|y b]; cbn; intros H.
  - reflexivity.
  - injection H as _ H. destruct b; discriminate H.
  - injection H as _ H. destruct a; discriminate H.
  - injection H as -> H. f_equal. now apply IH.
Qed.

Lemma full_table_name_inj (schemas : list string) (a b : string) :
  full_table_name schemas a = full_table_name schemas b -> a = b.
Proof.
  unfold full_table_name. intros H.
  apply append_inv_head in H. apply append_inv_head in H.
  apply append_inv_head in H. now apply append_inv_tail in H.
Qed.

Lemma qualified_inj (c : introspection) (a b : string) :
  qualified c a = qualified c b -> a = b.
Proof.
  unfold qualified. destruct (sqlite c); [apply full_table_name_inj | auto].
Qed.

Lemma in_set_add (x col : string) (s : list string) :
  In x (set_add col s) <-> x = col \/ In x s.
Proof.
  unfold set_add. destruct (set_mem col s) eqn:E.
  - apply set_mem_In in E. split; [auto | intros [->|H]; assumption].
  - rewrite in_app_iff. cbn. intuition.
Qed.

Lemma NoDup_set_add (col : string) (s : list string) :
  NoDup s -> NoDup (set_add col s).
Proof.
  intros H. unfold set_add. destruct (set_mem col s) eqn:E; [assumption|].
  assert (Hn : ~ In col s).
  { intros Hin. apply set_mem_In in Hin. congruence. }
  clear E. induction H as [|y s Hy Hs IH]; cbn.
  - constructor; [intros [] | constructor].
  - constructor.
    + rewrite in_app_iff. cbn. intros [H|[H|[]]]; [contradiction|].
      apply Hn. now left.
    + apply IH. intros H. apply Hn. now right.
Qed.

Lemma string_eqb_eq (a b : string) : String.eqb a b = true <-> a = b.
Proof. apply String.eqb_eq. Qed.

Lemma in_pks_add (tab x name col : string)
      (pks : list (string * list string)) :
  In x (pks_get tab (pks_add name col pks))
  <-> (tab = name /\ x = col) \/ In x (pks_get tab pks).
Proof.
  unfold pks_get, pks_add.
  destruct (String.eqb name tab) eqn:E.
  - apply String.eqb_eq in E. subst tab.
    rewrite (dict_get_set_same String.eqb string_eqb_eq), in_set_add.
    intuition.
  - apply String.eqb_neq in E.
    rewrite (dict_get_set_other String.eqb string_eqb_eq name tab) by exact E.
    split; [auto|]. intros [[H _]|H]; [congruence | exact H].
Qed.

Lemma in_dict_set {K V : Type} (eqb : K -> K -> bool) (k k' : K)
      (v v' : V) (d : list (K * V)) :
  In (k', v') (dict_set eqb k v d) -> v' = v \/ In (k', v') d.
Proof.
  induction d as [|[k0 v0] d IH]; cbn.
  - intros [[= _ <-]|[]]. now left.
  - destruct (eqb k k0); cbn.
    + intros [[= _ <-]|H]; [now left | right; now right].
    + intros [H|H]; [right; now left|].
      destruct (IH H) as [E|E]; [now left | right; now right].
Qed.

(** The loop that gathers the primary keys, over the names [f] gives the
    tables. *)
Lemma pks_gathered (f : string -> string) (rows : list (string * string)) :
  forall acc : list (string * list string),
    NoDup (map fst acc) ->
    (forall tab cols, In (tab, cols) acc -> NoDup cols /\ cols <> []) ->
    let pks := fold_left (fun pks r => pks_add (f (fst r)) (snd r) pks)
                         rows acc in
    NoDup (map fst pks)
    /\ (forall tab cols, In (tab, cols) pks -> NoDup cols /\ cols <> [])
    /\ (forall tab col,
           In col (pks_get tab pks)
           <-> In col (pks_get tab acc)
               \/ exists tbl, f tbl = tab /\ In (tbl, col) rows).
Proof.
  induction rows as [|[tbl0 col0] rows IH]; intros acc Hnd Hcols;
    cbn [fold_left fst snd].
  - split; [assumption|]. split; [assumption|]. intros tab col.
    split; [auto|]. intros [H|(tbl & _ & [])]. exact H.
  - destruct (IH (pks_add (f tbl0) col0 acc)) as (H1 & H2 & H3).
    + unfold pks_add.
      now apply (dict_keys_set_NoDup String.eqb string_eqb_eq).
    + intros tab cols Hin. unfold pks_add in Hin.
      apply in_dict_set in Hin. destruct Hin as [->|Hin]; [|now apply (Hcols tab)].
      split.
      * apply NoDup_set_add.
        destruct (dict_get String.eqb (f tbl0) acc) as [s|] eqn:E;
          [|constructor].
        apply (dict_get_Some_In String.eqb string_eqb_eq) in E.
        now apply (Hcols _ _ E).
      * intros E.
        assert (Hin : In col0 (set_add col0
                         match dict_get String.eqb (f tbl0) acc with
                         | Some s => s | None => [] end)).
        { apply in_set_add. now left. }
        rewrite E in Hin. destruct Hin.
    + split; [assumption|]. split; [assumption|]. intros tab col.
      rewrite H3, in_pks_add. split.
      * intros [[[-> ->]|H]|(tbl & E & Hin)]; [| now left |].
        -- right. exists tbl0. split; [reflexivity | now left].
        -- right. exists tbl. split; [assumption | now right].
      * intros [H|(tbl & E & [[= -> ->]|Hin])].
        -- left. now right.
        -- left. left. now split.
        -- right. now exists tbl.
Qed.

(** When the primary-key query returns, and on the file backend at most
    one schema is registered, [load] gathers one set of columns per
    table named in the rows: under the table's name, exactly the columns
    the rows list for it, each once. *)
Theorem load_pks_groups_columns (c : introspection)
        (rows : list (string * string)) :
  primary_key_rows c = Return rows ->
  (sqlite c = true -> List.length (schemas c) <= 1) ->
  exists pks,
    load_pks c = Return pks
    /\ NoDup (map fst pks)
    /\ (forall tab cols, In (tab, cols) pks -> NoDup cols /\ cols <> [])
    /\ (forall tbl col,
           In col (pks_get (qualified c tbl) pks) <-> In (tbl, col) rows)
    /\ (forall tab,
           In tab (map fst pks)
           <-> exists tbl col, tab = qualified c tbl /\ In (tbl, col) rows).
Proof.
  intros Hrows Hone.
  destruct (pks_gathered (qualified c) rows [] (NoDup_nil _)
              (fun _ _ H => match H with end)) as (H1 & H2 & H3).
  cbn zeta in H1, H2, H3.
  exists (fold_left (fun pks r => pks_add (qualified c (fst r)) (snd r) pks)
                    rows []).
  split.
  { unfold load_pks, qualified. rewrite Hrows.
    destruct (sqlite c) eqn:Hs; [|reflexivity].
    specialize (Hone eq_refl).
    now rewrite (proj2 (Nat.ltb_ge 1 (List.length (schemas c))) Hone). }
  split; [assumption|]. split; [assumption|]. split.
  - intros tbl col. rewrite H3. cbn. split.
    + intros [[]|(tbl' & E & Hin)]. apply qualified_inj in E. now subst.
    + intros H. right. now exists tbl.
  - intros tab. split.
    + intros Hin. apply in_map_iff in Hin.
      destruct Hin as ([tab' cols] & E & Hin). cbn in E. subst tab'.
      destruct (H2 _ _ Hin) as [Hnd Hne].
      destruct cols as [|col cols]; [congruence|].
      assert (Hc : In col (pks_get tab
                     (fold_left (fun pks r =>
                                   pks_add (qualified c (fst r)) (snd r) pks)
                                rows []))).
      { unfold pks_get.
        rewrite (dict_get_In String.eqb string_eqb_eq _ _ _ H1 Hin).
        now left. }
      apply H3 in Hc. destruct Hc as [[]|(tbl & E & Hr)].
      exists tbl, col. now split.
    + intros (tbl & col & -> & Hin).
      assert (Hc : In col (pks_get (qualified c tbl)
                     (fold_left (fun pks r =>
                                   pks_add (qualified c (fst r)) (snd r) pks)
                                rows []))).
      { apply H3. right. now exists tbl. }
      unfold pks_get in Hc.
      destruct (dict_get String.eqb (qualified c tbl) _) as [s|] eqn:E;
        [|destruct Hc].
      apply (dict_get_Some_In String.eqb string_eqb_eq) in E.
      change (qualified c tbl) with (fst (qualified c tbl, s)).
      now apply in_map.
Qed.

Lemma load_pks_groups_columns_witness :
  exists pks,
    load_pks (file_introspection ["s"] composite_key_catalog) = Return pks
    /\ NoDup (map fst pks)
    /\ (forall tab cols, In (tab, cols) pks -> NoDup cols /\ cols <> [])
    /\ (forall tbl col,
           In col (pks_get (qualified
                              (file_introspection ["s"] composite_key_catalog)
                              tbl) pks)
           <-> In (tbl, col) [("A", "x"); ("B", "x")])
    /\ (forall tab,
           In tab (map fst pks)
           <-> exists tbl col,
               tab = qualified
                       (file_introspection ["s"] composite_key_catalog) tbl
               /\ In (tbl, col) [("A", "x"); ("B", "x")]).
Proof.
  refine (load_pks_groups_columns
            (file_introspection ["s"] composite_key_catalog)
            [("A", "x"); ("B", "x")] eq_refl _).
  intros _. cbn. lia.
Defined.

(* ------------------------------------------------------------------ *)
(** ** Dependencies.load: the primary keys on the nodes *)
(* ------------------------------------------------------------------ *)

Lemma load_pks_NoDup (c : introspection) (pks : list (string * list string)) :
  load_pks c = Return pks -> NoDup (map fst pks).
Proof.
  unfold load_pks. destruct (primary_key_rows c) as [rows|e]; [|discriminate].
  destruct (sqlite c).
  - destruct (1 <? List.length (schemas c))%nat; [discriminate|].
    intros [= <-].
    apply (pks_gathered (full_table_name (schemas c)) rows [] (NoDup_nil _)
             (fun _ _ H => match H with end)).
  - intros [= <-].
    apply (pks_gathered (fun t => t) rows [] (NoDup_nil _)
             (fun _ _ H => match H with end)).
Qed.

(** [add_node(n)] without attributes leaves the attributes of the nodes
    there are, and gives a new node none. *)
Lemma node_data_add_node_None (n x : node) (g : DiGraph) :
  dict_get node_eqb x (node_data (add_node n None g))
  = match dict_get node_eqb x (node_data g) with
    | Some a => Some a
    | None => if node_eqb n x then Some None else None
    end.
Proof.
  unfold add_node.
  destruct (dict_get node_eqb n (node_data g)) as [a|] eqn:E.
  - destruct (dict_get node_eqb x (node_data g)) eqn:Ex; [reflexivity|].
    destruct (node_eqb n x) eqn:Enx; [|reflexivity].
    apply node_eqb_eq in Enx. subst x. congruence.
  - cbn [node_data]. destruct (node_eqb n x) eqn:Enx.
    + apply node_eqb_eq in Enx. subst x.
      now rewrite (dict_get_set_same node_eqb node_eqb_eq), E.
    + apply node_eqb_neq in Enx.
      rewrite (dict_get_set_other node_eqb node_eqb_eq n x) by exact Enx.
      now destruct (dict_get node_eqb x (node_data g)).
Qed.

(** The nodes of the tables, before the foreign keys. *)
Lemma node_data_tables (pks : list (string * list string)) :
  NoDup (map fst pks) ->
  forall (g : DiGraph) (n : string),
    dict_get node_eqb (Table n)
      (node_data
         (fold_left (fun g npk => add_node (Table (fst npk)) (Some (snd npk)) g)
                    pks g))
    = match dict_get String.eqb n pks with
      | Some pk => Some (Some pk)
      | None => dict_get node_eqb (Table n) (node_data g)
      end.
Proof.
  induction pks as [|[m pk] pks IH]; intros Hnd g n; cbn [fold_left fst snd];
    [reflexivity|].
  inversion Hnd as [|? ? Hm Hnd']; subst.
  rewrite (IH Hnd'). cbn [dict_get].
  assert (Eset : node_data (add_node (Table m) (Some pk) g)
                 = dict_set node_eqb (Table m) (Some pk) (node_data g)).
  { unfold add_node. now destruct (dict_get node_eqb (Table m) (node_data g)). }
  rewrite Eset.
  destruct (String.eqb n m) eqn:E.
  - apply String.eqb_eq in E. subst m.
    rewrite (proj2 (dict_get_None String.eqb string_eqb_eq n pks) Hm).
    apply (dict_get_set_same node_eqb node_eqb_eq).
  - apply String.eqb_neq in E.
    destruct (dict_get String.eqb n pks); [reflexivity|].
    apply (dict_get_set_other node_eqb node_eqb_eq).
    intros [= H]. congruence.
Qed.

Lemma in_nodes_tables (pks : list (string * list string)) :
  forall (g : DiGraph) (x : node),
    In x (nodes
            (fold_left (fun g npk => add_node (Table (fst npk)) (Some (snd npk)) g)
                       pks g))
    <-> In x (nodes g) \/ exists n, x = Table n /\ In n (map fst pks).
Proof.
  induction pks as [|[m pk] pks IH]; intros g x; cbn [fold_left fst snd map].
  - split; [auto | intros [H|(n & _ & [])]; exact H].
  - rewrite IH, in_nodes_add_node. split.
    + intros [[->|H]|(n & -> & Hn)].
      * right. exists m. split; [reflexivity | now left].
      * now left.
      * right. exists n. split; [reflexivity | now right].
    + intros [H|(n & -> & [->|Hn])].
      * left. now right.
      * left. now left.
      * right. now exists n.
Qed.

(** One more node without attributes keeps the nodes' keys in place. *)
Lemma primary_keys_add_node (pks : list (string * list string))
      (n : node) (g : DiGraph) :
  (forall t, n = Table t -> In t (map fst pks) -> In n (nodes g)) ->
  (forall x, In x (nodes g) ->
             dict_get node_eqb x (node_data g) = Some (primary_key_of pks x)) ->
  forall x, In x (nodes (add_node n None g)) ->
            dict_get node_eqb x (node_data (add_node n None g))
            = Some (primary_key_of pks x).
Proof.
  intros Hkeys Hg x Hx. rewrite node_data_add_node_None.
  apply in_nodes_add_node in Hx.
  destruct (dict_get node_eqb x (node_data g)) as [a|] eqn:E.
  - assert (Hin : In x (nodes g)).
    { apply (dict_get_Some_In node_eqb node_eqb_eq) in E.
      change x with (fst (x, a)). now apply in_map. }
    rewrite <- (Hg x Hin). symmetry. exact E.
  - assert (Hnot : ~ In x (nodes g)).
    { now apply (dict_get_None node_eqb node_eqb_eq). }
    destruct Hx as [->|Hx]; [|contradiction].
    rewrite node_eqb_refl. f_equal.
    destruct n as [t|i]; [|reflexivity]. cbn.
    destruct (dict_get String.eqb t pks) as [pk|] eqn:Et; [|reflexivity].
    exfalso. apply Hnot. apply (Hkeys t eq_refl).
    apply (dict_get_Some_In String.eqb string_eqb_eq) in Et.
    change t with (fst (t, pk)). now apply in_map.
Qed.

Lemma primary_keys_add_edge (pks : list (string * list string))
      (u v : node) (p : props) (g : DiGraph) :
  (forall t, In t (map fst pks) -> In (Table t) (nodes g)) ->
  (forall x, In x (nodes g) ->
             dict_get node_eqb x (node_data g) = Some (primary_key_of pks x)) ->
  forall x, In x (nodes (add_edge u v p g)) ->
            dict_get node_eqb x (node_data (add_edge u v p g))
            = Some (primary_key_of pks x).
Proof.
  intros Hkeys Hg.
  change (node_data (add_edge u v p g))
    with (node_data (add_node v None (add_node u None g))).
  change (nodes (add_edge u v p g))
    with (nodes (add_node v None (add_node u None g))).
  apply primary_keys_add_node.
  - intros t -> Ht. rewrite in_nodes_add_node. right. now apply Hkeys.
  - apply primary_keys_add_node; [|assumption].
    intros t -> Ht. now apply Hkeys.
Qed.

Lemma primary_keys_add_foreign_key (pks : list (string * list string))
      (self : Dependencies) (fk : foreign_key) :
  let g := graph self in
  let g' := graph (add_foreign_key pks self fk) in
  (forall t, In t (map fst pks) -> In (Table t) (nodes g)) ->
  (forall x, In x (nodes g) ->
             dict_get node_eqb x (node_data g) = Some (primary_key_of pks x)) ->
  (forall t, In t (map fst pks) -> In (Table t) (nodes g'))
  /\ (forall x, In x (nodes g') ->
                dict_get node_eqb x (node_data g')
                = Some (primary_key_of pks x)).
Proof.
  cbn zeta. intros Hkeys Hg. unfold add_foreign_key.
  destruct (negb (aliased (fk_props pks fk))); cbn [graph].
  - split.
    + intros t Ht. rewrite in_nodes_add_edge. do 2 right. now apply Hkeys.
    + now apply primary_keys_add_edge.
  - assert (K1 : forall t, In t (map fst pks) ->
                   In (Table t)
                      (nodes (add_node (Alias (_node_alias_count self)) None
                                (graph self)))).
    { intros t Ht. rewrite in_nodes_add_node. right. now apply Hkeys. }
    assert (G1 : forall x,
               In x (nodes (add_node (Alias (_node_alias_count self)) None
                              (graph self))) ->
               dict_get node_eqb x
                 (node_data (add_node (Alias (_node_alias_count self)) None
                               (graph self)))
               = Some (primary_key_of pks x)).
    { apply primary_keys_add_node; [|assumption]. intros t [=]. }
    split.
    + intros t Ht. rewrite !in_nodes_add_edge. do 4 right. now apply K1.
    + apply primary_keys_add_edge.
      * intros t Ht. rewrite in_nodes_add_edge. do 2 right. now apply K1.
      * now apply primary_keys_add_edge.
Qed.

Lemma primary_keys_add_foreign_keys (pks : list (string * list string))
      (fks : list foreign_key) :
  forall d : Dependencies,
    (forall t, In t (map fst pks) -> In (Table t) (nodes (graph d))) ->
    (forall x, In x (nodes (graph d)) ->
               dict_get node_eqb x (node_data (graph d))
               = Some (primary_key_of pks x)) ->
    let g' := graph (fold_left (add_foreign_key pks) fks d) in
    (forall t, In t (map fst pks) -> In (Table t) (nodes g'))
    /\ (forall x, In x (nodes g') ->
                  dict_get node_eqb x (node_data g')
                  = Some (primary_key_of pks x)).
Proof.
  induction fks as [|fk fks IH]; intros d Hk Hg; cbn [fold_left];
    [now split|].
  destruct (primary_keys_add_foreign_key pks d fk Hk Hg) as [Hk' Hg'].
  now apply IH.
Qed.

(** In the graph [load] has built, every table for which the
    primary-key query listed columns is a node, and every node carries
    as [primary_key] the columns gathered for it: the foreign keys add
    tables and alias nodes without a key and alter no key. *)
Theorem load_keeps_primary_keys (c : introspection) (self : Dependencies)
        (pks : list (string * list string)) (fks : list foreign_key) :
  let g := graph (fst (load c self)) in
  load_pks c = Return pks ->
  load_fks c = Return fks ->
  (forall t, In t (map fst pks) -> In (Table t) (nodes g))
  /\ (forall x, In x (nodes g) ->
                dict_get node_eqb x (node_data g)
                = Some (primary_key_of pks x)).
Proof.
  intros g Hp Hf. unfold g. rewrite (load_graph c self pks fks Hp Hf).
  pose proof (load_pks_NoDup c pks Hp) as Hnd.
  apply primary_keys_add_foreign_keys; cbn [graph].
  - intros t Ht. apply in_nodes_tables. right. now exists t.
  - intros x Hx. apply in_nodes_tables in Hx.
    destruct Hx as [[]|(n & -> & Hn)].
    rewrite (node_data_tables pks Hnd). cbn.
    destruct (dict_get String.eqb n pks) eqn:E; [reflexivity|].
    apply (dict_get_None String.eqb string_eqb_eq) in E. contradiction.
Qed.

Lemma load_keeps_primary_keys_witness :
  dict_get node_eqb (Table "`s`.`B`")
    (node_data (graph (fst (load (file_introspection ["s"] aliased_catalog)
                                 new_dependencies))))
  = Some (Some ["id"])
  /\ dict_get node_eqb (Alias 0)
       (node_data (graph (fst (load (file_introspection ["s"] aliased_catalog)
                                    new_dependencies))))
     = Some None.
Proof.
  destruct (load_keeps_primary_keys
              (file_introspection ["s"] aliased_catalog) new_dependencies
              _ _ eq_refl eq_refl) as [_ H].
  split.
  - refine (H (Table "`s`.`B`") _). vm_compute. auto.
  - refine (H (Alias 0) _). vm_compute. auto.
Defined.

(* ------------------------------------------------------------------ *)
(** ** Dependencies.load: the foreign keys gathered *)
(* ------------------------------------------------------------------ *)

Lemma fk_key_eqb_eq (a b : fk_key) : fk_key_eqb a b = true <-> a = b.
Proof.
  destruct a as [[a1 a2] a3], b as [[b1 b2] b3]. unfold fk_key_eqb.
  rewrite !andb_true_iff, !String.eqb_eq. split.
  - intros [[-> ->] ->]. reflexivity.
  - intros [= -> -> ->]. auto.
Qed.

Lemma in_dict_set_key {K V : Type} (eqb : K -> K -> bool)
      (eqb_eq : forall a b, eqb a b = true <-> a = b)
      (k k' : K) (v v' : V) (d : list (K * V)) :
  In (k', v') (dict_set eqb k v d) -> (k' = k /\ v' = v) \/ In (k', v') d.
Proof.
  induction d as [|[k0 v0] d IH]; cbn.
  - intros [[= <- <-]|[]]. now left.
  - destruct (eqb k k0) eqn:E; cbn.
    + apply eqb_eq in E. subst k0.
      intros [[= <- <-]|H]; [now left | right; now right].
    + intros [H|H]; [right; now left|].
      destruct (IH H) as [H'|H']; [now left | right; now right].
Qed.

Lemma dict_set_nonempty {K V : Type} (eqb : K -> K -> bool) (k : K) (v : V)
      (d : list (K * V)) :
  dict_set eqb k v d <> [].
Proof. destruct d as [|[k0 v0] d]; cbn; [|destruct (eqb k k0)]; discriminate. Qed.

(** One turn of the grouping loop. *)
Lemma grouped_group_key (P : list fk_row) (D : list (fk_key * foreign_key))
      (r : fk_row) :
  grouped P D -> grouped (r :: P) (group_key D r).
Proof.
  intros (Hnd & Hfk & Hrows). unfold group_key. fold (row_key r).
  set (d0 := match dict_get fk_key_eqb (row_key r) D with
             | Some d => d
             | None => ForeignKey "" "" []
             end).
  assert (Hd0 : NoDup (map fst (fk_attr_map d0))
                /\ forall col ref,
                    In (col, ref) (fk_attr_map d0) ->
                    exists r', In r' P /\ row_key r' = row_key r
                               /\ column_name r' = col
                               /\ referenced_column_name r' = ref).
  { unfold d0. destruct (dict_get fk_key_eqb (row_key r) D) as [d|] eqn:E.
    - destruct (Hfk _ _ E) as (_ & _ & H1 & _ & H2). now split.
    - split; [constructor | intros col ref []]. }
  destruct Hd0 as [Hd0 Hd0'].
  split; [|split].
  - now apply (dict_keys_set_NoDup fk_key_eqb fk_key_eqb_eq).
  - intros k fk. destruct (fk_key_eqb (row_key r) k) eqn:Ek.
    + apply fk_key_eqb_eq in Ek. subst k.
      rewrite (dict_get_set_same fk_key_eqb fk_key_eqb_eq).
      intros [= <-]. cbn [fk_referencing_table fk_referenced_table
                          fk_attr_map].
      split; [reflexivity|]. split; [reflexivity|].
      split; [now apply (dict_keys_set_NoDup String.eqb string_eqb_eq)|].
      split; [apply dict_set_nonempty|].
      intros col ref Hin.
      apply (in_dict_set_key String.eqb string_eqb_eq) in Hin.
      destruct Hin as [[-> ->]|Hin].
      * exists r. split; [now left | auto].
      * destruct (Hd0' col ref Hin) as (r' & Hr' & H).
        exists r'. split; [now right | exact H].
    + apply (proj2 (not_true_iff_false _)) in Ek.
      rewrite (dict_get_set_other fk_key_eqb fk_key_eqb_eq (row_key r) k).
      2:{ intros E. apply Ek. now apply fk_key_eqb_eq. }
      intros E. destruct (Hfk _ _ E) as (H1 & H2 & H3 & H4 & H5).
      repeat (split; [assumption|]).
      intros col ref Hin. destruct (H5 col ref Hin) as (r' & Hr' & H).
      exists r'. split; [now right | exact H].
  - intros r0 [<-|Hr0].
    + eexists. split; [apply (dict_get_set_same fk_key_eqb fk_key_eqb_eq)|].
      cbn [fk_attr_map].
      apply (in_keys_set String.eqb string_eqb_eq). now left.
    + destruct (Hrows r0 Hr0) as (fk0 & E0 & Hc0).
      destruct (fk_key_eqb (row_key r) (row_key r0)) eqn:Ek.
      * apply fk_key_eqb_eq in Ek.
        eexists. rewrite <- Ek.
        split; [apply (dict_get_set_same fk_key_eqb fk_key_eqb_eq)|].
        cbn [fk_attr_map].
        apply (in_keys_set String.eqb string_eqb_eq). right.
        unfold d0. rewrite Ek, E0. exact Hc0.
      * exists fk0. split; [|exact Hc0].
        rewrite (dict_get_set_other fk_key_eqb fk_key_eqb_eq); [exact E0|].
        intros E. apply (proj2 (not_true_iff_false _)) in Ek. apply Ek.
        now apply fk_key_eqb_eq.
Qed.

Lemma grouped_fold (q : fk_row -> fk_row) (rows : list fk_row) :
  forall (P : list fk_row) (D : list (fk_key * foreign_key)),
    grouped P D ->
    grouped (rev (map q rows) ++ P)
            (fold_left (fun fks r => group_key fks (q r)) rows D).
Proof.
  induction rows as [|r rows IH]; intros P D H; cbn [fold_left map rev];
    [exact H|].
  rewrite <- app_assoc. cbn [app]. apply IH. now apply grouped_group_key.
Qed.

Lemma load_fks_fold (c : introspection) (rows : list fk_row) :
  foreign_key_rows c = Return rows ->
  load_fks c
  = Return (map snd
              (fold_left (fun fks r => group_key fks (qualified_row c r))
                         rows [])).
Proof.
  intros Hrows. unfold load_fks, qualified_row. rewrite Hrows.
  destruct (sqlite c); reflexivity.
Qed.

(** When the foreign-key query returns, [load] gathers the rows into
    foreign keys: every row belongs to a foreign key between its two
    tables that maps its column; and every foreign key maps at least
    one column, maps no column twice, and maps a column to a referenced
    column only when a row between its two tables says so. *)
Theorem load_fks_groups_rows (c : introspection) (rows : list fk_row) :
  foreign_key_rows c = Return rows ->
  exists fks,
    load_fks c = Return fks
    /\ (forall r, In r rows ->
          exists fk,
            In fk fks
            /\ fk_referencing_table fk
               = referencing_table (qualified_row c r)
            /\ fk_referenced_table fk = referenced_table (qualified_row c r)
            /\ In (column_name r) (map fst (fk_attr_map fk)))
    /\ (forall fk, In fk fks ->
          NoDup (map fst (fk_attr_map fk))
          /\ fk_attr_map fk <> []
          /\ forall col ref,
              In (col, ref) (fk_attr_map fk) ->
              exists r,
                In r rows
                /\ referencing_table (qualified_row c r)
                   = fk_referencing_table fk
                /\ referenced_table (qualified_row c r)
                   = fk_referenced_table fk
                /\ column_name r = col
                /\ referenced_column_name r = ref).
Proof.
  intros Hrows. eexists. split; [exact (load_fks_fold c rows Hrows)|].
  assert (H0 : grouped [] []).
  { split; [constructor|]. split; [intros k fk [=] | intros r []]. }
  pose proof (grouped_fold (qualified_row c) rows [] [] H0) as H.
  rewrite app_nil_r in H. destruct H as (Hnd & Hfk & Hr).
  assert (Hcol : forall r, column_name (qualified_row c r) = column_name r
                           /\ referenced_column_name (qualified_row c r)
                              = referenced_column_name r).
  { intros r. unfold qualified_row. now destruct (sqlite c). }
  split.
  - intros r Hin.
    destruct (Hr (qualified_row c r)) as (fk & E & Hc).
    { apply -> in_rev. now apply in_map. }
    exists fk.
    destruct (Hfk _ _ E) as (H1 & H2 & _).
    split.
    { apply (dict_get_Some_In fk_key_eqb fk_key_eqb_eq) in E.
      change fk with (snd (row_key (qualified_row c r), fk)).
      now apply in_map. }
    split; [exact H1|]. split; [exact H2|].
    now rewrite <- (proj1 (Hcol r)).
  - intros fk Hin. apply in_map_iff in Hin.
    destruct Hin as ([k fk'] & Efk & Hin). cbn in Efk. subst fk'.
    apply (dict_get_In fk_key_eqb fk_key_eqb_eq _ _ _ Hnd) in Hin.
    destruct (Hfk _ _ Hin) as (H1 & H2 & H3 & H4 & H5).
    split; [exact H3|]. split; [exact H4|].
    intros col ref Hcr. destruct (H5 col ref Hcr) as (r' & Hr' & Ek & Ec & Er).
    apply (proj2 (in_rev _ _)) in Hr'. apply in_map_iff in Hr'.
    destruct Hr' as (r & <- & Hr'). exists r. subst k.
    split; [assumption|]. rewrite H1, H2.
    split; [reflexivity|]. split; [reflexivity|].
    now rewrite <- (proj1 (Hcol r)), <- (proj2 (Hcol r)).
Qed.

Lemma load_fks_groups_rows_witness :
  exists fks,
    load_fks (file_introspection ["s"] composite_key_catalog) = Return fks
    /\ (forall r,
          In r [FkRow "" "B" "A" "x" "x"; FkRow "" "B" "A" "y" "y"] ->
          exists fk,
            In fk fks
            /\ fk_referencing_table fk
               = referencing_table
                   (qualified_row
                      (file_introspection ["s"] composite_key_catalog) r)
            /\ fk_referenced_table fk
               = referenced_table
                   (qualified_row
                      (file_introspection ["s"] composite_key_catalog) r)
            /\ In (column_name r) (map fst (fk_attr_map fk)))
    /\ (forall fk, In fk fks ->
          NoDup (map fst (fk_attr_map fk))
          /\ fk_attr_map fk <> []
          /\ forall col ref,
              In (col, ref) (fk_attr_map fk) ->
              exists r,
                In r [FkRow "" "B" "A" "x" "x"; FkRow "" "B" "A" "y" "y"]
                /\ referencing_table
                     (qualified_row
                        (file_introspection ["s"] composite_key_catalog) r)
                   = fk_referencing_table fk
                /\ referenced_table
                     (qualified_row
                        (file_introspection ["s"] composite_key_catalog) r)
                   = fk_referenced_table fk
                /\ column_name r = col
                /\ referenced_column_name r = ref).
Proof.
  exact (load_fks_groups_rows
           (file_introspection ["s"] composite_key_catalog)
           [FkRow "" "B" "A" "x" "x"; FkRow "" "B" "A" "y" "y"] eq_refl).
Defined.

